(** * Predictive-distribution utilities of [probit]

    A shallow embedding of [probit/utils/predictive.py] and of the forward
    pass of [probit/losses/normed_sigmoid_loss.py], with the properties the
    specification states about them.

    Modelling decisions.

    - A 2-D tensor is a list of rows ([matrix T]); a tensor kept with
      [keepdim=True] is a matrix whose rows have one entry.  [torch]'s
      broadcasting of binary operations is written out ([broadcast]): sizes
      must agree or one of them must be 1, otherwise a [RuntimeError].
    - The element type [T] is abstract ([Scalar]): the arithmetic, the
      library's special functions ([ndtr], [sigmoid], Owen's T, ...) and the
      NaN test are the operations of an interface.  The interface has two
      instances here: the real numbers (exact arithmetic, no NaN, the normal
      distribution function by its power series and Owen's T by its
      integral) and the binary64 floats of the kernel (IEEE infinities and
      NaN, the transcendental functions left as parameters).  Precision
      changes ([.double()], [.float()]) and device moves ([.cpu()],
      [.numpy()], [.to(device)]) do not change the value that is modelled.
    - A reduction [torch.sum] adds the entries from left to right starting
      from zero.
    - A Python exception is a value of [exn]; a function that can raise
      returns a [result]. *)

From Stdlib Require Import List String Ascii Bool Arith ZArith QArith Lia.
From Stdlib Require Import Reals Lra Psatz.
From Stdlib Require Import Floats Uint63.
Import ListNotations.

Close Scope Q_scope.
Close Scope R_scope.
Close Scope float_scope.

Set Implicit Arguments.

(** ** Exceptions *)

Inductive exn : Type :=
| NotImplementedError (msg : string)
| KeyError (key : string)
| ValueError (msg : string)
| IndexError (msg : string)
| RuntimeError (msg : string).

Inductive result (A : Type) : Type :=
| Ok (a : A)
| Raise (e : exn).

Arguments Ok {A} a.
Arguments Raise {A} e.

Definition bind {A B : Type} (m : result A) (k : A -> result B) : result B :=
  match m with
  | Ok a => k a
  | Raise e => Raise e
  end.

Notation "x <- m ;; k" := (bind m (fun x => k))
  (at level 61, m at next level, right associativity).

Definition raises {A : Type} (m : result A) : Prop := exists e, m = Raise e.

Definition returns {A : Type} (m : result A) : Prop := exists a, m = Ok a.

(** ** Python strings *)

Open Scope string_scope.

(** [needle in hay] on [str]: substring containment. *)
Fixpoint py_in (needle hay : string) : bool :=
  String.prefix needle hay ||
  match hay with
  | EmptyString => false
  | String _ rest => py_in needle rest
  end.

(** [s.endswith(suffix)]. *)
Definition endswith (s suffix : string) : bool :=
  let n := String.length s in
  let k := String.length suffix in
  Nat.leb k n && String.eqb (String.substring (n - k) k s) suffix.

(** [s.startswith(p)]. *)
Definition startswith (s p : string) : bool := String.prefix p s.

(** ** The element type of a tensor *)

Class Scalar (T : Type) : Type := {
  lit : Q -> T;                (* a numeric literal *)
  pi : T;                      (* math.pi *)
  of_count : nat -> T;         (* an integer count converted to the dtype *)
  fadd : T -> T -> T;
  fsub : T -> T -> T;
  fmul : T -> T -> T;
  fdiv : T -> T -> T;
  fneg : T -> T;
  fsqrt : T -> T;              (* torch.sqrt *)
  fexp : T -> T;               (* torch.exp *)
  flog : T -> T;               (* torch.log *)
  sigmoid : T -> T;            (* F.sigmoid / torch.sigmoid *)
  ndtr : T -> T;               (* torch.special.ndtr *)
  owens_t : T -> T -> T;       (* scipy.special.owens_t *)
  fmax : T -> T -> T;          (* torch.maximum, clamp(min=...) *)
  isnan : T -> bool            (* torch.isnan *)
}.

(** ** Tensors *)

Definition matrix (T : Type) : Type := list (list T).

Definition has_shape {T : Type} (N C : nat) (m : matrix T) : Prop :=
  List.length m = N /\ Forall (fun row => List.length row = C) m.

Fixpoint mapM {A B : Type} (f : A -> result B) (l : list A) : result (list B) :=
  match l with
  | [] => Ok []
  | x :: l' => y <- f x ;; ys <- mapM f l' ;; Ok (y :: ys)
  end.

Fixpoint zipM {A B C : Type} (f : A -> B -> result C)
  (xs : list A) (ys : list B) : result (list C) :=
  match xs, ys with
  | x :: xs', y :: ys' => c <- f x y ;; cs <- zipM f xs' ys' ;; Ok (c :: cs)
  | _, _ => Ok []
  end.

(** One dimension of a broadcast binary operation: equal sizes pair up, a
    size of 1 is repeated, anything else is refused. *)
Definition broadcast {A B C : Type} (f : A -> B -> result C)
  (xs : list A) (ys : list B) : result (list C) :=
  if Nat.eqb (List.length xs) (List.length ys) then zipM f xs ys
  else
    match xs, ys with
    | [x], _ => mapM (f x) ys
    | _, [y] => mapM (fun x => f x y) xs
    | _, _ =>
        Raise (RuntimeError
                 "The size of tensor a must match the size of tensor b")
    end.

(** An elementwise binary operation on two 2-D tensors. *)
Definition tensor_map2 {A B C : Type} (f : A -> B -> C)
  (a : matrix A) (b : matrix B) : result (matrix C) :=
  broadcast (broadcast (fun x y => Ok (f x y))) a b.

Definition tensor_map {A B : Type} (f : A -> B) (a : matrix A) : matrix B :=
  map (map f) a.

(** The pairing of two lists entry by entry, for stating results. *)
Fixpoint zip_with {A B C : Type} (f : A -> B -> C)
  (xs : list A) (ys : list B) : list C :=
  match xs, ys with
  | x :: xs', y :: ys' => f x y :: zip_with f xs' ys'
  | _, _ => []
  end.

Section Predictive.

Context {T : Type} {S : Scalar T}.

(** [torch.sum] of a 1-D slice. *)
Definition tsum (row : list T) : T := fold_left fadd row (lit 0).

(** [torch.sum(x, dim=1, keepdim=True)]: an [N,1] tensor. *)
Definition sum_keepdim (x : matrix T) : matrix T :=
  map (fun row => [tsum row]) x.

(** [torch.mean(x, dim=-1, keepdim=True)]. *)
Definition mean_keepdim (x : matrix T) : matrix T :=
  map (fun row => [fdiv (tsum row) (of_count (List.length row))]) x.

(** [x ** 2]. *)
Definition pow2 (x : T) : T := fmul x x.

Definition LAMBDA_0 : T := fdiv pi (lit 8).

Definition probit_scale (link_function : string) : result T :=
  if link_function =? "probit" then Ok (lit 1)
  else if link_function =? "logit" then Ok LAMBDA_0
  else Raise (NotImplementedError "Invalid link function").

Definition gaussian_pushforward_mean (means vars : matrix T)
  (link_function output_function : string) (return_logits : bool)
  : result (matrix T) :=
  scale <- probit_scale link_function ;;
  if py_in "normcdf" output_function then
    logits <- tensor_map2 fdiv means
      (tensor_map (fun v => fsqrt (fadd (fdiv (lit 1) scale) v)) vars) ;;
    if return_logits then Ok logits
    else Ok (tensor_map ndtr logits)
  else if py_in "sigmoid" output_function then
    scale <- probit_scale link_function ;;
    logits <- tensor_map2 fdiv means
      (tensor_map (fun v => fsqrt (fadd (lit 1) (fmul scale v))) vars) ;;
    if return_logits then Ok logits
    else Ok (tensor_map sigmoid logits)
  else Raise (NotImplementedError "Invalid output function").

Definition gaussian_pushforward_second_moment (means vars : matrix T)
  (link_function output_function : string) : result (matrix T) :=
  scale <- probit_scale link_function ;;
  if output_function =? "sigmoid_product" then
    if link_function =? "logit" then
      s <- gaussian_pushforward_mean means vars "logit" "sigmoid" false ;;
      num <- tensor_map2 fmul s (tensor_map (fsub (lit 1)) s) ;;
      quot <- tensor_map2 fdiv num
        (tensor_map (fun v => fsqrt (fadd (lit 1) (fmul scale v))) vars) ;;
      tensor_map2 fsub s quot
    else Raise (NotImplementedError "Invalid link function for sigmoid_product")
  else
    owens_t_input1 <- tensor_map2 fdiv means
      (tensor_map (fun v => fsqrt (fadd (fdiv (lit 1) scale) v)) vars) ;;
    let owens_t_input2 :=
      tensor_map
        (fun v => fdiv (lit 1)
                    (fsqrt (fadd (lit 1) (fmul (fmul (lit 2) scale) v))))
        vars in
    t <- tensor_map2 owens_t owens_t_input1 owens_t_input2 ;;
    let t_term := tensor_map (fmul (lit (-2))) t in
    p_term <- gaussian_pushforward_mean means vars link_function
                output_function false ;;
    tensor_map2 fadd p_term t_term.

Definition get_mom_dirichlet_approximation (means vars : matrix T)
  (link_function output_function : string) : result (matrix T) :=
  M1 <- gaussian_pushforward_mean means vars link_function output_function
          false ;;
  M2 <- gaussian_pushforward_second_moment means vars link_function
          output_function ;;
  let S1 := sum_keepdim M1 in
  S <- tensor_map2 fmax S1 (tensor_map (fun _ => lit 1) S1) ;;
  M1S <- tensor_map2 fmul M1 S ;;
  num <- tensor_map2 fsub M1S M2 ;;
  den <- tensor_map2 fsub M2 (tensor_map pow2 M1) ;;
  ratio <- tensor_map2 fdiv num den ;;
  let LP := mean_keepdim (tensor_map flog ratio) in
  let P := tensor_map fexp LP in
  PM1 <- tensor_map2 fmul P M1 ;;
  tensor_map2 fdiv PM1 S.

(** Predictive distribution with the probit link function or approximation. *)
Definition probit_predictive (mean var : matrix T)
  (link_function output_function : string) (return_logits : bool)
  : result (matrix T) :=
  predictives <- gaussian_pushforward_mean mean var link_function
                   output_function return_logits ;;
  if return_logits then Ok predictives
  else
    let sum_predictives := sum_keepdim predictives in
    predictives <- tensor_map2 fdiv predictives sum_predictives ;;
    Ok (tensor_map (fun x => fmax x (lit (1 # 10000000000))) predictives).

(** [beta_params[:, :, 0]]. *)
Definition select_first (beta_params : list (list (list T)))
  : result (matrix T) :=
  mapM (mapM (fun cell : list T =>
                match cell with
                | [] => Raise (IndexError
                          "index 0 is out of bounds for dimension 2 with size 0")
                | x :: _ => Ok x
                end)) beta_params.

(** Predictive mean of beta distributions. *)
Definition beta_predictive (beta_params : list (list (list T)))
  : result (matrix T) :=
  first <- select_first beta_params ;;
  predictives <- tensor_map2 fdiv first (tensor_map tsum beta_params) ;;
  let sum_predictives := sum_keepdim predictives in
  tensor_map2 fdiv predictives sum_predictives.

(** [torch.where(condition, input, other)]. *)
Definition tensor_where (condition : matrix bool) (input other : matrix T)
  : result (matrix T) :=
  io <- tensor_map2 pair input other ;;
  tensor_map2 (fun (c : bool) (xy : T * T) => if c then fst xy else snd xy)
    condition io.

(** The number of [True] entries of a boolean slice. *)
Definition count_true (row : list bool) : nat :=
  List.length (filter (fun b : bool => b) row).

(** Predictive mean of Dirichlet distributions. *)
Definition dirichlet_predictive (params : matrix T) : result (matrix T) :=
  predictives <- tensor_map2 fdiv params (sum_keepdim params) ;;
  (* remove nans due to infinite dirichlet parameters *)
  let is_nan := tensor_map isnan predictives in
  let nan_count := map (fun row => [count_true row]) is_nan in
  predictives <- tensor_where
                   (map (fun row => [existsb (fun b : bool => b) row]) is_nan)
                   (tensor_map (fun _ => lit 0) predictives)
                   predictives ;;
  ones_over_count <- tensor_map2 (fun (o : T) (k : nat) => fdiv o (of_count k))
                       (tensor_map (fun _ => lit 1) predictives) nan_count ;;
  tensor_where is_nan ones_over_count predictives.

(** [x.shape[1]]; an empty batch is the empty list and reads as 0 columns. *)
Definition shape1 (x : matrix T) : nat :=
  match x with
  | [] => 0
  | row :: _ => List.length row
  end.

(** [F.one_hot(target, num_classes).to(dtype)]. *)
Definition one_hot (target : list Z) (num_classes : nat) : result (matrix T) :=
  mapM (fun t : Z =>
          if (t <? 0)%Z then
            Raise (RuntimeError "Class values must be non-negative.")
          else if (t <? Z.of_nat num_classes)%Z then
            Ok (map (fun j => if Nat.eqb j (Z.to_nat t) then lit 1 else lit 0)
                  (seq 0 num_classes))
          else
            Raise (RuntimeError
                     "Class values must be smaller than num_classes."))
    target.

Definition diag_hessian_normalized_sigmoid (logit : matrix T)
  (target : list Z) : result (matrix T) :=
  let q := tensor_map sigmoid logit in
  p <- tensor_map2 fdiv q (sum_keepdim q) ;;
  y <- one_hot target (shape1 logit) ;;
  let q_complement := tensor_map (fsub (lit 1)) q in
  pq_complement <- tensor_map2 fmul p q_complement ;;
  yq <- tensor_map2 fmul y q ;;
  yqq <- tensor_map2 fmul yq q_complement ;;
  pp <- tensor_map2 fmul p
          (tensor_map
             (fun x => fadd (fsub (lit 1) (fmul (lit 3) x))
                         (fmul (lit 2) (pow2 x))) q) ;;
  lhs <- tensor_map2 fadd yqq pp ;;
  tensor_map2 fsub lhs (tensor_map pow2 pq_complement).

(** *** The link/output wrappers *)

Definition logit_link_normcdf_output (mean var : matrix T)
  (return_logits : bool) : result (matrix T) :=
  probit_predictive mean var "logit" "normcdf" return_logits.

Definition logit_link_sigmoid_output (mean var : matrix T)
  (return_logits : bool) : result (matrix T) :=
  probit_predictive mean var "logit" "sigmoid" return_logits.

Definition probit_link_normcdf_output (mean var : matrix T)
  (return_logits : bool) : result (matrix T) :=
  probit_predictive mean var "probit" "normcdf" return_logits.

Definition probit_link_sigmoid_output (mean var : matrix T)
  (return_logits : bool) : result (matrix T) :=
  probit_predictive mean var "probit" "sigmoid" return_logits.

Definition logit_link_normcdf_output_dirichlet (mean var : matrix T)
  : result (matrix T) :=
  get_mom_dirichlet_approximation mean var "logit" "normcdf".

Definition logit_link_sigmoid_output_dirichlet (mean var : matrix T)
  : result (matrix T) :=
  get_mom_dirichlet_approximation mean var "logit" "sigmoid".

Definition logit_link_sigmoid_product_output_dirichlet (mean var : matrix T)
  : result (matrix T) :=
  get_mom_dirichlet_approximation mean var "logit" "sigmoid_product".

Definition probit_link_normcdf_output_dirichlet (mean var : matrix T)
  : result (matrix T) :=
  get_mom_dirichlet_approximation mean var "probit" "normcdf".

Definition probit_link_sigmoid_output_dirichlet (mean var : matrix T)
  : result (matrix T) :=
  get_mom_dirichlet_approximation mean var "probit" "sigmoid".

End Predictive.

(** ** The strategy registries *)

(** A Python dictionary with string keys, as the list of its items;
    [d[key]] raises [KeyError] on a key that is absent. *)
Fixpoint dict_get {V : Type} (d : list (string * V)) (key : string)
  : result V :=
  match d with
  | [] => Raise (KeyError key)
  | (k, v) :: d' => if k =? key then Ok v else dict_get d' key
  end.

(** The function objects that [PREDICTIVE_DICT] holds. *)
Inductive predictive_function : Type :=
| fn_softmax_laplace_bridge
| fn_softmax_mean_field
| fn_softmax_mc
| fn_logit_link_normcdf_output
| fn_logit_link_sigmoid_output
| fn_logit_link_mc
| fn_probit_link_normcdf_output
| fn_probit_link_sigmoid_output
| fn_probit_link_mc.

Definition PREDICTIVE_DICT : list (string * predictive_function) :=
  [ ("softmax_laplace_bridge", fn_softmax_laplace_bridge);
    ("softmax_mean_field", fn_softmax_mean_field);
    ("softmax_mc", fn_softmax_mc);
    ("logit_link_normcdf_output", fn_logit_link_normcdf_output);
    ("logit_link_sigmoid_output", fn_logit_link_sigmoid_output);
    ("logit_link_sigmoid_product_output", fn_logit_link_sigmoid_output);
    ("logit_link_mc", fn_logit_link_mc);
    ("probit_link_normcdf_output", fn_probit_link_normcdf_output);
    ("probit_link_sigmoid_output", fn_probit_link_sigmoid_output);
    ("probit_link_mc", fn_probit_link_mc) ].

(** [functools.partial(func, **keywords)]: the function and the keyword
    arguments bound to it. *)
Record partial : Type := Partial {
  func : predictive_function;
  kw_num_mc_samples : option nat;
  kw_use_correction : option bool
}.

Definition get_predictive (predictive : string) (use_correction : bool)
  (num_mc_samples : nat) : result partial :=
  predictive_fn <- dict_get PREDICTIVE_DICT predictive ;;
  if endswith predictive "mc" then
    Ok (Partial predictive_fn (Some num_mc_samples) None)
  else if predictive =? "softmax_laplace_bridge" then
    Ok (Partial predictive_fn None (Some use_correction))
  else Ok (Partial predictive_fn None None).

(** The function objects that [DIRICHLET_DICT] holds. *)
Inductive dirichlet_function : Type :=
| fn_logit_link_normcdf_output_dirichlet
| fn_logit_link_sigmoid_output_dirichlet
| fn_logit_link_sigmoid_product_output_dirichlet
| fn_probit_link_normcdf_output_dirichlet
| fn_probit_link_sigmoid_output_dirichlet.

Definition DIRICHLET_DICT : list (string * dirichlet_function) :=
  [ ("logit_link_normcdf_output", fn_logit_link_normcdf_output_dirichlet);
    ("logit_link_sigmoid_output", fn_logit_link_sigmoid_output_dirichlet);
    ("logit_link_sigmoid_product_output",
      fn_logit_link_sigmoid_product_output_dirichlet);
    ("probit_link_normcdf_output", fn_probit_link_normcdf_output_dirichlet);
    ("probit_link_sigmoid_output", fn_probit_link_sigmoid_output_dirichlet) ].

Definition get_dirichlet (dirichlet : string) : result dirichlet_function :=
  dict_get DIRICHLET_DICT dirichlet.

Definition get_likelihood (predictive : string) : result string :=
  if startswith predictive "softmax" then Ok "softmax"
  else if startswith predictive "probit" then Ok "normcdf"
  else if startswith predictive "logit" then Ok "sigmoid"
  else Raise (ValueError "Invalid predictive provided").

(** The [(link_function, output_function)] pair a registered function passes
    on, read off its body; [None] for the strategies that do not go through
    the link/output pushforward (softmax and sampling strategies). *)
Definition predictive_kwargs (f : predictive_function)
  : option (string * string) :=
  match f with
  | fn_logit_link_normcdf_output => Some ("logit", "normcdf")
  | fn_logit_link_sigmoid_output => Some ("logit", "sigmoid")
  | fn_probit_link_normcdf_output => Some ("probit", "normcdf")
  | fn_probit_link_sigmoid_output => Some ("probit", "sigmoid")
  | _ => None
  end.

Definition dirichlet_kwargs (f : dirichlet_function) : string * string :=
  match f with
  | fn_logit_link_normcdf_output_dirichlet => ("logit", "normcdf")
  | fn_logit_link_sigmoid_output_dirichlet => ("logit", "sigmoid")
  | fn_logit_link_sigmoid_product_output_dirichlet =>
      ("logit", "sigmoid_product")
  | fn_probit_link_normcdf_output_dirichlet => ("probit", "normcdf")
  | fn_probit_link_sigmoid_output_dirichlet => ("probit", "sigmoid")
  end.

Section Calls.

Context {T : Type} {S : Scalar T}.

(** Calling a registered closed-form predictive on [(mean, var)]; the softmax
    and sampling strategies are not part of this development. *)
Definition call_predictive (f : predictive_function) (mean var : matrix T)
  : option (result (matrix T)) :=
  match f with
  | fn_logit_link_normcdf_output =>
      Some (logit_link_normcdf_output mean var false)
  | fn_logit_link_sigmoid_output =>
      Some (logit_link_sigmoid_output mean var false)
  | fn_probit_link_normcdf_output =>
      Some (probit_link_normcdf_output mean var false)
  | fn_probit_link_sigmoid_output =>
      Some (probit_link_sigmoid_output mean var false)
  | _ => None
  end.

Definition call_dirichlet (f : dirichlet_function) (mean var : matrix T)
  : result (matrix T) :=
  match f with
  | fn_logit_link_normcdf_output_dirichlet =>
      logit_link_normcdf_output_dirichlet mean var
  | fn_logit_link_sigmoid_output_dirichlet =>
      logit_link_sigmoid_output_dirichlet mean var
  | fn_logit_link_sigmoid_product_output_dirichlet =>
      logit_link_sigmoid_product_output_dirichlet mean var
  | fn_probit_link_normcdf_output_dirichlet =>
      probit_link_normcdf_output_dirichlet mean var
  | fn_probit_link_sigmoid_output_dirichlet =>
      probit_link_sigmoid_output_dirichlet mean var
  end.

End Calls.

(** ** The normalized-sigmoid negative log-likelihood *)

Module NormedSigmoidNLLLoss.

Section Loss.

Context {T : Type} {S : Scalar T}.

(** Modelled from the spec: [log_normed_sigmoid] is imported from
    [probit.utils.predictive], which does not define it.  The specification
    gives the loss as [-mean(log(q_target / sum(q)))] with
    [q = sigmoid(logit)], so the helper is the logarithm of the sigmoid
    normalized by its sum over the classes of a row. *)
Definition log_normed_sigmoid (logit : matrix T) : matrix T :=
  map (fun row =>
         let q := map sigmoid row in
         map (fun x => flog (fdiv x (tsum q))) q)
    logit.

(** [l[i]] with Python's negative indices. *)
Definition py_index {A : Type} (l : list A) (i : Z) : result A :=
  let n := Z.of_nat (List.length l) in
  let j := if (i <? 0)%Z then (i + n)%Z else i in
  if ((0 <=? j)%Z && (j <? n)%Z)%bool then
    match nth_error l (Z.to_nat j) with
    | Some x => Ok x
    | None => Raise (IndexError "index out of range")
    end
  else Raise (IndexError "index out of range").

(** [x[torch.arange(target.shape[0]), target]]. *)
Definition gather (x : matrix T) (target : list Z) : result (list T) :=
  mapM (fun it : nat * Z =>
          row <- py_index x (Z.of_nat (fst it)) ;;
          py_index row (snd it))
    (combine (seq 0 (List.length target)) target).

(** [x.mean()] of a 1-D tensor. *)
Definition tmean (x : list T) : T := fdiv (tsum x) (of_count (List.length x)).

Definition forward (logit : matrix T) (target : list Z) : result T :=
  picked <- gather (log_normed_sigmoid logit) target ;;
  Ok (fneg (tmean picked)).

End Loss.

End NormedSigmoidNLLLoss.

(** ** Two element types *)

(** *** Exact real arithmetic

    The normal distribution function and Owen's T come from the
    special-function library and are parameters of the instance.  No real
    number is NaN. *)

Section RealScalar.

Variable ndtr_R : R -> R.
Variable owens_t_R : R -> R -> R.

Definition sigmoid_R (x : R) : R := (1 / (1 + Rtrigo_def.exp (- x)))%R.

Definition R_scalar : Scalar R := {|
  lit := Q2R;
  pi := PI;
  of_count := INR;
  fadd := Rplus;
  fsub := Rminus;
  fmul := Rmult;
  fdiv := Rdiv;
  fneg := Ropp;
  fsqrt := R_sqrt.sqrt;
  fexp := Rtrigo_def.exp;
  flog := Rpower.ln;
  sigmoid := sigmoid_R;
  ndtr := ndtr_R;
  owens_t := owens_t_R;
  fmax := Rmax;
  isnan := fun _ => false
|}.

End RealScalar.

(** *** Binary64 floats

    The arithmetic, the square root and the NaN test are the kernel's IEEE
    754 operations; the transcendental functions are parameters. *)

Definition float_of_Z (z : Z) : float :=
  match z with
  | Z0 => PrimFloat.zero
  | Zpos _ => PrimFloat.of_uint63 (Uint63.of_Z z)
  | Zneg p => PrimFloat.opp (PrimFloat.of_uint63 (Uint63.of_Z (Zpos p)))
  end.

Definition float_of_Q (q : Q) : float :=
  PrimFloat.div (float_of_Z (Qnum q)) (float_of_Z (Zpos (Qden q))).

(** [torch.maximum]: NaN if either argument is NaN, else the larger one. *)
Definition float_max (x y : float) : float :=
  if (PrimFloat.is_nan x || PrimFloat.is_nan y)%bool then PrimFloat.nan
  else if PrimFloat.ltb x y then y else x.

Section FloatScalar.

Variables exp_f log_f sigmoid_f ndtr_f : float -> float.
Variable owens_t_f : float -> float -> float.

Definition float_scalar : Scalar float := {|
  lit := float_of_Q;
  pi := 0x1.921fb54442d18p+1%float;
  of_count := fun n => float_of_Z (Z.of_nat n);   (* exact below 2^53 *)
  fadd := PrimFloat.add;
  fsub := PrimFloat.sub;
  fmul := PrimFloat.mul;
  fdiv := PrimFloat.div;
  fneg := PrimFloat.opp;
  fsqrt := PrimFloat.sqrt;
  fexp := exp_f;
  flog := log_f;
  sigmoid := sigmoid_f;
  ndtr := ndtr_f;
  owens_t := owens_t_f;
  fmax := float_max;
  isnan := PrimFloat.is_nan
|}.

End FloatScalar.

(** *** Runs on binary64 floats *)

Section FloatRuns.

Variables exp_f log_f sigmoid_f ndtr_f : float -> float.
Variable owens_t_f : float -> float -> float.

Let FS : Scalar float := float_scalar exp_f log_f sigmoid_f ndtr_f owens_t_f.

Example run_probit_normcdf_logits :
  @gaussian_pushforward_mean float FS
    [[1%float; (-1)%float]] [[0.5%float; 0.5%float]] "probit" "normcdf" true
  = Ok [[0x1.a20bd700c2c3fp-1%float; (-0x1.a20bd700c2c3fp-1)%float]].
Proof. vm_compute. reflexivity. Qed.

Example run_logit_sigmoid_product_logits :
  @gaussian_pushforward_mean float FS
    [[1%float; (-1)%float]] [[0.5%float; 0.5%float]]
    "logit" "sigmoid_product" true
  = Ok [[0x1.d41a3a6308f32p-1%float; (-0x1.d41a3a6308f32p-1)%float]].
Proof. vm_compute. reflexivity. Qed.

Example run_softmax_output_refused :
  @gaussian_pushforward_mean float FS
    [[1%float; (-1)%float]] [[0.5%float; 0.5%float]] "probit" "softmax" false
  = Raise (NotImplementedError "Invalid output function").
Proof. vm_compute. reflexivity. Qed.

Example run_shape_mismatch :
  @gaussian_pushforward_mean float FS
    [[1%float; (-1)%float]] [[0.5%float; 0.5%float; 0.5%float]]
    "probit" "normcdf" true
  = Raise (RuntimeError "The size of tensor a must match the size of tensor b").
Proof. vm_compute. reflexivity. Qed.

Example run_dirichlet_predictive :
  @dirichlet_predictive float FS
    [ [infinity; infinity; infinity; infinity];
      [1%float; 3%float; 4%float; 8%float];
      [infinity; 2%float; infinity; 5%float] ]
  = Ok [ [0.25%float; 0.25%float; 0.25%float; 0.25%float];
         [0.0625%float; 0.1875%float; 0.25%float; 0.5%float];
         [0.5%float; 0%float; 0.5%float; 0%float] ].
Proof. vm_compute. reflexivity. Qed.

Example run_beta_predictive :
  @beta_predictive float FS
    [ [ [1%float; 3%float]; [1%float; 1%float]; [3%float; 1%float] ] ]
  = Ok [ [0x1.5555555555555p-3%float; 0x1.5555555555555p-2%float; 0.5%float] ].
Proof. vm_compute. reflexivity. Qed.

Example run_get_predictive :
  get_predictive "logit_link_mc" true 10
  = Ok (Partial fn_logit_link_mc (Some 10) None) /\
  get_predictive "softmax_laplace_bridge" true 10
  = Ok (Partial fn_softmax_laplace_bridge None (Some true)) /\
  get_predictive "logit_link_sigmoid_product_output" true 10
  = Ok (Partial fn_logit_link_sigmoid_output None None) /\
  get_predictive "logit_link_sigmoid_product" true 10
  = Raise (KeyError "logit_link_sigmoid_product").
Proof. repeat split. Qed.

End FloatRuns.

(** ** Tensor lemmas *)

Lemma bind_ok {A B : Type} (a : A) (k : A -> result B) :
  bind (Ok a) k = k a.
Proof. reflexivity. Qed.

Lemma mapM_pure {A B : Type} (h : A -> B) (l : list A) :
  mapM (fun x => Ok (h x)) l = Ok (map h l).
Proof.
  induction l as [|x l IH]; simpl.
  - reflexivity.
  - rewrite IH. reflexivity.
Qed.

Lemma zipM_pure {A B C : Type} (f : A -> B -> C) (xs : list A) (ys : list B) :
  zipM (fun x y => Ok (f x y)) xs ys = Ok (zip_with f xs ys).
Proof.
  revert ys. induction xs as [|x xs IH]; intros [|y ys]; simpl; try reflexivity.
  rewrite IH. reflexivity.
Qed.

Lemma zip_with_combine {A B C : Type} (f : A -> B -> C) xs ys :
  zip_with f xs ys = map (fun p => f (fst p) (snd p)) (combine xs ys).
Proof.
  revert ys. induction xs as [|x xs IH]; intros [|y ys]; simpl; try reflexivity.
  rewrite IH. reflexivity.
Qed.

Lemma zip_with_map {I A B C : Type} (f : A -> B -> C)
  (a : I -> A) (b : I -> B) (L : list I) :
  zip_with f (map a L) (map b L) = map (fun r => f (a r) (b r)) L.
Proof.
  induction L as [|r L IH]; simpl; [reflexivity | now rewrite IH].
Qed.

Lemma zip_with_length {A B C : Type} (f : A -> B -> C) xs ys :
  List.length xs = List.length ys ->
  List.length (zip_with f xs ys) = List.length xs.
Proof.
  revert ys. induction xs as [|x xs IH]; intros [|y ys] H; simpl in *;
    try reflexivity; try discriminate.
  f_equal. apply IH. now injection H.
Qed.

Lemma map_fst_combine {A B : Type} (xs : list A) (ys : list B) :
  List.length xs = List.length ys -> map fst (combine xs ys) = xs.
Proof.
  revert ys. induction xs as [|x xs IH]; intros [|y ys] H; simpl in *;
    try reflexivity; try discriminate.
  f_equal. apply IH. now injection H.
Qed.

Lemma map_snd_combine {A B : Type} (xs : list A) (ys : list B) :
  List.length xs = List.length ys -> map snd (combine xs ys) = ys.
Proof.
  revert ys. induction xs as [|x xs IH]; intros [|y ys] H; simpl in *;
    try reflexivity; try discriminate.
  f_equal. apply IH. now injection H.
Qed.

(** One dimension, three ways: equal sizes, a right operand of size 1, a left
    operand of size 1. *)
Lemma broadcast_map {J A B C : Type} (f : A -> B -> C)
  (a : J -> A) (b : J -> B) (cols : list J) :
  broadcast (fun x y => Ok (f x y)) (map a cols) (map b cols)
  = Ok (map (fun j => f (a j) (b j)) cols).
Proof.
  unfold broadcast. rewrite !length_map, Nat.eqb_refl, zipM_pure.
  now rewrite zip_with_map.
Qed.

Lemma broadcast_right1 {A B C : Type} (f : A -> B -> C) (xs : list A) (y : B) :
  broadcast (fun x y => Ok (f x y)) xs [y] = Ok (map (fun x => f x y) xs).
Proof.
  unfold broadcast.
  destruct xs as [|x1 [|x2 xs]]; simpl; try reflexivity.
  now rewrite (mapM_pure (fun x => f x y)).
Qed.

Lemma broadcast_left1 {A B C : Type} (f : A -> B -> C) (x : A) (ys : list B) :
  broadcast (fun x y => Ok (f x y)) [x] ys = Ok (map (f x) ys).
Proof.
  unfold broadcast.
  destruct ys as [|y1 [|y2 ys]]; simpl; try reflexivity.
  now rewrite (mapM_pure (f x)).
Qed.

Lemma broadcast_rows {I A B C : Type} (g : A -> B -> result C)
  (g1 : I -> A) (g2 : I -> B) (h : I -> C) (L : list I) :
  (forall r, In r L -> g (g1 r) (g2 r) = Ok (h r)) ->
  broadcast g (map g1 L) (map g2 L) = Ok (map h L).
Proof.
  intros H. unfold broadcast. rewrite !length_map, Nat.eqb_refl.
  induction L as [|r L IH]; simpl.
  - reflexivity.
  - rewrite (H r (or_introl eq_refl)). simpl.
    rewrite IH by (intros; apply H; now right). reflexivity.
Qed.

(** Matrices indexed by a common list of row indices [L] and, within row [r],
    by the column indices [cols r]: [mk e] has the entry [e r j], [mk1 k] is
    the [keepdim] column with the entry [k r]. *)
Section Indexed.

Context {I J : Type}.
Variable L : list I.
Variable cols : I -> list J.

Definition mk {A : Type} (e : I -> J -> A) : matrix A :=
  map (fun r => map (e r) (cols r)) L.

Definition mk1 {A : Type} (k : I -> A) : matrix A :=
  map (fun r => [k r]) L.

Lemma tensor_map_mk {A B : Type} (f : A -> B) (e : I -> J -> A) :
  tensor_map f (mk e) = mk (fun r j => f (e r j)).
Proof.
  unfold tensor_map, mk. rewrite map_map. apply map_ext. intros r.
  now rewrite map_map.
Qed.

Lemma tensor_map_mk1 {A B : Type} (f : A -> B) (k : I -> A) :
  tensor_map f (mk1 k) = mk1 (fun r => f (k r)).
Proof. unfold tensor_map, mk1. now rewrite map_map. Qed.

Lemma reduce_mk {A B : Type} (g : list A -> B) (e : I -> J -> A) :
  map (fun row => [g row]) (mk e) = mk1 (fun r => g (map (e r) (cols r))).
Proof. unfold mk, mk1. now rewrite map_map. Qed.

Lemma tensor_map2_mk {A B C : Type} (f : A -> B -> C)
  (e1 : I -> J -> A) (e2 : I -> J -> B) :
  tensor_map2 f (mk e1) (mk e2) = Ok (mk (fun r j => f (e1 r j) (e2 r j))).
Proof.
  unfold tensor_map2, mk. apply broadcast_rows. intros r _.
  apply broadcast_map.
Qed.

Lemma tensor_map2_mk_mk1 {A B C : Type} (f : A -> B -> C)
  (e : I -> J -> A) (k : I -> B) :
  tensor_map2 f (mk e) (mk1 k) = Ok (mk (fun r j => f (e r j) (k r))).
Proof.
  unfold tensor_map2, mk, mk1. apply broadcast_rows. intros r _.
  rewrite broadcast_right1. now rewrite map_map.
Qed.

Lemma tensor_map2_mk1_mk {A B C : Type} (f : A -> B -> C)
  (k : I -> A) (e : I -> J -> B) :
  tensor_map2 f (mk1 k) (mk e) = Ok (mk (fun r j => f (k r) (e r j))).
Proof.
  unfold tensor_map2, mk, mk1. apply broadcast_rows. intros r _.
  rewrite broadcast_left1. now rewrite map_map.
Qed.

Lemma tensor_map2_mk1 {A B C : Type} (f : A -> B -> C)
  (k1 : I -> A) (k2 : I -> B) :
  tensor_map2 f (mk1 k1) (mk1 k2) = Ok (mk1 (fun r => f (k1 r) (k2 r))).
Proof.
  unfold tensor_map2, mk1. apply broadcast_rows. intros r _.
  now rewrite broadcast_right1.
Qed.

End Indexed.

Create Rewrite HintDb tensor.

#[global] Hint Rewrite @tensor_map_mk @tensor_map_mk1 @reduce_mk
  @tensor_map2_mk @tensor_map2_mk_mk1 @tensor_map2_mk1_mk @tensor_map2_mk1
  @bind_ok : tensor.

(** Two matrices of one shape, indexed by their paired rows and entries. *)
Definition rows2 {A B : Type} (a : matrix A) (b : matrix B)
  : list (list A * list B) := combine a b.

Definition cols2 {A B : Type} (r : list A * list B) : list (A * B) :=
  combine (fst r) (snd r).

Lemma mk_fst {A B : Type} (N C : nat) (a : matrix A) (b : matrix B) :
  has_shape N C a -> has_shape N C b ->
  a = mk (rows2 a b) cols2 (fun _ j => fst j).
Proof.
  intros [Ha Hra] [Hb Hrb]. subst N. unfold mk, rows2, cols2.
  revert b Hb Hrb. induction a as [|ra a IH]; intros [|rb b] Hb Hrb;
    simpl in *; try reflexivity; try discriminate.
  inversion Hra; subst. inversion Hrb; subst.
  rewrite map_fst_combine by congruence.
  f_equal. apply IH; auto.
Qed.

Lemma mk_snd {A B : Type} (N C : nat) (a : matrix A) (b : matrix B) :
  has_shape N C a -> has_shape N C b ->
  b = mk (rows2 a b) cols2 (fun _ j => snd j).
Proof.
  intros [Ha Hra] [Hb Hrb]. subst N. unfold mk, rows2, cols2.
  revert b Hb Hrb. induction a as [|ra a IH]; intros [|rb b] Hb Hrb;
    simpl in *; try reflexivity; try discriminate.
  inversion Hra; subst. inversion Hrb; subst.
  rewrite map_snd_combine by congruence.
  f_equal. apply IH; auto.
Qed.

Lemma mk_zip_with {A B C : Type} (f : A -> B -> C)
  (a : matrix A) (b : matrix B) :
  mk (rows2 a b) cols2 (fun _ j => f (fst j) (snd j))
  = zip_with (zip_with f) a b.
Proof.
  unfold mk, rows2, cols2. rewrite zip_with_combine.
  apply map_ext. intros r. now rewrite zip_with_combine.
Qed.

Lemma has_shape_zip_with {A B C : Type} (f : A -> B -> C) N K
  (a : matrix A) (b : matrix B) :
  has_shape N K a -> has_shape N K b ->
  has_shape N K (zip_with (zip_with f) a b).
Proof.
  intros [Ha Hra] [Hb Hrb]. subst N. split.
  - now apply zip_with_length.
  - revert b Hb Hrb. induction a as [|ra a IH]; intros [|rb b] Hb Hrb;
      simpl in *; try constructor; try discriminate.
    + inversion Hra; subst. inversion Hrb; subst.
      rewrite zip_with_length; congruence.
    + inversion Hra; subst. inversion Hrb; subst. apply IH; auto.
Qed.

(** ** The pushforward of the mean *)

Section PushforwardMean.

Context {T : Type} {S : Scalar T}.

(** The pre-activation logits in the words of the specification:
    [mean / sqrt(1/scale + var)] for [normcdf] and
    [mean / sqrt(1 + scale*var)] for [sigmoid] and [sigmoid_product]. *)
Definition spec_normcdf_logit (scale m v : T) : T :=
  fdiv m (fsqrt (fadd (fdiv (lit 1) scale) v)).

Definition spec_sigmoid_logit (scale m v : T) : T :=
  fdiv m (fsqrt (fadd (lit 1) (fmul scale v))).

(** The scale of a link function in the words of the specification: [1.0]
    for [probit], [pi/8] for [logit]. *)
Definition spec_scale (link_function : string) (scale : T) : Prop :=
  (link_function = "probit" /\ scale = lit 1) \/
  (link_function = "logit" /\ scale = fdiv pi (lit 8)).

Lemma probit_scale_spec link scale :
  spec_scale link scale -> probit_scale link = Ok scale.
Proof. intros [[-> ->] | [-> ->]]; reflexivity. Qed.

Lemma gaussian_pushforward_mean_mk {I J : Type} (L : list I)
  (cols : I -> list J) (em ev : I -> J -> T) link output scale rl :
  probit_scale link = Ok scale ->
  gaussian_pushforward_mean (mk L cols em) (mk L cols ev) link output rl
  = if py_in "normcdf" output then
      Ok (mk L cols (fun r j =>
            let x := spec_normcdf_logit scale (em r j) (ev r j) in
            if rl then x else ndtr x))
    else if py_in "sigmoid" output then
      Ok (mk L cols (fun r j =>
            let x := spec_sigmoid_logit scale (em r j) (ev r j) in
            if rl then x else sigmoid x))
    else Raise (NotImplementedError "Invalid output function").
Proof.
  intros Hs. unfold gaussian_pushforward_mean. rewrite Hs. cbn [bind].
  destruct (py_in "normcdf" output).
  - autorewrite with tensor. destruct rl; autorewrite with tensor; reflexivity.
  - destruct (py_in "sigmoid" output); [|reflexivity].
    cbn [bind]. autorewrite with tensor.
    destruct rl; autorewrite with tensor; reflexivity.
Qed.

(** C1.  On [mean] and [var] of one shape, the pushforward mean with output
    function [normcdf] is [ndtr(mean / sqrt(1/scale + var))], and with output
    function [sigmoid] or [sigmoid_product] it is
    [sigmoid(mean / sqrt(1 + scale*var))], entry by entry, where [scale] is
    [1.0] for the link function [probit] and [pi/8] for [logit].  (Nothing
    about the sign of [var] is needed.) *)
Theorem gaussian_pushforward_mean_formula :
  forall (N C : nat) (mean var : matrix T) (link : string) (scale : T),
    has_shape N C mean -> has_shape N C var ->
    spec_scale link scale ->
    gaussian_pushforward_mean mean var link "normcdf" false
    = Ok (zip_with (zip_with (fun m v => ndtr (spec_normcdf_logit scale m v)))
            mean var)
    /\
    (forall output, output = "sigmoid" \/ output = "sigmoid_product" ->
       gaussian_pushforward_mean mean var link output false
       = Ok (zip_with
               (zip_with (fun m v => sigmoid (spec_sigmoid_logit scale m v)))
               mean var)).
Proof.
  intros N C mean var link scale Hm Hv Hscale.
  apply probit_scale_spec in Hscale.
  rewrite <- !mk_zip_with.
  pose proof (mk_fst Hm Hv) as Em. pose proof (mk_snd Hm Hv) as Ev.
  set (L := rows2 mean var) in *.
  split.
  - rewrite Em at 1. rewrite Ev at 1.
    rewrite (gaussian_pushforward_mean_mk _ _ _ _ _ _ _ Hscale). reflexivity.
  - intros output Hout. rewrite Em at 1. rewrite Ev at 1.
    rewrite (gaussian_pushforward_mean_mk _ _ _ _ _ _ _ Hscale).
    destruct Hout as [-> | ->]; reflexivity.
Qed.

End PushforwardMean.

(** ** The second moment *)

Lemma zip_with_mk {I J A B C : Type} (f : A -> B -> C) (L : list I)
  (cols : I -> list J) (e1 : I -> J -> A) (e2 : I -> J -> B) :
  zip_with (zip_with f) (mk L cols e1) (mk L cols e2)
  = mk L cols (fun r j => f (e1 r j) (e2 r j)).
Proof.
  unfold mk. rewrite zip_with_map. apply map_ext. intros r.
  apply zip_with_map.
Qed.

Lemma has_shape_mk2 {A B C : Type} (N K : nat) (a : matrix A) (b : matrix B)
  (e : list A * list B -> A * B -> C) :
  has_shape N K a -> has_shape N K b ->
  has_shape N K (mk (rows2 a b) cols2 e).
Proof.
  intros [Ha Hra] [Hb Hrb]. unfold mk, rows2, cols2. split.
  - rewrite length_map, length_combine. lia.
  - apply Forall_forall. intros row Hin.
    apply in_map_iff in Hin. destruct Hin as [[ra rb] [<- Hin]].
    rewrite length_map, length_combine. simpl.
    pose proof (in_combine_l _ _ _ _ Hin) as Hl.
    pose proof (in_combine_r _ _ _ _ Hin) as Hr.
    rewrite Forall_forall in Hra, Hrb.
    rewrite (Hra _ Hl), (Hrb _ Hr). lia.
Qed.

Section SecondMoment.

Context {T : Type} {S : Scalar T}.

(** The Owen's T term in the words of the specification:
    [-2 * OwensT(mean / sqrt(1/scale + var), 1 / sqrt(1 + 2*scale*var))]. *)
Definition spec_t_term (scale m v : T) : T :=
  fmul (lit (-2))
    (owens_t (fdiv m (fsqrt (fadd (fdiv (lit 1) scale) v)))
       (fdiv (lit 1) (fsqrt (fadd (lit 1) (fmul (fmul (lit 2) scale) v))))).

Lemma gaussian_pushforward_second_moment_mk {I J : Type} (L : list I)
  (cols : I -> list J) (em ev : I -> J -> T) link output scale :
  probit_scale link = Ok scale ->
  (output =? "sigmoid_product") = false ->
  gaussian_pushforward_second_moment (mk L cols em) (mk L cols ev) link output
  = (p_term <- gaussian_pushforward_mean (mk L cols em) (mk L cols ev)
                 link output false ;;
     tensor_map2 fadd p_term
       (mk L cols (fun r j => spec_t_term scale (em r j) (ev r j)))).
Proof.
  intros Hs Hout. unfold gaussian_pushforward_second_moment.
  rewrite Hs, Hout. cbn [bind]. autorewrite with tensor. reflexivity.
Qed.

Lemma gaussian_pushforward_second_moment_product_mk {I J : Type} (L : list I)
  (cols : I -> list J) (em ev : I -> J -> T) :
  gaussian_pushforward_second_moment (mk L cols em) (mk L cols ev)
    "logit" "sigmoid_product"
  = Ok (mk L cols (fun r j =>
          let s := sigmoid (spec_sigmoid_logit LAMBDA_0 (em r j) (ev r j)) in
          fsub s (fdiv (fmul s (fsub (lit 1) s))
                    (fsqrt (fadd (lit 1) (fmul LAMBDA_0 (ev r j))))))).
Proof.
  unfold gaussian_pushforward_second_moment.
  change (probit_scale "logit") with (Ok LAMBDA_0).
  change ("sigmoid_product" =? "sigmoid_product") with true.
  change ("logit" =? "logit") with true.
  cbn [bind].
  rewrite (gaussian_pushforward_mean_mk L cols em ev "logit" "sigmoid" false
             (scale := LAMBDA_0) eq_refl).
  change (py_in "normcdf" "sigmoid") with false.
  change (py_in "sigmoid" "sigmoid") with true.
  cbv iota. autorewrite with tensor. reflexivity.
Qed.

(** C2.  On [mean] and [var] of one shape and for the output functions
    [normcdf] and [sigmoid], the pushforward second moment is the pushforward
    mean plus
    [-2 * OwensT(mean / sqrt(1/scale + var), 1 / sqrt(1 + 2*scale*var))],
    entry by entry, with [scale] given by the link function. *)
Theorem gaussian_pushforward_second_moment_formula :
  forall (N C : nat) (mean var : matrix T) (link output : string) (scale : T),
    has_shape N C mean -> has_shape N C var ->
    spec_scale link scale ->
    output = "normcdf" \/ output = "sigmoid" ->
    exists M1 : matrix T,
      gaussian_pushforward_mean mean var link output false = Ok M1 /\
      gaussian_pushforward_second_moment mean var link output
      = Ok (zip_with (zip_with fadd) M1
              (zip_with (zip_with (spec_t_term scale)) mean var)).
Proof.
  intros N C mean var link output scale Hm Hv Hscale Hout.
  apply probit_scale_spec in Hscale.
  pose proof (mk_fst Hm Hv) as Em. pose proof (mk_snd Hm Hv) as Ev.
  assert (Hne : (output =? "sigmoid_product") = false)
    by (destruct Hout as [-> | ->]; reflexivity).
  pose proof (gaussian_pushforward_second_moment_mk (rows2 mean var) cols2
                (fun _ j => fst j) (fun _ j => snd j) link output Hscale Hne)
    as H2.
  pose proof (gaussian_pushforward_mean_mk (rows2 mean var) cols2
                (fun _ j => fst j) (fun _ j => snd j) link output false
                Hscale) as H1.
  rewrite <- Em, <- Ev in H1, H2.
  rewrite H2, H1. rewrite <- (mk_zip_with (spec_t_term scale)).
  destruct Hout as [-> | ->].
  - change (py_in "normcdf" "normcdf") with true. cbv iota.
    eexists. split; [reflexivity|].
    cbn [bind]. autorewrite with tensor. now rewrite zip_with_mk.
  - change (py_in "normcdf" "sigmoid") with false.
    change (py_in "sigmoid" "sigmoid") with true. cbv iota.
    eexists. split; [reflexivity|].
    cbn [bind]. autorewrite with tensor. now rewrite zip_with_mk.
Qed.

End SecondMoment.

(** ** The Dirichlet fit by the method of moments *)

Lemma map_via_combine {A B C : Type} (g : A -> C) (xs : list A) (ys : list B) :
  List.length xs = List.length ys ->
  map g xs = map (fun j => g (fst j)) (combine xs ys).
Proof.
  intros H. rewrite <- (map_fst_combine xs ys H) at 1. now rewrite map_map.
Qed.

Lemma in_rows2_length {A B : Type} (N K : nat) (a : matrix A) (b : matrix B)
  (r : list A * list B) :
  has_shape N K a -> has_shape N K b -> In r (rows2 a b) ->
  List.length (fst r) = K /\ List.length (snd r) = K.
Proof.
  intros [_ Hra] [_ Hrb] Hin. destruct r as [ra rb]. unfold rows2 in Hin.
  rewrite Forall_forall in Hra, Hrb. split.
  - apply Hra. eapply in_combine_l; eauto.
  - apply Hrb. eapply in_combine_r; eauto.
Qed.

Section MomDirichlet.

Context {T : Type} {S : Scalar T}.

(** One row of the fit in the words of the specification: [S1] is the sum of
    [M1] across the classes, [S = max(S1, 1)], the logarithms of
    [(M1*S - M2) / (M2 - M1^2)] are averaged across the classes to [LP],
    [P = exp(LP)] and the row is [P * M1 / S]. *)
Definition spec_dirichlet_row (m1 m2 : list T) : list T :=
  let S1 := tsum m1 in
  let S := fmax S1 (lit 1) in
  let logs :=
    zip_with (fun a b => flog (fdiv (fsub (fmul a S) b) (fsub b (pow2 a))))
      m1 m2 in
  let LP := fdiv (tsum logs) (of_count (List.length logs)) in
  let P := fexp LP in
  map (fun a => fdiv (fmul P a) S) m1.

Lemma get_mom_dirichlet_approximation_moments (N C : nat)
  (means vars M1 M2 : matrix T) (link output : string) :
  gaussian_pushforward_mean means vars link output false = Ok M1 ->
  gaussian_pushforward_second_moment means vars link output = Ok M2 ->
  has_shape N C M1 -> has_shape N C M2 ->
  get_mom_dirichlet_approximation means vars link output
  = Ok (zip_with spec_dirichlet_row M1 M2).
Proof.
  intros H1 H2 Hs1 Hs2. unfold get_mom_dirichlet_approximation.
  rewrite H1, H2. cbn [bind]. clear H1 H2.
  pose proof (mk_fst Hs1 Hs2) as E1. pose proof (mk_snd Hs1 Hs2) as E2.
  pose proof (fun r => @in_rows2_length _ _ N C M1 M2 r Hs1 Hs2) as Hlen.
  set (L := rows2 M1 M2) in *. clearbody L.
  rewrite E1, E2. unfold sum_keepdim, mean_keepdim.
  autorewrite with tensor. f_equal.
  unfold mk. rewrite zip_with_map. apply map_ext_in. intros [m1 m2] Hin.
  destruct (Hlen _ Hin) as [Hl1 Hl2]. simpl in Hl1, Hl2.
  unfold cols2, spec_dirichlet_row. simpl fst. simpl snd.
  rewrite !map_fst_combine, !map_snd_combine by congruence.
  rewrite zip_with_combine, !length_map.
  rewrite (map_via_combine _ m1 m2) by congruence.
  reflexivity.
Qed.

(** The configurations for which both moments are defined: [normcdf] and
    [sigmoid] with either link function, [sigmoid_product] with [logit]. *)
Definition moment_config (link output : string) : Prop :=
  ((link = "probit" \/ link = "logit") /\
   (output = "normcdf" \/ output = "sigmoid")) \/
  (link = "logit" /\ output = "sigmoid_product").

Lemma moments_defined (N C : nat) (mean var : matrix T) (link output : string) :
  has_shape N C mean -> has_shape N C var ->
  moment_config link output ->
  exists M1 M2 : matrix T,
    gaussian_pushforward_mean mean var link output false = Ok M1 /\
    gaussian_pushforward_second_moment mean var link output = Ok M2 /\
    has_shape N C M1 /\ has_shape N C M2.
Proof.
  intros Hm Hv Hcfg.
  pose proof (mk_fst Hm Hv) as Em. pose proof (mk_snd Hm Hv) as Ev.
  assert (Hscale : exists scale, probit_scale link = Ok scale).
  { destruct Hcfg as [[[-> | ->] _] | [-> _]]; eexists; reflexivity. }
  destruct Hscale as [scale Hscale].
  pose proof (gaussian_pushforward_mean_mk (rows2 mean var) cols2
                (fun _ j => fst j) (fun _ j => snd j) link output false
                Hscale) as H1.
  rewrite <- Em, <- Ev in H1.
  destruct Hcfg as [[_ Hout] | [-> ->]].
  - assert (Hne : (output =? "sigmoid_product") = false)
      by (destruct Hout as [-> | ->]; reflexivity).
    pose proof (gaussian_pushforward_second_moment_mk (rows2 mean var) cols2
                  (fun _ j => fst j) (fun _ j => snd j) link output
                  Hscale Hne) as H2.
    rewrite <- Em, <- Ev in H2. rewrite H2, H1.
    destruct Hout as [-> | ->].
    + change (py_in "normcdf" "normcdf") with true. cbv iota.
      eexists. eexists. split; [reflexivity|].
      cbn [bind]. autorewrite with tensor.
      split; [reflexivity|]. split; apply has_shape_mk2; assumption.
    + change (py_in "normcdf" "sigmoid") with false.
      change (py_in "sigmoid" "sigmoid") with true. cbv iota.
      eexists. eexists. split; [reflexivity|].
      cbn [bind]. autorewrite with tensor.
      split; [reflexivity|]. split; apply has_shape_mk2; assumption.
  - pose proof (gaussian_pushforward_second_moment_product_mk
                  (rows2 mean var) cols2
                  (fun _ j => fst j) (fun _ j => snd j)) as H2.
    rewrite <- Em, <- Ev in H2. rewrite H2, H1.
    change (py_in "normcdf" "sigmoid_product") with false.
    change (py_in "sigmoid" "sigmoid_product") with true. cbv iota.
    eexists. eexists. split; [reflexivity|].
    split; [reflexivity|]. split; apply has_shape_mk2; assumption.
Qed.

(** C3.  On [mean] and [var] of one shape, the Dirichlet moment-matching
    fitter computes [M1] and [M2] with the pushforward functions and returns,
    row by row, [P * M1 / S] where [S = max(sum(M1), 1)], [P = exp(LP)] and
    [LP] is the average across the classes of
    [log((M1*S - M2) / (M2 - M1^2))]. *)
Theorem get_mom_dirichlet_approximation_formula :
  forall (N C : nat) (mean var : matrix T) (link output : string),
    has_shape N C mean -> has_shape N C var ->
    moment_config link output ->
    exists M1 M2 : matrix T,
      gaussian_pushforward_mean mean var link output false = Ok M1 /\
      gaussian_pushforward_second_moment mean var link output = Ok M2 /\
      get_mom_dirichlet_approximation mean var link output
      = Ok (zip_with spec_dirichlet_row M1 M2).
Proof.
  intros N C mean var link output Hm Hv Hcfg.
  destruct (moments_defined Hm Hv Hcfg) as (M1 & M2 & H1 & H2 & Hs1 & Hs2).
  exists M1, M2. split; [exact H1|]. split; [exact H2|].
  eapply get_mom_dirichlet_approximation_moments; eassumption.
Qed.

End MomDirichlet.

(** ** The diagonal Hessian of the normalized-sigmoid likelihood *)

Section DiagHessian.

Context {T : Type} {S : Scalar T}.

(** One row of the Hessian in the words of the specification: with
    [q = sigmoid(logit)], [p = q / sum(q)] and [y] the one-hot target,
    [y*q*(1-q) + p*(1 - 3q + 2q^2) - (p*(1-q))^2]. *)
Definition spec_hessian_entry (s : T) (t : Z) (j : nat) (x : T) : T :=
  let q := sigmoid x in
  let p := fdiv q s in
  let y := if Z.eqb (Z.of_nat j) t then lit 1 else lit 0 in
  fsub
    (fadd (fmul (fmul y q) (fsub (lit 1) q))
       (fmul p (fadd (fsub (lit 1) (fmul (lit 3) q)) (fmul (lit 2) (pow2 q)))))
    (pow2 (fmul p (fsub (lit 1) q))).

Definition spec_hessian_row (row : list T) (t : Z) : list T :=
  let s := tsum (map sigmoid row) in
  map (fun jx : nat * T => spec_hessian_entry s t (fst jx) (snd jx))
    (combine (seq 0 (List.length row)) row).

(** Rows of [logit] paired with their targets; within a row, the entries
    paired with their class indices. *)
Definition class_cols (C : nat) (r : list T * Z) : list (nat * T) :=
  combine (seq 0 C) (fst r).

Lemma logit_mk (N C : nat) (logit : matrix T) (target : list Z) :
  has_shape N C logit -> List.length target = N ->
  logit = mk (combine logit target) (class_cols C) (fun _ j => snd j).
Proof.
  intros [Hn Hrows] Ht. subst N. unfold mk, class_cols.
  revert target Ht. induction logit as [|row logit IH]; intros [|t target] Ht;
    simpl in *; try reflexivity; try discriminate.
  inversion Hrows; subst.
  rewrite map_snd_combine by (now rewrite length_seq).
  f_equal. apply IH; auto.
Qed.

Lemma one_hot_mk (N C : nat) (logit : matrix T) (target : list Z) :
  has_shape N C logit -> List.length target = N ->
  Forall (fun t => (0 <= t < Z.of_nat C)%Z) target ->
  one_hot target C
  = Ok (mk (combine logit target) (class_cols C)
          (fun r j =>
             if Nat.eqb (fst j) (Z.to_nat (snd r)) then lit 1 else lit 0)).
Proof.
  intros [Hn Hrows] Ht Hrange. subst N. unfold mk, class_cols, one_hot.
  revert target Ht Hrange.
  induction logit as [|row logit IH]; intros [|t target] Ht Hrange;
    simpl in *; try reflexivity; try discriminate.
  inversion Hrows; subst. inversion Hrange; subst.
  destruct (Z.ltb_spec t 0); [lia|].
  destruct (Z.ltb_spec t (Z.of_nat (List.length row))); [|lia].
  cbn [bind]. rewrite IH by auto. cbn [bind]. f_equal. f_equal.
  simpl fst. simpl snd.
  rewrite (map_via_combine _ (seq 0 (List.length row)) row)
    by (now rewrite length_seq).
  reflexivity.
Qed.

(** C6.  On a logit matrix [N,C] and [N] targets that are class indices, the
    normalized-sigmoid diagonal Hessian is, entry by entry,
    [y*q*(1-q) + p*(1 - 3q + 2q^2) - (p*(1-q))^2] with [q = sigmoid(logit)],
    [p = q / sum(q)] per row and [y] the one-hot encoding of the target. *)
Theorem diag_hessian_normalized_sigmoid_formula :
  forall (N C : nat) (logit : matrix T) (target : list Z),
    has_shape N C logit -> List.length target = N ->
    Forall (fun t => (0 <= t < Z.of_nat C)%Z) target ->
    diag_hessian_normalized_sigmoid logit target
    = Ok (zip_with spec_hessian_row logit target).
Proof.
  intros N C logit target Hshape Ht Hrange.
  unfold diag_hessian_normalized_sigmoid.
  assert (Hc : one_hot target (shape1 logit)
               = one_hot target C :> result (matrix T)).
  { destruct logit as [|row logit].
    - destruct Hshape as [<- _]. destruct target; [reflexivity|discriminate].
    - destruct Hshape as [_ Hrows]. inversion Hrows; subst. reflexivity. }
  rewrite Hc, (@one_hot_mk N C logit target Hshape Ht Hrange). clear Hc.
  rewrite zip_with_combine.
  pose proof (@logit_mk N C logit target Hshape Ht) as E.
  assert (Hin : forall r, In r (combine logit target) ->
                 List.length (fst r) = C /\ (0 <= snd r)%Z).
  { intros [row t] Hin. simpl. split.
    - destruct Hshape as [_ Hrows]. rewrite Forall_forall in Hrows.
      apply Hrows. eapply in_combine_l; eauto.
    - rewrite Forall_forall in Hrange.
      apply Hrange. eapply in_combine_r; eauto. }
  set (L := combine logit target) in *. clearbody L.
  rewrite E. unfold sum_keepdim. autorewrite with tensor. f_equal.
  unfold mk. apply map_ext_in. intros [row t] Hr.
  destruct (Hin _ Hr) as [Hlen Hpos]. simpl in Hlen, Hpos.
  unfold spec_hessian_row, class_cols. simpl fst. simpl snd.
  rewrite Hlen.
  replace (map (fun j : nat * T => sigmoid (snd j)) (combine (seq 0 C) row))
    with (map sigmoid row).
  2:{ rewrite <- (map_map snd sigmoid).
      now rewrite map_snd_combine by (now rewrite length_seq). }
  apply map_ext. intros [j x]. unfold spec_hessian_entry. simpl fst. simpl snd.
  replace (Z.of_nat j =? t)%Z with (Nat.eqb j (Z.to_nat t)).
  - reflexivity.
  - destruct (Nat.eqb_spec j (Z.to_nat t));
      destruct (Z.eqb_spec (Z.of_nat j) t);
      try reflexivity; lia.
Qed.

End DiagHessian.

(** ** The forward pass of the normalized-sigmoid loss *)

Lemma zip_with_ext_in {A B C : Type} (f g : A -> B -> C) xs ys :
  (forall x y, In (x, y) (combine xs ys) -> f x y = g x y) ->
  zip_with f xs ys = zip_with g xs ys.
Proof.
  revert ys. induction xs as [|x xs IH]; intros [|y ys] H; simpl;
    try reflexivity.
  rewrite (H x y) by (now left). f_equal. apply IH.
  intros x' y' Hin. apply H. now right.
Qed.

Lemma zip_with_map_l {A A' B C : Type} (f : A' -> B -> C) (g : A -> A') xs ys :
  zip_with f (map g xs) ys = zip_with (fun x y => f (g x) y) xs ys.
Proof.
  revert ys. induction xs as [|x xs IH]; intros [|y ys]; simpl;
    try reflexivity.
  now rewrite IH.
Qed.

Module NormedSigmoidNLLLossFacts.

Import NormedSigmoidNLLLoss.

Section Forward.

Context {T : Type} {S : Scalar T}.

Lemma py_index_in_range {A : Type} (l : list A) (i : Z) (d : A) :
  (0 <= i < Z.of_nat (List.length l))%Z ->
  py_index l i = Ok (nth (Z.to_nat i) l d).
Proof.
  intros Hi. unfold py_index.
  destruct (Z.ltb_spec i 0); [lia|].
  destruct (Z.leb_spec 0 i); [|lia].
  destruct (Z.ltb_spec i (Z.of_nat (List.length l))); [|lia].
  simpl. destruct (nth_error l (Z.to_nat i)) as [x|] eqn:E.
  - now rewrite (nth_error_nth _ _ d E).
  - apply nth_error_None in E. lia.
Qed.

Lemma gather_rows (d : T) (rows pre : matrix T) (target : list Z) :
  List.length target = List.length rows ->
  (forall row t, In (row, t) (combine rows target) ->
                 (0 <= t < Z.of_nat (List.length row))%Z) ->
  mapM (fun it : nat * Z =>
          row <- py_index (pre ++ rows) (Z.of_nat (fst it)) ;;
          py_index row (snd it))
    (combine (seq (List.length pre) (List.length target)) target)
  = Ok (zip_with (fun row t => nth (Z.to_nat t) row d) rows target).
Proof.
  revert pre target.
  induction rows as [|r rows IH]; intros pre [|t target] Hlen Hrange;
    simpl in *; try reflexivity; try discriminate.
  rewrite (@py_index_in_range _ (pre ++ r :: rows)
             (Z.of_nat (List.length pre)) r)
    by (rewrite length_app; simpl; lia).
  rewrite Nat2Z.id, nth_middle. cbn [bind].
  rewrite (@py_index_in_range _ r t d) by (apply Hrange; now left).
  cbn [bind].
  specialize (IH (pre ++ [r])%list target).
  rewrite <- app_assoc, length_app in IH. simpl in IH.
  rewrite Nat.add_1_r in IH.
  rewrite IH; [reflexivity | lia |].
  intros row t' Hin. apply Hrange. now right.
Qed.

(** The loss in the words of the specification:
    [-mean(log(q_target / sum(q)))] with [q = sigmoid(logit)]. *)
Definition spec_nll (logit : matrix T) (target : list Z) : T :=
  fneg
    (tmean
       (zip_with
          (fun row t =>
             let q := map sigmoid row in
             flog (fdiv (nth (Z.to_nat t) q (lit 0)) (tsum q)))
          logit target)).

(** C7.  On a logit matrix [N,C] and [N] targets that are class indices, the
    forward pass of the loss returns [-mean(log(q_target / sum(q)))] where
    [q = sigmoid(logit)] and the sum runs over the classes of a row. *)
Theorem forward_formula :
  forall (N C : nat) (logit : matrix T) (target : list Z),
    has_shape N C logit -> List.length target = N ->
    Forall (fun t => (0 <= t < Z.of_nat C)%Z) target ->
    forward logit target = Ok (spec_nll logit target).
Proof.
  intros N C logit target [Hn Hrows] Ht Hrange.
  unfold forward, gather, spec_nll.
  pose proof (@gather_rows (lit 0) (log_normed_sigmoid logit) [] target) as G.
  simpl in G. rewrite G; clear G.
  - cbn [bind]. do 3 f_equal.
    unfold log_normed_sigmoid. rewrite zip_with_map_l.
    apply zip_with_ext_in. intros row t Hin.
    assert (Hlen : List.length row = C).
    { rewrite Forall_forall in Hrows. apply Hrows.
      eapply in_combine_l; eauto. }
    assert (Ht' : (0 <= t < Z.of_nat C)%Z).
    { rewrite Forall_forall in Hrange. apply Hrange.
      eapply in_combine_r; eauto. }
    cbv zeta.
    rewrite (nth_indep _ (lit 0)
               (flog (fdiv (lit 0) (tsum (map sigmoid row)))))
      by (rewrite !length_map; lia).
    apply (map_nth (fun x => flog (fdiv x (tsum (map sigmoid row))))).
  - unfold log_normed_sigmoid. rewrite length_map. lia.
  - unfold log_normed_sigmoid. intros row t Hin.
    pose proof (in_combine_l _ _ _ _ Hin) as Hl.
    pose proof (in_combine_r _ _ _ _ Hin) as Hr.
    apply in_map_iff in Hl. destruct Hl as [row0 [<- Hl]].
    rewrite !length_map.
    rewrite Forall_forall in Hrows, Hrange.
    rewrite (Hrows _ Hl). apply Hrange. exact Hr.
Qed.

End Forward.

End NormedSigmoidNLLLossFacts.

(** ** The Dirichlet predictive *)

Section DirichletPredictive.

Context {T : Type} {S : Scalar T}.

(** The normalized row [params / sum(params)]. *)
Definition normalize_row (row : list T) : list T :=
  map (fun x => fdiv x (tsum row)) row.

(** The repair of a normalized row in the words of the specification: in a
    row that contains a NaN, every NaN entry becomes [1/k], with [k] the
    number of NaN entries of the row, and every other entry becomes zero; a
    row without NaN is kept. *)
Definition spec_nan_fix_row (p : list T) : list T :=
  if existsb isnan p then
    let k := List.length (filter isnan p) in
    map (fun x => if isnan x then fdiv (lit 1) (of_count k) else lit 0) p
  else p.

Lemma existsb_id_map {A : Type} (f : A -> bool) (l : list A) :
  existsb (fun b : bool => b) (map f l) = existsb f l.
Proof.
  induction l as [|x l IH]; simpl; [reflexivity | now rewrite IH].
Qed.

Lemma count_true_map {A : Type} (f : A -> bool) (l : list A) :
  count_true (map f l) = List.length (filter f l).
Proof.
  unfold count_true. induction l as [|x l IH]; simpl; [reflexivity|].
  destruct (f x); simpl; now rewrite IH.
Qed.

Lemma existsb_map {A B : Type} (f : B -> bool) (g : A -> B) (l : list A) :
  existsb f (map g l) = existsb (fun x => f (g x)) l.
Proof.
  induction l as [|x l IH]; simpl; [reflexivity | now rewrite IH].
Qed.

Lemma filter_map_length {A B : Type} (f : B -> bool) (g : A -> B) (l : list A) :
  List.length (filter f (map g l))
  = List.length (filter (fun x => f (g x)) l).
Proof.
  induction l as [|x l IH]; simpl; [reflexivity|].
  destruct (f (g x)); simpl; now rewrite IH.
Qed.

Lemma dirichlet_predictive_rows (params : matrix T) :
  dirichlet_predictive params
  = Ok (map (fun row => spec_nan_fix_row (normalize_row row)) params).
Proof.
  assert (E : params = mk params (fun r => r) (fun _ j => j)).
  { unfold mk. rewrite <- (map_id params) at 1. apply map_ext.
    intros row. now rewrite map_id. }
  rewrite E at 1.
  unfold dirichlet_predictive, tensor_where, sum_keepdim.
  autorewrite with tensor. f_equal. unfold mk. apply map_ext. intros row.
  simpl fst. simpl snd. rewrite map_id.
  unfold spec_nan_fix_row, normalize_row.
  rewrite existsb_id_map, count_true_map.
  set (s := tsum row).
  rewrite existsb_map, filter_map_length.
  destruct (existsb (fun x => isnan (fdiv x s)) row) eqn:Eany.
  - rewrite map_map. apply map_ext. intros x.
    destruct (isnan (fdiv x s)); reflexivity.
  - apply map_ext_in. intros x Hx.
    assert (Hn : isnan (fdiv x s) = false).
    { destruct (isnan (fdiv x s)) eqn:En; [|reflexivity].
      assert (Hex : existsb (fun x => isnan (fdiv x s)) row = true)
        by (apply existsb_exists; eauto).
      congruence. }
    now rewrite Hn.
Qed.

End DirichletPredictive.

(** An all-infinite row on binary64 floats. *)
Section InfiniteRow.

Variables exp_f log_f sigmoid_f ndtr_f : float -> float.
Variable owens_t_f : float -> float -> float.

Let FS : Scalar float := float_scalar exp_f log_f sigmoid_f ndtr_f owens_t_f.

Lemma fold_add_infinity (n : nat) :
  fold_left PrimFloat.add (repeat infinity n) infinity = infinity.
Proof.
  induction n as [|n IH]; simpl; [reflexivity|].
  change (PrimFloat.add infinity infinity) with infinity. exact IH.
Qed.

Lemma tsum_infinity (C : nat) :
  1 <= C -> @tsum float FS (repeat infinity C) = infinity.
Proof.
  intros HC. destruct C as [|C]; [lia|].
  unfold tsum. simpl.
  change (PrimFloat.add (float_of_Q 0) infinity) with infinity.
  apply fold_add_infinity.
Qed.

Lemma filter_repeat_true {A : Type} (f : A -> bool) (x : A) (n : nat) :
  f x = true -> filter f (repeat x n) = repeat x n.
Proof.
  intros H. induction n as [|n IH]; simpl; [reflexivity|].
  now rewrite H, IH.
Qed.

Lemma spec_nan_fix_infinite_row (C : nat) :
  1 <= C ->
  @spec_nan_fix_row float FS (@normalize_row float FS (repeat infinity C))
  = repeat (@fdiv float FS (@lit float FS 1) (@of_count float FS C)) C.
Proof.
  intros HC. unfold normalize_row. rewrite (tsum_infinity HC).
  rewrite map_repeat.
  change (@fdiv float FS infinity infinity) with nan.
  unfold spec_nan_fix_row.
  assert (Hex : existsb (@isnan float FS) (repeat nan C) = true).
  { destruct C as [|C]; [lia|]. reflexivity. }
  rewrite Hex. rewrite filter_repeat_true by reflexivity.
  rewrite repeat_length, map_repeat. reflexivity.
Qed.

End InfiniteRow.

(** C8.  In the direct Dirichlet predictive, a row of the normalized result
    [params / sum(params)] that contains a NaN has each NaN entry replaced by
    [1/k], with [k] the number of NaN entries of that row, and every other
    entry set to zero; a row without NaN is the normalized row.  On floats,
    an all-infinite row of [C >= 1] parameters yields [1/C] for every
    class. *)
Theorem dirichlet_predictive_nan_rows :
  (forall (T : Type) (S : Scalar T) (params : matrix T),
      dirichlet_predictive params
      = Ok (map (fun row => spec_nan_fix_row (normalize_row row)) params))
  /\
  (forall (exp_f log_f sigmoid_f ndtr_f : float -> float)
          (owens_t_f : float -> float -> float)
          (before after : matrix float) (C : nat),
      1 <= C ->
      let FS := float_scalar exp_f log_f sigmoid_f ndtr_f owens_t_f in
      exists P : matrix float,
        @dirichlet_predictive float FS
          (before ++ repeat infinity C :: after)%list = Ok P /\
        nth (List.length before) P []
        = repeat (@fdiv float FS (@lit float FS 1) (@of_count float FS C)) C).
Proof.
  split.
  - intros T S params. apply dirichlet_predictive_rows.
  - intros exp_f log_f sigmoid_f ndtr_f owens_t_f before after C HC FS.
    eexists. split; [apply dirichlet_predictive_rows|].
    rewrite map_app. simpl.
    rewrite app_nth2; rewrite length_map; [|lia].
    rewrite Nat.sub_diag. simpl.
    apply spec_nan_fix_infinite_row. exact HC.
Qed.

(** ** Configuration errors *)

Lemma raises_bind_l {A B : Type} (m : result A) (k : A -> result B) :
  raises m -> raises (bind m k).
Proof. intros [e ->]. exists e. reflexivity. Qed.

Lemma raises_bind_r {A B : Type} (m : result A) (k : A -> result B) :
  (forall a, raises (k a)) -> raises (bind m k).
Proof.
  intros H. destruct m as [a|e]; simpl; [apply H | exists e; reflexivity].
Qed.

Lemma dict_get_absent {V : Type} (d : list (string * V)) (key : string) :
  ~ In key (map fst d) -> dict_get d key = Raise (KeyError key).
Proof.
  induction d as [|[k v] d IH]; simpl; intros H; [reflexivity|].
  destruct (String.eqb_spec k key) as [->|Hne].
  - exfalso. apply H. now left.
  - apply IH. intros Hin. apply H. now right.
Qed.

Section ConfigurationErrors.

Context {T : Type} {S : Scalar T}.

Lemma probit_scale_invalid (link : string) :
  link <> "probit" -> link <> "logit" ->
  probit_scale link = Raise (NotImplementedError "Invalid link function").
Proof.
  intros H1 H2. unfold probit_scale.
  apply String.eqb_neq in H1. apply String.eqb_neq in H2.
  now rewrite H1, H2.
Qed.

Lemma gaussian_pushforward_mean_invalid_output
  (means vars : matrix T) (link output : string) (rl : bool) :
  py_in "normcdf" output = false -> py_in "sigmoid" output = false ->
  raises (gaussian_pushforward_mean means vars link output rl).
Proof.
  intros H1 H2. unfold gaussian_pushforward_mean. rewrite H1, H2.
  apply raises_bind_r. intros scale. eexists. reflexivity.
Qed.

Lemma gaussian_pushforward_second_moment_invalid_output
  (means vars : matrix T) (link output : string) :
  py_in "normcdf" output = false -> py_in "sigmoid" output = false ->
  raises (gaussian_pushforward_second_moment means vars link output).
Proof.
  intros H1 H2. unfold gaussian_pushforward_second_moment.
  apply raises_bind_r. intros scale.
  destruct (String.eqb_spec output "sigmoid_product") as [->|_].
  - discriminate H2.
  - apply raises_bind_r. intros in1. apply raises_bind_r. intros t.
    apply raises_bind_l.
    now apply gaussian_pushforward_mean_invalid_output.
Qed.

Lemma gaussian_pushforward_second_moment_product_link
  (means vars : matrix T) (link : string) :
  link <> "logit" ->
  raises (gaussian_pushforward_second_moment means vars link
            "sigmoid_product").
Proof.
  intros H. unfold gaussian_pushforward_second_moment.
  apply raises_bind_r. intros scale.
  change ("sigmoid_product" =? "sigmoid_product") with true. cbv iota.
  apply String.eqb_neq in H. rewrite H. eexists. reflexivity.
Qed.

Lemma gaussian_pushforward_mean_normcdf_substring
  (means vars : matrix T) (link output : string) (rl : bool) :
  py_in "normcdf" output = true ->
  gaussian_pushforward_mean means vars link output rl
  = gaussian_pushforward_mean means vars link "normcdf" rl.
Proof.
  intros H. unfold gaussian_pushforward_mean. rewrite H.
  change (py_in "normcdf" "normcdf") with true. reflexivity.
Qed.

Lemma gaussian_pushforward_mean_sigmoid_substring
  (means vars : matrix T) (link output : string) (rl : bool) :
  py_in "normcdf" output = false -> py_in "sigmoid" output = true ->
  gaussian_pushforward_mean means vars link output rl
  = gaussian_pushforward_mean means vars link "sigmoid" rl.
Proof.
  intros H1 H2. unfold gaussian_pushforward_mean. rewrite H1, H2.
  change (py_in "normcdf" "sigmoid") with false.
  change (py_in "sigmoid" "sigmoid") with true. reflexivity.
Qed.

Lemma gaussian_pushforward_second_moment_substring
  (means vars : matrix T) (link output name : string) :
  output <> "sigmoid_product" -> name <> "sigmoid_product" ->
  (forall rl, gaussian_pushforward_mean means vars link output rl
              = gaussian_pushforward_mean means vars link name rl) ->
  gaussian_pushforward_second_moment means vars link output
  = gaussian_pushforward_second_moment means vars link name.
Proof.
  intros H1 H2 Hm. unfold gaussian_pushforward_second_moment.
  apply String.eqb_neq in H1. apply String.eqb_neq in H2.
  rewrite H1, H2, (Hm false). reflexivity.
Qed.

End ConfigurationErrors.

(** C9, as the code has it.  A link function other than [probit] and [logit]
    makes both pushforward functions raise [NotImplementedError]; an output
    function that contains neither [normcdf] nor [sigmoid] as a substring
    makes both of them raise; [sigmoid_product] with a link function other
    than [logit] makes the second moment raise; a name that is not a key of
    the registry makes [get_predictive] (and [get_dirichlet]) raise
    [KeyError].  Nothing is substituted for the invalid value.  An output
    function that contains [normcdf] is handled by both pushforward
    functions exactly as [normcdf], and one that contains [sigmoid] but not
    [normcdf] exactly as [sigmoid] (for the second moment unless it is
    [sigmoid_product] itself): it returns, or raises, what that name
    does. *)
Theorem configuration_errors :
  (forall (T : Type) (S : Scalar T) (mean var : matrix T)
          (link output : string) (return_logits : bool),
      link <> "probit" -> link <> "logit" ->
      gaussian_pushforward_mean mean var link output return_logits
      = Raise (NotImplementedError "Invalid link function") /\
      gaussian_pushforward_second_moment mean var link output
      = Raise (NotImplementedError "Invalid link function"))
  /\
  (forall (T : Type) (S : Scalar T) (mean var : matrix T)
          (link output : string) (return_logits : bool),
      py_in "normcdf" output = false -> py_in "sigmoid" output = false ->
      raises (gaussian_pushforward_mean mean var link output return_logits) /\
      raises (gaussian_pushforward_second_moment mean var link output))
  /\
  (forall (T : Type) (S : Scalar T) (mean var : matrix T) (link : string),
      link <> "logit" ->
      raises (gaussian_pushforward_second_moment mean var link
                "sigmoid_product"))
  /\
  (forall (predictive : string) (use_correction : bool) (num_mc_samples : nat),
      ~ In predictive (map fst PREDICTIVE_DICT) ->
      get_predictive predictive use_correction num_mc_samples
      = Raise (KeyError predictive))
  /\
  (forall dirichlet : string,
      ~ In dirichlet (map fst DIRICHLET_DICT) ->
      get_dirichlet dirichlet = Raise (KeyError dirichlet))
  /\
  (forall (T : Type) (S : Scalar T) (mean var : matrix T)
          (link output : string) (return_logits : bool),
      (py_in "normcdf" output = true ->
       gaussian_pushforward_mean mean var link output return_logits
       = gaussian_pushforward_mean mean var link "normcdf" return_logits /\
       gaussian_pushforward_second_moment mean var link output
       = gaussian_pushforward_second_moment mean var link "normcdf") /\
      (py_in "normcdf" output = false -> py_in "sigmoid" output = true ->
       gaussian_pushforward_mean mean var link output return_logits
       = gaussian_pushforward_mean mean var link "sigmoid" return_logits /\
       (output <> "sigmoid_product" ->
        gaussian_pushforward_second_moment mean var link output
        = gaussian_pushforward_second_moment mean var link "sigmoid"))).
Proof.
  split; [|split; [|split; [|split; [|split]]]].
  - intros T S mean var link output rl H1 H2. split.
    + unfold gaussian_pushforward_mean.
      now rewrite probit_scale_invalid.
    + unfold gaussian_pushforward_second_moment.
      now rewrite probit_scale_invalid.
  - intros T S mean var link output rl H1 H2. split.
    + now apply gaussian_pushforward_mean_invalid_output.
    + now apply gaussian_pushforward_second_moment_invalid_output.
  - intros T S mean var link H.
    now apply gaussian_pushforward_second_moment_product_link.
  - intros predictive uc n H. unfold get_predictive.
    now rewrite dict_get_absent.
  - intros dirichlet H. unfold get_dirichlet. now apply dict_get_absent.
  - intros T S mean var link output rl. split.
    + intros H. split.
      * now apply gaussian_pushforward_mean_normcdf_substring.
      * apply gaussian_pushforward_second_moment_substring.
        -- intros ->. discriminate H.
        -- discriminate.
        -- intros rl'. now apply gaussian_pushforward_mean_normcdf_substring.
    + intros H1 H2. split.
      * now apply gaussian_pushforward_mean_sigmoid_substring.
      * intros Hne. apply gaussian_pushforward_second_moment_substring.
        -- exact Hne.
        -- discriminate.
        -- intros rl'. now apply gaussian_pushforward_mean_sigmoid_substring.
Qed.

(** The rule as the specification states it fails: [normcdf_product] is not
    one of the three output functions, yet both pushforward functions accept
    it and treat it as [normcdf]. *)
Lemma invalid_output_function_accepted :
  ~ In "normcdf_product" ["normcdf"; "sigmoid"; "sigmoid_product"] /\
  (forall (T : Type) (S : Scalar T),
      gaussian_pushforward_mean [[lit 1; lit (-1)]] [[lit (1 # 2); lit (1 # 2)]]
        "probit" "normcdf_product" false
      = gaussian_pushforward_mean [[lit 1; lit (-1)]]
          [[lit (1 # 2); lit (1 # 2)]] "probit" "normcdf" false /\
      returns (gaussian_pushforward_mean [[lit 1; lit (-1)]]
                 [[lit (1 # 2); lit (1 # 2)]] "probit" "normcdf_product" false) /\
      returns (gaussian_pushforward_second_moment [[lit 1; lit (-1)]]
                 [[lit (1 # 2); lit (1 # 2)]] "probit" "normcdf_product")).
Proof.
  split.
  - simpl. intros [H | [H | [H | []]]]; discriminate H.
  - intros T S. repeat split; eexists; reflexivity.
Qed.

(** ** The sigmoid-product alias of the registry *)

(** C10.  [PREDICTIVE_DICT] holds one function object under the names
    [logit_link_sigmoid_product_output] and [logit_link_sigmoid_output], so
    [get_predictive] gives the same callable for both and both produce the
    same class probabilities on every [(mean, var)]; that function passes the
    output function [sigmoid].  No function of [PREDICTIVE_DICT] passes
    [sigmoid_product]; in [DIRICHLET_DICT] the name
    [logit_link_sigmoid_product_output] holds a function that does. *)
Theorem sigmoid_product_output_alias :
  (dict_get PREDICTIVE_DICT "logit_link_sigmoid_product_output"
   = Ok fn_logit_link_sigmoid_output /\
   dict_get PREDICTIVE_DICT "logit_link_sigmoid_output"
   = Ok fn_logit_link_sigmoid_output)
  /\
  (forall (use_correction : bool) (num_mc_samples : nat),
      get_predictive "logit_link_sigmoid_product_output" use_correction
        num_mc_samples
      = Ok (Partial fn_logit_link_sigmoid_output None None) /\
      get_predictive "logit_link_sigmoid_output" use_correction num_mc_samples
      = Ok (Partial fn_logit_link_sigmoid_output None None))
  /\
  (forall (T : Type) (S : Scalar T) (mean var : matrix T),
      call_predictive fn_logit_link_sigmoid_output mean var
      = Some (probit_predictive mean var "logit" "sigmoid" false))
  /\
  (forall (name : string) (f : predictive_function),
      dict_get PREDICTIVE_DICT name = Ok f ->
      forall kw, predictive_kwargs f = Some kw ->
                 (snd kw = "normcdf" \/ snd kw = "sigmoid") /\
                 forall (T : Type) (S : Scalar T) (mean var : matrix T),
                   call_predictive f mean var
                   = Some (probit_predictive mean var (fst kw) (snd kw) false))
  /\
  (get_dirichlet "logit_link_sigmoid_product_output"
   = Ok fn_logit_link_sigmoid_product_output_dirichlet /\
   dirichlet_kwargs fn_logit_link_sigmoid_product_output_dirichlet
   = ("logit", "sigmoid_product") /\
   forall (T : Type) (S : Scalar T) (mean var : matrix T),
     call_dirichlet fn_logit_link_sigmoid_product_output_dirichlet mean var
     = get_mom_dirichlet_approximation mean var "logit" "sigmoid_product").
Proof.
  split; [split; reflexivity|].
  split; [intros; split; reflexivity|].
  split; [reflexivity|].
  split.
  - intros name f _ kw Hkw.
    destruct f; simpl in Hkw; try discriminate; injection Hkw as <-;
      (split; [simpl; auto | reflexivity]).
  - repeat split.
Qed.

(** ** Row sums of the predictives *)

Lemma mapM_ok_in {A B : Type} (f : A -> result B) (g : A -> B) (l : list A) :
  (forall x, In x l -> f x = Ok (g x)) -> mapM f l = Ok (map g l).
Proof.
  induction l as [|x l IH]; intros H; simpl; [reflexivity|].
  rewrite (H x (or_introl eq_refl)). cbn [bind].
  rewrite IH by (intros; apply H; now right). reflexivity.
Qed.

Section PredictiveRows.

Context {T : Type} {S : Scalar T}.

(** The floor of the simple predictive. *)
Definition floor_1e10 : T := lit (1 # 10000000000).

Lemma probit_predictive_mk {I J : Type} (L : list I) (cols : I -> list J)
  (em ev m1 : I -> J -> T) (link output : string) :
  gaussian_pushforward_mean (mk L cols em) (mk L cols ev) link output false
  = Ok (mk L cols m1) ->
  probit_predictive (mk L cols em) (mk L cols ev) link output false
  = Ok (mk L cols (fun r j =>
          fmax (fdiv (m1 r j) (tsum (map (m1 r) (cols r)))) floor_1e10)).
Proof.
  intros H. unfold probit_predictive, sum_keepdim. rewrite H.
  autorewrite with tensor. reflexivity.
Qed.

Lemma beta_predictive_cells (d : T) (beta_params : list (list (list T))) :
  Forall (Forall (fun cell : list T => cell <> [])) beta_params ->
  beta_predictive beta_params
  = Ok (map (fun row =>
               normalize_row
                 (map (fun cell => fdiv (hd d cell) (tsum cell)) row))
          beta_params).
Proof.
  intros Hne. unfold beta_predictive, select_first.
  assert (E : beta_params = mk beta_params (fun r => r) (fun _ cell => cell)).
  { unfold mk. rewrite <- (map_id beta_params) at 1. apply map_ext.
    intros row. now rewrite map_id. }
  rewrite (@mapM_ok_in _ _ _ (map (hd d)) beta_params).
  2:{ intros row Hrow. apply mapM_ok_in. intros cell Hcell.
      rewrite Forall_forall in Hne. specialize (Hne _ Hrow).
      rewrite Forall_forall in Hne. specialize (Hne _ Hcell).
      destruct cell; [congruence | reflexivity]. }
  cbn [bind].
  change (map (map (hd d)) beta_params) with (tensor_map (hd d) beta_params).
  rewrite E at 1 2. unfold sum_keepdim. autorewrite with tensor.
  f_equal. unfold mk. apply map_ext. intros row.
  unfold normalize_row. now rewrite map_map.
Qed.

End PredictiveRows.

(** *** Sums of real numbers *)

Section RealSums.

Local Open Scope R_scope.

Definition Rsum (l : list R) : R := fold_right Rplus 0 l.

Lemma fold_left_Rplus (l : list R) (a : R) :
  fold_left Rplus l a = a + Rsum l.
Proof.
  revert a. induction l as [|x l IH]; intros a; simpl.
  - lra.
  - rewrite IH. lra.
Qed.

Lemma Q2R_0 : Q2R 0 = 0.
Proof. unfold Q2R. simpl. lra. Qed.

Lemma Q2R_1 : Q2R 1 = 1.
Proof. unfold Q2R. simpl. lra. Qed.

Lemma Rsum_div (l : list R) (s : R) :
  Rsum (map (fun x => x / s) l) = Rsum l / s.
Proof.
  induction l as [|x l IH]; simpl.
  - unfold Rdiv. ring.
  - rewrite IH. unfold Rdiv. ring.
Qed.

Lemma Rsum_pos (l : list R) :
  l <> [] -> Forall (fun x => 0 < x) l -> 0 < Rsum l.
Proof.
  intros Hne Hpos. induction Hpos as [|x l Hx Hl IH]; [congruence|].
  simpl. destruct l as [|y l].
  - simpl. lra.
  - assert (0 < Rsum (y :: l)) by (apply IH; discriminate). lra.
Qed.

Lemma Rsum_normalized (l : list R) :
  Rsum l <> 0 -> Rsum (map (fun x => x / Rsum l) l) = 1.
Proof. intros H. rewrite Rsum_div. now field. Qed.



Lemma sigmoid_R_pos (x : R) : 0 < sigmoid_R x.
Proof.
  unfold sigmoid_R. apply Rdiv_lt_0_compat; [lra|].
  pose proof (exp_pos (- x)). lra.
Qed.

End RealSums.

(** ** The special functions over the reals *)

Section NormalDistribution.

Local Open Scope R_scope.

(** The normal distribution function by its power series,
    [ndtr(x) = 1/2 + x/sqrt(2 pi) * sum_n (-x^2/2)^n / (n! (2n+1))]. *)

Definition ndtr_coeff (n : nat) : R := / (INR (fact n) * INR (2 * n + 1)).

Lemma ndtr_coeff_pos (n : nat) : 0 < ndtr_coeff n.
Proof.
  unfold ndtr_coeff. apply Rinv_0_lt_compat. apply Rmult_lt_0_compat.
  - apply INR_fact_lt_0.
  - apply lt_0_INR. lia.
Qed.

Lemma ndtr_coeff_neq_0 (n : nat) : ndtr_coeff n <> 0.
Proof. pose proof (ndtr_coeff_pos n). lra. Qed.

Lemma ndtr_coeff_step (n : nat) :
  ndtr_coeff (S n)
  = ndtr_coeff n * (INR (2 * n + 1) / (INR (S n) * INR (2 * n + 3))).
Proof.
  unfold ndtr_coeff. rewrite fact_simpl, mult_INR.
  replace (2 * S n + 1)%nat with (2 * n + 3)%nat by lia.
  field. repeat split.
  - apply not_0_INR. lia.
  - apply not_0_INR. lia.
  - apply not_0_INR. lia.
  - apply INR_fact_neq_0.
Qed.

Lemma ndtr_factor_bounds (n : nat) :
  0 < INR (2 * n + 1) / (INR (S n) * INR (2 * n + 3)) <= / INR (S n).
Proof.
  assert (H1 : 0 < INR (S n)) by (apply lt_0_INR; lia).
  assert (H2 : 0 < INR (2 * n + 1)) by (apply lt_0_INR; lia).
  assert (H3 : INR (2 * n + 1) <= INR (2 * n + 3)) by (apply le_INR; lia).
  assert (H4 : 0 < INR (2 * n + 3)) by lra.
  split.
  - apply Rdiv_lt_0_compat; [lra | now apply Rmult_lt_0_compat].
  - unfold Rdiv. rewrite Rinv_mult.
    rewrite <- (Rmult_1_r (/ INR (S n))) at 2.
    rewrite (Rmult_comm (INR (2 * n + 1))), Rmult_assoc.
    apply Rmult_le_compat_l; [left; now apply Rinv_0_lt_compat|].
    rewrite Rmult_comm. apply (Rmult_le_reg_r (INR (2 * n + 3))); [lra|].
    rewrite Rmult_assoc, Rinv_l by lra. lra.
Qed.

Lemma ndtr_coeff_ratio :
  Un_cv (fun n => Rabs (ndtr_coeff (S n) / ndtr_coeff n)) 0.
Proof.
  intros eps Heps. destruct (archimed_cor1 eps Heps) as [N [HN HN0]].
  exists N. intros n Hn. unfold Rdist. rewrite Rminus_0_r, Rabs_Rabsolu.
  rewrite ndtr_coeff_step.
  replace (ndtr_coeff n * (INR (2 * n + 1) / (INR (S n) * INR (2 * n + 3)))
           / ndtr_coeff n)
    with (INR (2 * n + 1) / (INR (S n) * INR (2 * n + 3)))
    by (field; repeat split; try (apply not_0_INR; lia);
        apply ndtr_coeff_neq_0).
  destruct (ndtr_factor_bounds n) as [Hpos Hle].
  rewrite Rabs_pos_eq by lra.
  apply Rle_lt_trans with (1 := Hle).
  apply Rle_lt_trans with (2 := HN).
  apply Rinv_le_contravar; [apply lt_0_INR; lia | apply le_INR; lia].
Qed.

Definition ndtr_series (z : R) : R :=
  proj1_sig (Alembert_C3 ndtr_coeff z ndtr_coeff_neq_0 ndtr_coeff_ratio).

Lemma ndtr_series_sum (z : R) : Pser ndtr_coeff z (ndtr_series z).
Proof. unfold ndtr_series. apply proj2_sig. Qed.

Definition ndtr_real (x : R) : R :=
  1 / 2 + x * ndtr_series (- (x * x / 2)) / R_sqrt.sqrt (2 * PI).

Lemma ndtr_real_opp (x : R) : ndtr_real (- x) = 1 - ndtr_real x.
Proof.
  unfold ndtr_real. replace (- x * - x) with (x * x) by ring.
  set (g := ndtr_series (- (x * x / 2))).
  replace (- x * g / R_sqrt.sqrt (2 * PI))
    with (- (x * g / R_sqrt.sqrt (2 * PI)))
    by (unfold Rdiv; ring).
  lra.
Qed.

Lemma ndtr_real_0 : ndtr_real 0 = 1 / 2.
Proof. unfold ndtr_real. unfold Rdiv. rewrite !Rmult_0_l. lra. Qed.

(** Numerical bounds at [x^2/2 = 1/3]. *)

Definition ndtr_term (n : nat) : R := ndtr_coeff n * (1 / 3) ^ n.

Lemma ndtr_term_decreasing : Un_decreasing ndtr_term.
Proof.
  intros n. unfold ndtr_term. rewrite ndtr_coeff_step. simpl pow.
  destruct (ndtr_factor_bounds n) as [Hpos Hle].
  assert (H1 : 1 <= INR (S n))
    by (replace 1 with (INR 1) by reflexivity; apply le_INR; lia).
  assert (H2 : / INR (S n) <= 1).
  { rewrite <- Rinv_1. apply Rinv_le_contravar; lra. }
  pose proof (ndtr_coeff_pos n) as Hc.
  assert (Hp : 0 < (1 / 3) ^ n) by (apply pow_lt; lra).
  set (f := INR (2 * n + 1) / (INR (S n) * INR (2 * n + 3))) in *.
  assert (Hcp : 0 < ndtr_coeff n * (1 / 3) ^ n) by now apply Rmult_lt_0_compat.
  replace (ndtr_coeff n * f * (1 / 3 * (1 / 3) ^ n))
    with (ndtr_coeff n * (1 / 3) ^ n * (f * (1 / 3))) by ring.
  rewrite <- (Rmult_1_r (ndtr_coeff n * (1 / 3) ^ n)) at 2.
  apply Rmult_le_compat_l; [lra | nra].
Qed.

Lemma ndtr_term_cv : Un_cv ndtr_term 0.
Proof.
  intros eps Heps.
  destruct (cv_speed_pow_fact (1 / 3) eps Heps) as [N HN].
  exists N. intros n Hn. specialize (HN n Hn).
  unfold Rdist in *. rewrite Rminus_0_r in *.
  assert (Hp : 0 < (1 / 3) ^ n) by (apply pow_lt; lra).
  pose proof (INR_fact_lt_0 n) as Hf.
  assert (H21 : 1 <= INR (2 * n + 1))
    by (replace 1 with (INR 1) by reflexivity; apply le_INR; lia).
  assert (Hq : 0 < (1 / 3) ^ n / INR (fact n)) by now apply Rdiv_lt_0_compat.
  rewrite Rabs_pos_eq in HN by lra.
  pose proof (ndtr_coeff_pos n) as Hc.
  assert (Ht : 0 < ndtr_term n)
    by (unfold ndtr_term; now apply Rmult_lt_0_compat).
  rewrite Rabs_pos_eq by lra.
  apply Rle_lt_trans with (2 := HN).
  unfold ndtr_term, ndtr_coeff, Rdiv. rewrite Rinv_mult.
  rewrite (Rmult_comm ((1 * / 3) ^ n)).
  rewrite Rmult_assoc.
  apply Rmult_le_compat_l; [left; now apply Rinv_0_lt_compat|].
  rewrite <- (Rmult_1_l ((1 * / 3) ^ n)) at 2.
  apply Rmult_le_compat_r.
  - unfold Rdiv in Hp. lra.
  - rewrite <- Rinv_1. apply Rinv_le_contravar; lra.
Qed.

Lemma ndtr_series_alt :
  Un_cv (fun N => sum_f_R0 (tg_alt ndtr_term) N) (ndtr_series (- (1 / 3))).
Proof.
  pose proof (ndtr_series_sum (- (1 / 3))) as H.
  unfold Pser, infinite_sum in H. intros eps Heps.
  destruct (H eps Heps) as [N HN]. exists N. intros n Hn.
  specialize (HN n Hn).
  replace (sum_f_R0 (tg_alt ndtr_term) n)
    with (sum_f_R0 (fun n0 => ndtr_coeff n0 * (- (1 / 3)) ^ n0) n); [exact HN|].
  apply sum_eq. intros i _. unfold tg_alt, ndtr_term.
  replace (- (1 / 3)) with (-1 * (1 / 3)) by ring.
  rewrite Rpow_mult_distr. ring.
Qed.

Lemma ndtr_series_bounds :
  0.8991 <= ndtr_series (- (1 / 3)) <= 0.9.
Proof.
  pose proof (alternated_series_ineq ndtr_term (ndtr_series (- (1 / 3))) 1
                ndtr_term_decreasing ndtr_term_cv ndtr_series_alt) as [Hlo Hhi].
  unfold sum_f_R0, tg_alt, ndtr_term, ndtr_coeff in Hlo, Hhi.
  simpl in Hlo, Hhi. lra.
Qed.

Lemma sqrt_between (lo hi x : R) :
  0 <= lo -> 0 <= hi -> lo * lo < x < hi * hi -> lo < R_sqrt.sqrt x < hi.
Proof.
  intros Hlo Hhi [H1 H2]. split.
  - rewrite <- (sqrt_square lo Hlo) at 1. apply sqrt_lt_1_alt. nra.
  - rewrite <- (sqrt_square hi Hhi) at 1. apply sqrt_lt_1_alt. nra.
Qed.

Lemma PI_bounds : 3.1415 < PI < 3.1421.
Proof.
  pose proof (PI_2_3_7_ineq 1) as [Hlo Hhi].
  unfold sum_f_R0, tg_alt, PI_2_3_7_tg, Ratan_seq in Hlo, Hhi.
  simpl in Hlo, Hhi. lra.
Qed.

Lemma sqrt_2PI_bounds : 2.5065 < R_sqrt.sqrt (2 * PI) < 2.5069.
Proof.
  pose proof PI_bounds. apply sqrt_between; lra.
Qed.


(** Owen's T function,
    [T(h, a) = 1/(2 pi) * integral from 0 to a of
               exp(-h^2 (1 + x^2) / 2) / (1 + x^2) dx]. *)
Definition owens_integrand (h x : R) : R :=
  Rtrigo_def.exp (- (h * h * (1 + x * x) / 2)) / (1 + x * x).

Lemma owens_integrand_continuity (h : R) : continuity (owens_integrand h).
Proof.
  intros x. apply derivable_continuous_pt. unfold owens_integrand.
  assert (1 + x * x <> 0) by nra. reg.
Qed.

Lemma owens_integrable (h a : R) :
  Riemann_integrable (owens_integrand h) 0 a.
Proof.
  destruct (Rle_dec 0 a) as [Ha | Ha].
  - apply continuity_implies_RiemannInt; [exact Ha|].
    intros x _. apply owens_integrand_continuity.
  - apply RiemannInt_P1. apply continuity_implies_RiemannInt; [lra|].
    intros x _. apply owens_integrand_continuity.
Qed.

Definition owens_t_real (h a : R) : R :=
  RiemannInt (owens_integrable h a) / (2 * PI).

End NormalDistribution.

(** The real numbers with the special functions above. *)
Definition real_scalar : Scalar R := R_scalar ndtr_real owens_t_real.

(** *** The three predictives over the reals *)

Section RealPredictives.

Local Open Scope R_scope.

Variable ndtr_R : R -> R.
Variable owens_t_R : R -> R -> R.

Let RS : Scalar R := R_scalar ndtr_R owens_t_R.

#[local] Existing Instance RS.

Lemma tsum_Rsum (l : list R) : @tsum R RS l = Rsum l.
Proof.
  unfold tsum. change (@fadd R RS) with Rplus.
  change (@lit R RS 0) with (Q2R 0).
  rewrite fold_left_Rplus, Q2R_0. lra.
Qed.

Lemma floor_1e10_R : @floor_1e10 R RS = 1e-10.
Proof.
  unfold floor_1e10. change (@lit R RS) with Q2R. unfold Q2R. simpl. lra.
Qed.

Lemma spec_nan_fix_row_R (p : list R) : @spec_nan_fix_row R RS p = p.
Proof.
  unfold spec_nan_fix_row. change (@isnan R RS) with (fun _ : R => false).
  assert (E : existsb (fun _ : R => false) p = false)
    by (induction p; simpl; auto).
  now rewrite E.
Qed.



Lemma nonempty_of_length {A : Type} (C : nat) (l : list A) :
  (1 <= C)%nat -> List.length l = C -> l <> [].
Proof. intros HC Hl ->. simpl in Hl. lia. Qed.





End RealPredictives.



(** ** The end-to-end example of the specification *)

Section EndToEndExample.

Local Open Scope R_scope.

#[local] Existing Instance real_scalar.

Definition example_mean : matrix R := [[1; -1]].

Definition example_var : matrix R := [[0.5; 0.5]].

(** [mean / sqrt(1/scale + var)] at [mean = 1], [scale = 1], [var = 0.5]. *)
Definition example_logit : R := 1 / R_sqrt.sqrt (1 + 0.5).

Lemma example_logit_bounds : 0.8159 < example_logit < 0.8170.
Proof.
  unfold example_logit. replace (1 + 0.5) with (3 / 2) by lra.
  assert (H : 1.2240 < R_sqrt.sqrt (3 / 2) < 1.2256)
    by (apply sqrt_between; lra).
  destruct H as [H1 H2]. split.
  - apply Rmult_lt_reg_r with (R_sqrt.sqrt (3 / 2)); [lra|].
    unfold Rdiv. rewrite Rmult_assoc, Rinv_l by lra. lra.
  - apply Rmult_lt_reg_r with (R_sqrt.sqrt (3 / 2)); [lra|].
    unfold Rdiv. rewrite Rmult_assoc, Rinv_l by lra. lra.
Qed.

Lemma example_logit_square : example_logit * example_logit / 2 = 1 / 3.
Proof.
  unfold example_logit. replace (1 + 0.5) with (3 / 2) by lra.
  assert (H : R_sqrt.sqrt (3 / 2) * R_sqrt.sqrt (3 / 2) = 3 / 2)
    by (apply sqrt_sqrt; lra).
  assert (Hs : R_sqrt.sqrt (3 / 2) <> 0) by (intros E; rewrite E in H; lra).
  replace (1 / R_sqrt.sqrt (3 / 2) * (1 / R_sqrt.sqrt (3 / 2)) / 2)
    with (1 / (R_sqrt.sqrt (3 / 2) * R_sqrt.sqrt (3 / 2)) / 2) by (now field).
  rewrite H. lra.
Qed.

Lemma ndtr_example_bounds : 0.7926 < ndtr_real example_logit < 0.7934.
Proof.
  unfold ndtr_real. rewrite example_logit_square.
  pose proof ndtr_series_bounds as [G1 G2].
  pose proof sqrt_2PI_bounds as [S1 S2].
  pose proof example_logit_bounds as [A1 A2].
  set (g := ndtr_series (- (1 / 3))) in *.
  set (s := R_sqrt.sqrt (2 * PI)) in *.
  set (a := example_logit) in *.
  assert (E : a * g / s * s = a * g) by (field; lra).
  set (t := a * g / s) in *.
  split; nra.
Qed.

(** The example's matrices, indexed by one row and two columns. *)
Definition example_cols (_ : unit) : list (R * R) := [(1, 0.5); (-1, 0.5)].

Lemma Rabs_le_bounds (a b : R) : Rabs a <= b -> - b <= a <= b.
Proof. unfold Rabs. destruct (Rcase_abs a); lra. Qed.

Ltac real_ops :=
  change (@fdiv R real_scalar) with Rdiv;
  change (@fsqrt R real_scalar) with R_sqrt.sqrt;
  change (@fadd R real_scalar) with Rplus;
  change (@fmax R real_scalar) with Rmax;
  change (@ndtr R real_scalar) with ndtr_real;
  change (@lit R real_scalar) with Q2R.

Lemma example_logit_eq :
  1 / R_sqrt.sqrt (Q2R 1 / Q2R 1 + 0.5) = example_logit /\
  -1 / R_sqrt.sqrt (Q2R 1 / Q2R 1 + 0.5) = - example_logit.
Proof.
  rewrite Q2R_1. replace (1 / 1 + 0.5) with (1 + 0.5) by lra.
  unfold example_logit, Rdiv. split; ring.
Qed.

Lemma example_pushforward_logits :
  gaussian_pushforward_mean example_mean example_var "probit" "normcdf" true
  = Ok [[example_logit; - example_logit]].
Proof.
  change example_mean with (mk [tt] example_cols (fun _ j => fst j)).
  change example_var with (mk [tt] example_cols (fun _ j => snd j)).
  rewrite (gaussian_pushforward_mean_mk [tt] example_cols _ _ "probit"
             "normcdf" true (scale := lit 1) eq_refl).
  change (py_in "normcdf" "normcdf") with true. cbv iota.
  unfold mk, example_cols. cbn [map fst snd]. unfold spec_normcdf_logit.
  real_ops. destruct example_logit_eq as [-> ->]. reflexivity.
Qed.

Lemma example_pushforward_mean :
  gaussian_pushforward_mean example_mean example_var "probit" "normcdf" false
  = Ok [[ndtr_real example_logit; ndtr_real (- example_logit)]].
Proof.
  change example_mean with (mk [tt] example_cols (fun _ j => fst j)).
  change example_var with (mk [tt] example_cols (fun _ j => snd j)).
  rewrite (gaussian_pushforward_mean_mk [tt] example_cols _ _ "probit"
             "normcdf" false (scale := lit 1) eq_refl).
  change (py_in "normcdf" "normcdf") with true. cbv iota.
  unfold mk, example_cols. cbn [map fst snd]. unfold spec_normcdf_logit.
  real_ops. destruct example_logit_eq as [-> ->]. reflexivity.
Qed.

Lemma example_predictive :
  probit_link_normcdf_output example_mean example_var false
  = Ok [[ndtr_real example_logit; ndtr_real (- example_logit)]].
Proof.
  unfold probit_link_normcdf_output.
  change example_mean with (mk [tt] example_cols (fun _ j => fst j)).
  change example_var with (mk [tt] example_cols (fun _ j => snd j)).
  rewrite (probit_predictive_mk [tt] example_cols _ _
             (fun _ j => ndtr (spec_normcdf_logit (lit 1) (fst j) (snd j)))
             "probit" "normcdf").
  2:{ rewrite (gaussian_pushforward_mean_mk [tt] example_cols _ _ "probit"
                 "normcdf" false (scale := lit 1) eq_refl).
      reflexivity. }
  unfold mk, example_cols. cbn [map fst snd]. unfold spec_normcdf_logit.
  rewrite (tsum_Rsum ndtr_real owens_t_real).
  change (@floor_1e10 R real_scalar)
    with (@floor_1e10 R (R_scalar ndtr_real owens_t_real)).
  rewrite (floor_1e10_R ndtr_real owens_t_real).
  real_ops. destruct example_logit_eq as [-> ->].
  rewrite ndtr_real_opp. pose proof ndtr_example_bounds as [B1 B2].
  set (m := ndtr_real example_logit) in *.
  unfold Rsum. cbn [fold_right].
  replace (m + (1 - m + 0)) with 1 by lra.
  rewrite !Rmax_left by (unfold Rdiv; lra).
  unfold Rdiv. rewrite Rinv_1, !Rmult_1_r. reflexivity.
Qed.

(** C5, as the code has it.  For [mean = [[1.0, -1.0]]],
    [var = [[0.5, 0.5]]], link function [probit] and output function
    [normcdf], the pre-activation logits are
    [mean / sqrt(1 + 0.5) = [0.8165, -0.8165]] to within [1e-3],
    [M1 = ndtr(logits)] is [[0.7929, 0.2071]] to within [1e-3], and the
    normalized, floored predictive equals [M1]. *)
Theorem spec_example_probit_normcdf :
  example_logit = 1 / R_sqrt.sqrt (1 + 0.5) /\
  Rabs (example_logit - 0.8165) <= 1e-3 /\
  gaussian_pushforward_mean example_mean example_var "probit" "normcdf" true
  = Ok [[example_logit; - example_logit]] /\
  gaussian_pushforward_mean example_mean example_var "probit" "normcdf" false
  = Ok [[ndtr_real example_logit; ndtr_real (- example_logit)]] /\
  Rabs (ndtr_real example_logit - 0.7929) <= 1e-3 /\
  Rabs (ndtr_real (- example_logit) - 0.2071) <= 1e-3 /\
  probit_link_normcdf_output example_mean example_var false
  = Ok [[ndtr_real example_logit; ndtr_real (- example_logit)]].
Proof.
  pose proof example_logit_bounds as [A1 A2].
  pose proof ndtr_example_bounds as [B1 B2].
  split; [reflexivity|].
  split; [apply Rabs_le; lra|].
  split; [exact example_pushforward_logits|].
  split; [exact example_pushforward_mean|].
  split; [apply Rabs_le; lra|].
  split; [rewrite ndtr_real_opp; apply Rabs_le; lra|].
  exact example_predictive.
Qed.

(** The example as the specification states it fails: the first logit is not
    [1 / sqrt(2 + 0.5)] and is not within [1e-3] of [0.632], and the first
    class probability is not within [1e-3] of [0.7365]. *)
Lemma spec_example_as_stated_fails :
  exists l0 l1 p0 p1 : R,
    gaussian_pushforward_mean example_mean example_var "probit" "normcdf" true
    = Ok [[l0; l1]] /\
    probit_link_normcdf_output example_mean example_var false
    = Ok [[p0; p1]] /\
    l0 <> 1 / R_sqrt.sqrt (2 + 0.5) /\
    ~ Rabs (l0 - 0.632) <= 1e-3 /\
    ~ Rabs (p0 - 0.7365) <= 1e-3.
Proof.
  pose proof example_logit_bounds as [A1 A2].
  pose proof ndtr_example_bounds as [B1 B2].
  exists example_logit, (- example_logit),
    (ndtr_real example_logit), (ndtr_real (- example_logit)).
  split; [exact example_pushforward_logits|].
  split; [exact example_predictive|].
  assert (H : 1.58 < R_sqrt.sqrt (2 + 0.5) < 1.59)
    by (apply sqrt_between; lra).
  assert (Hq : 1 / R_sqrt.sqrt (2 + 0.5) < 0.64).
  { apply Rmult_lt_reg_r with (R_sqrt.sqrt (2 + 0.5)); [lra|].
    unfold Rdiv. rewrite Rmult_assoc, Rinv_l by lra. lra. }
  split; [lra|].
  split; intros Habs; apply Rabs_le_bounds in Habs; lra.
Qed.

End EndToEndExample.

(** ** The theorems at concrete inputs

    The end-to-end example of the specification, over the reals with the
    normal distribution function and Owen's T defined above. *)

Section ConcreteInputs.

Local Open Scope R_scope.

#[local] Existing Instance real_scalar.

Lemma example_mean_shape : has_shape 1 2 example_mean.
Proof. split; [reflexivity | repeat constructor]. Defined.

Lemma example_var_shape : has_shape 1 2 example_var.
Proof. split; [reflexivity | repeat constructor]. Defined.

Lemma gaussian_pushforward_mean_formula_witness :
  has_shape 1 2 example_mean /\ has_shape 1 2 example_var /\
  spec_scale "probit" (lit 1) /\
  gaussian_pushforward_mean example_mean example_var "probit" "normcdf" false
  = Ok (zip_with
          (zip_with (fun m v => ndtr (spec_normcdf_logit (lit 1) m v)))
          example_mean example_var).
Proof.
  split; [exact example_mean_shape|]. split; [exact example_var_shape|].
  split; [left; split; reflexivity|].
  apply (proj1 (@gaussian_pushforward_mean_formula R real_scalar 1 2
                  example_mean example_var "probit" (lit 1)
                  example_mean_shape example_var_shape
                  (or_introl (conj eq_refl eq_refl)))).
Defined.

Lemma gaussian_pushforward_second_moment_formula_witness :
  exists M1 : matrix R,
    gaussian_pushforward_mean example_mean example_var "logit" "sigmoid" false
    = Ok M1 /\
    gaussian_pushforward_second_moment example_mean example_var
      "logit" "sigmoid"
    = Ok (zip_with (zip_with fadd) M1
            (zip_with (zip_with (spec_t_term (fdiv pi (lit 8))))
               example_mean example_var)).
Proof.
  apply (@gaussian_pushforward_second_moment_formula R real_scalar 1 2
           example_mean example_var "logit" "sigmoid" (fdiv pi (lit 8))
           example_mean_shape example_var_shape
           (or_intror (conj eq_refl eq_refl)) (or_intror eq_refl)).
Defined.

Lemma get_mom_dirichlet_approximation_formula_witness :
  exists M1 M2 : matrix R,
    gaussian_pushforward_mean example_mean example_var
      "logit" "sigmoid_product" false = Ok M1 /\
    gaussian_pushforward_second_moment example_mean example_var
      "logit" "sigmoid_product" = Ok M2 /\
    get_mom_dirichlet_approximation example_mean example_var
      "logit" "sigmoid_product"
    = Ok (zip_with spec_dirichlet_row M1 M2).
Proof.
  apply (@get_mom_dirichlet_approximation_formula R real_scalar 1 2
           example_mean example_var "logit" "sigmoid_product"
           example_mean_shape example_var_shape
           (or_intror (conj eq_refl eq_refl))).
Defined.

Lemma example_var_nonneg : Forall (Forall (fun v : R => 0 <= v)) example_var.
Proof. repeat constructor; lra. Defined.



Lemma diag_hessian_normalized_sigmoid_formula_witness :
  diag_hessian_normalized_sigmoid example_mean [1%Z]
  = Ok (zip_with spec_hessian_row example_mean [1%Z]).
Proof.
  apply (@diag_hessian_normalized_sigmoid_formula R real_scalar 1 2
           example_mean [1%Z] example_mean_shape eq_refl).
  repeat constructor; simpl; lia.
Defined.

Lemma forward_formula_witness :
  NormedSigmoidNLLLoss.forward example_mean [1%Z]
  = Ok (NormedSigmoidNLLLossFacts.spec_nll example_mean [1%Z]).
Proof.
  apply (@NormedSigmoidNLLLossFacts.forward_formula R real_scalar 1 2
           example_mean [1%Z] example_mean_shape eq_refl).
  repeat constructor; simpl; lia.
Defined.

(** The transcendental functions play no part in the Dirichlet predictive;
    the float instance used here takes the identity for them. *)
Lemma dirichlet_predictive_nan_rows_witness :
  let FS := float_scalar (fun x => x) (fun x => x) (fun x => x) (fun x => x)
              (fun x _ => x) in
  (1 <= 3)%nat /\
  exists P : matrix float,
    @dirichlet_predictive float FS
      ([] ++ repeat infinity 3 :: [[1%float; 3%float; 4%float]])%list = Ok P /\
    nth 0 P []
    = repeat (@fdiv float FS (@lit float FS 1) (@of_count float FS 3)) 3.
Proof.
  intros FS. split; [lia|].
  apply (proj2 dirichlet_predictive_nan_rows (fun x => x) (fun x => x)
           (fun x => x) (fun x => x) (fun x _ => x) []
           [[1%float; 3%float; 4%float]] 3%nat).
  lia.
Defined.

Lemma configuration_errors_witness :
  gaussian_pushforward_mean example_mean example_var "cauchit" "normcdf" false
  = Raise (NotImplementedError "Invalid link function") /\
  raises (gaussian_pushforward_mean example_mean example_var "probit"
            "softmax" false) /\
  raises (gaussian_pushforward_second_moment example_mean example_var
            "probit" "sigmoid_product") /\
  get_predictive "probit_link_softmax_output" true 10
  = Raise (KeyError "probit_link_softmax_output") /\
  gaussian_pushforward_second_moment example_mean example_var "probit"
    "normcdf_product"
  = gaussian_pushforward_second_moment example_mean example_var "probit"
      "normcdf".
Proof.
  pose proof configuration_errors as (H1 & H2 & H3 & H4 & _ & H6).
  split.
  - apply (H1 R real_scalar example_mean example_var "cauchit" "normcdf"
             false); discriminate.
  - split.
    + apply (H2 R real_scalar example_mean example_var "probit" "softmax"
               false); reflexivity.
    + split.
      * apply (H3 R real_scalar example_mean example_var "probit").
        discriminate.
      * split.
        -- apply H4. simpl. intuition discriminate.
        -- apply (proj1 (H6 R real_scalar example_mean example_var "probit"
                           "normcdf_product" false)).
           reflexivity.
Defined.

Lemma sigmoid_product_output_alias_witness :
  dict_get PREDICTIVE_DICT "logit_link_sigmoid_product_output"
  = Ok fn_logit_link_sigmoid_output /\
  predictive_kwargs fn_logit_link_sigmoid_output = Some ("logit", "sigmoid") /\
  call_predictive fn_logit_link_sigmoid_output example_mean example_var
  = Some (probit_predictive example_mean example_var "logit" "sigmoid" false).
Proof.
  pose proof sigmoid_product_output_alias as (_ & _ & _ & H & _).
  split; [reflexivity|]. split; [reflexivity|].
  apply (proj2 (H "logit_link_sigmoid_product_output"
                  fn_logit_link_sigmoid_output eq_refl
                  ("logit", "sigmoid") eq_refl) R real_scalar).
Defined.

End ConcreteInputs.

(** * The rest of [predictive.py]

    The Beta fit by the method of moments, the Laplace bridge, the softmax
    strategies, the softmax Hessian and the activation lookups, with the
    behaviour the code shows for them and for the functions above. *)

Section PredictiveRest.

Context {T : Type} {S : Scalar T}.

(** Two tensors have one shape. *)
Definition same_shape {A B : Type} (a : matrix A) (b : matrix B) : bool :=
  Nat.eqb (List.length a) (List.length b) &&
  forallb (fun p : list A * list B =>
             Nat.eqb (List.length (fst p)) (List.length (snd p)))
    (combine a b).

(** [slot[...] = value]: the value is broadcast to the shape of the slot and
    refused when it does not fit. *)
Definition assign_slice (slot value : matrix T) : result (matrix T) :=
  r <- tensor_map2 (fun (_ v : T) => v) slot value ;;
  if same_shape r slot then Ok r
  else Raise (RuntimeError
                "shape mismatch: value tensor cannot be broadcast to indexing result").

Definition get_mom_beta_approximation (means vars : matrix T)
  (link_function output_function : string) : result (list (list (list T))) :=
  M1 <- gaussian_pushforward_mean means vars link_function output_function
          false ;;
  M2 <- gaussian_pushforward_second_moment means vars link_function
          output_function ;;
  let beta_params := tensor_map (fun _ : T => lit 1) means in
  num <- tensor_map2 fsub M1 M2 ;;
  den <- tensor_map2 fsub M2 (tensor_map pow2 M1) ;;
  L <- tensor_map2 fdiv num den ;;
  M1L <- tensor_map2 fmul M1 L ;;
  params0 <- assign_slice beta_params M1L ;;
  M1cL <- tensor_map2 fmul (tensor_map (fsub (lit 1)) M1) L ;;
  params1 <- assign_slice beta_params M1cL ;;
  Ok (zip_with (zip_with (fun a b => [a; b])) params0 params1).

(** [x.softmax(dim=-1)] of one row, [exp(x_i) / sum_j exp(x_j)]; [torch]
    evaluates it after subtracting the maximum of the row, which does not
    change the quotient. *)
Definition softmax (row : list T) : list T :=
  let e := map fexp row in
  map (fun x => fdiv x (tsum e)) e.

Definition softmax_mean_field (mean var : matrix T) (return_logits : bool)
  : result (matrix T) :=
  logits <- tensor_map2 fdiv mean
    (tensor_map (fun v => fsqrt (fadd (lit 1) (fmul LAMBDA_0 v))) var) ;;
  if return_logits then Ok logits else Ok (map softmax logits).

(** [torch.tile(c[:, None], (1, num_classes))]. *)
Definition tile_columns (c : list T) (num_classes : nat) : matrix T :=
  map (fun x => repeat x num_classes) c.

(** Laplace bridge approximation.  [2 / num_classes] on Python integers
    raises [ZeroDivisionError] for zero classes; the exception type has no
    constructor of its own for it. *)
Definition get_laplace_bridge_approximation (mean var : matrix T)
  (use_correction : bool) : result (matrix T) :=
  let num_classes := shape1 mean in
  mv <- (if use_correction then
           let c := map (fun row =>
                           fmul (tsum row)
                             (fdiv (lit 1)
                                (fsqrt (fdiv (of_count num_classes) (lit 2)))))
                      var in
           let c_expanded := tile_columns c num_classes in
           mean_p <- tensor_map2 fdiv mean (tensor_map fsqrt c_expanded) ;;
           var_p <- tensor_map2 fdiv var c_expanded ;;
           Ok (mean_p, var_p)
         else Ok (mean, var)) ;;
  let mean_p := fst mv in
  let var_p := snd mv in
  let sum_exp_neg_mean_p := map (fun row => tsum (map (fun x => fexp (fneg x)) row))
                              mean_p in
  let sum_exp_neg_mean_p_expanded :=
    tile_columns sum_exp_neg_mean_p num_classes in
  match mean, num_classes with
  | _ :: _, O => Raise (RuntimeError "ZeroDivisionError: division by zero")
  | _, _ =>
      prod <- tensor_map2 fmul (tensor_map fexp mean_p)
                sum_exp_neg_mean_p_expanded ;;
      let num :=
        tensor_map
          (fun x => fadd (fsub (lit 1) (fdiv (lit 2) (of_count num_classes)))
                      (fdiv x (of_count (num_classes * num_classes))))
          prod in
      tensor_map2 fdiv num var_p
  end.

(** Softmax + Laplace bridge predictive. *)
Definition softmax_laplace_bridge (mean var : matrix T)
  (use_correction return_logits : bool) : result (matrix T) :=
  params <- get_laplace_bridge_approximation mean var use_correction ;;
  pred <- dirichlet_predictive params ;;
  if return_logits then
    Ok (tensor_map (fun x => flog (fadd x (lit (1 # 10000000000)))) pred)
  else Ok pred.

Definition diag_hessian_softmax (logit : matrix T) (target : list Z)
  : result (matrix T) :=
  let prob := map softmax logit in
  tensor_map2 fmul prob (tensor_map (fsub (lit 1)) prob).

End PredictiveRest.

(** The activations that [get_activation] and [get_log_activation] return. *)
Inductive activation : Type :=
| act_softmax          (* partial(F.softmax, dim=-1) *)
| act_ndtr             (* torch.special.ndtr *)
| act_sigmoid.         (* F.sigmoid *)

Inductive log_activation : Type :=
| act_log_softmax      (* partial(F.log_softmax, dim=-1) *)
| act_log_ndtr         (* torch.special.log_ndtr *)
| act_logsigmoid.      (* F.logsigmoid *)

Definition get_activation (predictive : string) : result activation :=
  if startswith predictive "softmax" then Ok act_softmax
  else if startswith predictive "probit" then Ok act_ndtr
  else if startswith predictive "logit" then Ok act_sigmoid
  else Raise (ValueError "Invalid predictive provided").

Definition get_log_activation (predictive : string) : result log_activation :=
  if startswith predictive "softmax" then Ok act_log_softmax
  else if startswith predictive "probit" then Ok act_log_ndtr
  else if startswith predictive "logit" then Ok act_logsigmoid
  else Raise (ValueError "Invalid predictive provided").

(** ** Logits, shapes and the simple predictive *)

Lemma mk_self {A : Type} (m : matrix A) :
  m = mk m (fun r => r) (fun _ j => j).
Proof.
  unfold mk. rewrite <- (map_id m) at 1. apply map_ext.
  intros row. now rewrite map_id.
Qed.

Lemma has_shape_map {A B : Type} (N C : nat) (f : list A -> list B)
  (m : matrix A) :
  (forall row, List.length (f row) = List.length row) ->
  has_shape N C m -> has_shape N C (map f m).
Proof.
  intros Hf [Hn Hrows]. split.
  - now rewrite length_map.
  - apply Forall_forall. intros row Hin. apply in_map_iff in Hin.
    destruct Hin as [row0 [<- Hin]]. rewrite Hf.
    rewrite Forall_forall in Hrows. now apply Hrows.
Qed.

Lemma has_shape_zip_rows {A B C : Type} (N K : nat)
  (f : list A -> list B -> list C) (a : matrix A) (b : matrix B) :
  (forall ra rb, List.length (f ra rb) = List.length ra) ->
  has_shape N K a -> has_shape N K b -> has_shape N K (zip_with f a b).
Proof.
  intros Hf [Ha Hra] [Hb Hrb]. split.
  - rewrite zip_with_length; congruence.
  - rewrite zip_with_combine. apply Forall_forall. intros row Hin.
    apply in_map_iff in Hin. destruct Hin as [[ra rb] [<- Hin]].
    rewrite Hf. simpl. rewrite Forall_forall in Hra. apply Hra.
    eapply in_combine_l; eauto.
Qed.

Section LogitsAndShapes.

Context {T : Type} {S : Scalar T}.

(** The simple predictive of a row of pushforward means: normalize, then
    floor. *)
Definition floored_normalized_row (row : list T) : list T :=
  map (fun x => fmax (fdiv x (tsum row)) floor_1e10) row.

Lemma probit_predictive_of_mean (mean var M1 : matrix T)
  (link output : string) :
  gaussian_pushforward_mean mean var link output false = Ok M1 ->
  probit_predictive mean var link output false
  = Ok (map floored_normalized_row M1).
Proof.
  intros H. unfold probit_predictive, sum_keepdim. rewrite H. cbn [bind].
  rewrite (mk_self M1) at 1 2. autorewrite with tensor. f_equal.
  unfold mk, floored_normalized_row. apply map_ext. intros row.
  now rewrite map_id.
Qed.

(** The activation an output function selects. *)
Definition output_activation (output : string) : T -> T :=
  if py_in "normcdf" output then ndtr else sigmoid.

(** With [return_logits] the pushforward returns the pre-activation logits
    and the simple predictive passes them on without normalizing or flooring
    them; without it the pushforward mean is the activation of those
    logits. *)
Theorem return_logits_contract :
  forall (N C : nat) (mean var : matrix T) (link output : string),
    has_shape N C mean -> has_shape N C var ->
    link = "probit" \/ link = "logit" ->
    output = "normcdf" \/ output = "sigmoid" \/ output = "sigmoid_product" ->
    exists logits : matrix T,
      has_shape N C logits /\
      gaussian_pushforward_mean mean var link output true = Ok logits /\
      probit_predictive mean var link output true = Ok logits /\
      gaussian_pushforward_mean mean var link output false
      = Ok (tensor_map (output_activation output) logits).
Proof.
  intros N C mean var link output Hm Hv Hlink Hout.
  pose proof (mk_fst Hm Hv) as Em. pose proof (mk_snd Hm Hv) as Ev.
  assert (Hscale : exists scale, probit_scale link = Ok scale)
    by (destruct Hlink as [-> | ->]; eexists; reflexivity).
  destruct Hscale as [scale Hscale].
  pose proof (gaussian_pushforward_mean_mk (rows2 mean var) cols2
                (fun _ j => fst j) (fun _ j => snd j) link output true
                Hscale) as Ht.
  pose proof (gaussian_pushforward_mean_mk (rows2 mean var) cols2
                (fun _ j => fst j) (fun _ j => snd j) link output false
                Hscale) as Hf.
  rewrite <- Em, <- Ev in Ht, Hf.
  unfold probit_predictive, output_activation. rewrite Ht, Hf.
  destruct Hout as [-> | [-> | ->]].
  - change (py_in "normcdf" "normcdf") with true. cbv iota.
    eexists.
    split; [|split; [reflexivity|split; [reflexivity|]]];
      [|now rewrite tensor_map_mk].
    now apply has_shape_mk2.
  - change (py_in "normcdf" "sigmoid") with false.
    change (py_in "sigmoid" "sigmoid") with true. cbv iota.
    eexists.
    split; [|split; [reflexivity|split; [reflexivity|]]];
      [|now rewrite tensor_map_mk].
    now apply has_shape_mk2.
  - change (py_in "normcdf" "sigmoid_product") with false.
    change (py_in "sigmoid" "sigmoid_product") with true. cbv iota.
    eexists.
    split; [|split; [reflexivity|split; [reflexivity|]]];
      [|now rewrite tensor_map_mk].
    now apply has_shape_mk2.
Qed.

(** On inputs of one shape [N,C] and a configuration for which the moments
    are defined, the pushforward mean, the second moment, the Dirichlet fit
    and the simple predictive all return, and all return an [N,C] matrix. *)
Theorem pushforward_shapes :
  forall (N C : nat) (mean var : matrix T) (link output : string),
    has_shape N C mean -> has_shape N C var ->
    moment_config link output ->
    exists M1 M2 D P : matrix T,
      gaussian_pushforward_mean mean var link output false = Ok M1 /\
      gaussian_pushforward_second_moment mean var link output = Ok M2 /\
      get_mom_dirichlet_approximation mean var link output = Ok D /\
      probit_predictive mean var link output false = Ok P /\
      has_shape N C M1 /\ has_shape N C M2 /\
      has_shape N C D /\ has_shape N C P.
Proof.
  intros N C mean var link output Hm Hv Hcfg.
  destruct (moments_defined Hm Hv Hcfg) as (M1 & M2 & H1 & H2 & Hs1 & Hs2).
  exists M1, M2. eexists. eexists.
  split; [exact H1|]. split; [exact H2|].
  split; [eapply get_mom_dirichlet_approximation_moments; eassumption|].
  split; [apply probit_predictive_of_mean; exact H1|].
  split; [exact Hs1|]. split; [exact Hs2|]. split.
  - apply has_shape_zip_rows; [|exact Hs1|exact Hs2].
    intros ra rb. unfold spec_dirichlet_row. now rewrite length_map.
  - apply has_shape_map; [|exact Hs1].
    intros row. unfold floored_normalized_row. now rewrite length_map.
Qed.

End LogitsAndShapes.

(** ** The pushforward over the reals *)

Lemma mk_ext_in {I J A : Type} (L : list I) (cols : I -> list J)
  (e1 e2 : I -> J -> A) :
  (forall r, In r L -> forall j, In j (cols r) -> e1 r j = e2 r j) ->
  mk L cols e1 = mk L cols e2.
Proof.
  intros H. unfold mk. apply map_ext_in. intros r Hr.
  apply map_ext_in. intros j Hj. now apply H.
Qed.

Lemma Forall_mk {I J A : Type} (P : A -> Prop) (L : list I)
  (cols : I -> list J) (e : I -> J -> A) :
  (forall r, In r L -> forall j, In j (cols r) -> P (e r j)) ->
  Forall (Forall P) (mk L cols e).
Proof.
  intros H. unfold mk. apply Forall_forall. intros row Hrow.
  apply in_map_iff in Hrow. destruct Hrow as [r [<- Hr]].
  apply Forall_forall. intros x Hx. apply in_map_iff in Hx.
  destruct Hx as [j [<- Hj]]. now apply H.
Qed.

(** A relation between two matrices, entry by entry. *)
Definition entrywise {A B : Type} (P : A -> B -> Prop)
  (a : matrix A) (b : matrix B) : Prop :=
  Forall2 (Forall2 P) a b.

Lemma Forall2_map_same {I A B : Type} (P : A -> B -> Prop)
  (f : I -> A) (g : I -> B) (l : list I) :
  (forall i, In i l -> P (f i) (g i)) -> Forall2 P (map f l) (map g l).
Proof.
  induction l as [|i l IH]; intros H; simpl; constructor.
  - apply H. now left.
  - apply IH. intros i' Hi. apply H. now right.
Qed.

Lemma entrywise_mk {I J A B : Type} (P : A -> B -> Prop) (L : list I)
  (cols : I -> list J) (e1 : I -> J -> A) (e2 : I -> J -> B) :
  (forall r, In r L -> forall j, In j (cols r) -> P (e1 r j) (e2 r j)) ->
  entrywise P (mk L cols e1) (mk L cols e2).
Proof.
  intros H. unfold entrywise, mk. apply Forall2_map_same. intros r Hr.
  apply Forall2_map_same. intros j Hj. now apply H.
Qed.

Lemma in_cols2_snd {A B : Type} (Q : B -> Prop) (a : matrix A) (b : matrix B)
  (r : list A * list B) (j : A * B) :
  Forall (Forall Q) b -> In r (rows2 a b) -> In j (cols2 r) -> Q (snd j).
Proof.
  intros HQ Hr Hj. destruct r as [ra rb]. destruct j as [x y].
  unfold rows2 in Hr. unfold cols2 in Hj. simpl in *.
  rewrite Forall_forall in HQ.
  pose proof (HQ _ (in_combine_r _ _ _ _ Hr)) as Hrow.
  rewrite Forall_forall in Hrow. apply Hrow.
  eapply in_combine_r; eauto.
Qed.

Section RealPushforward.

Local Open Scope R_scope.

Variable ndtr_R : R -> R.
Variable owens_t_R : R -> R -> R.

Let RS : Scalar R := R_scalar ndtr_R owens_t_R.

#[local] Existing Instance RS.

Lemma sigmoid_R_bounds (x : R) : 0 < sigmoid_R x < 1.
Proof.
  unfold sigmoid_R. pose proof (exp_pos (- x)) as He.
  split.
  - apply Rdiv_lt_0_compat; lra.
  - apply Rmult_lt_reg_r with (1 + Rtrigo_def.exp (- x)); [lra|].
    unfold Rdiv. rewrite Rmult_assoc, Rinv_l by lra. lra.
Qed.

Lemma sigmoid_R_opp (x : R) : sigmoid_R (- x) = 1 - sigmoid_R x.
Proof.
  unfold sigmoid_R. rewrite Ropp_involutive.
  pose proof (exp_pos x) as H1. pose proof (exp_pos (- x)) as H2.
  assert (E : Rtrigo_def.exp x * Rtrigo_def.exp (- x) = 1)
    by (rewrite <- exp_plus, Rplus_opp_r; apply exp_0).
  apply Rmult_eq_reg_r with ((1 + Rtrigo_def.exp x) * (1 + Rtrigo_def.exp (- x)));
    [|nra].
  field_simplify; nra.
Qed.

Lemma LAMBDA_0_R : @LAMBDA_0 R RS = PI / 8.
Proof.
  unfold LAMBDA_0. change (@fdiv R RS) with Rdiv. change (@pi R RS) with PI.
  change (@lit R RS 8) with (Q2R 8). unfold Q2R. simpl. f_equal. lra.
Qed.

Lemma LAMBDA_0_pos : 0 < @LAMBDA_0 R RS.
Proof. rewrite LAMBDA_0_R. pose proof PI_RGT_0. lra. Qed.

Lemma tsum_RS (l : list R) : @tsum R RS l = Rsum l.
Proof. apply tsum_Rsum. Qed.

Lemma floor_RS : @floor_1e10 R RS = 1e-10.
Proof. apply floor_1e10_R. Qed.

Lemma sqrt_ge_1 (x : R) : 1 <= x -> 1 <= R_sqrt.sqrt x.
Proof.
  intros H. rewrite <- sqrt_1 at 1. apply sqrt_le_1_alt. exact H.
Qed.

(** The second moment of [sigmoid_product] with the [logit] link is
    [s - s*(1-s)/sqrt(1 + scale*var)] with [s] the pushforward mean; it is
    the expression of the comment in the source,
    [s*(1-s)*(1 - 1/sqrt(1 + scale*var)) + s^2], and for non-negative [var]
    it lies between [s^2] and [s]. *)
Theorem sigmoid_product_second_moment_bounds :
  forall (N C : nat) (mean var : matrix R),
    has_shape N C mean -> has_shape N C var ->
    Forall (Forall (fun v => 0 <= v)) var ->
    exists M1 M2 : matrix R,
      gaussian_pushforward_mean mean var "logit" "sigmoid_product" false
      = Ok M1 /\
      gaussian_pushforward_second_moment mean var "logit" "sigmoid_product"
      = Ok M2 /\
      M2 = zip_with
             (zip_with (fun s v => s - s * (1 - s) / R_sqrt.sqrt (1 + PI / 8 * v)))
             M1 var /\
      M2 = zip_with
             (zip_with
                (fun s v =>
                   s * (1 - s) * (1 - 1 / R_sqrt.sqrt (1 + PI / 8 * v)) + s * s))
             M1 var /\
      entrywise (fun s m2 => s * s <= m2 <= s) M1 M2.
Proof.
  intros N C mean var Hm Hv Hvar.
  pose proof (mk_fst Hm Hv) as Em. pose proof (mk_snd Hm Hv) as Ev.
  pose proof (gaussian_pushforward_mean_mk (rows2 mean var) cols2
                (fun _ j => fst j) (fun _ j => snd j) "logit"
                "sigmoid_product" false (scale := LAMBDA_0) eq_refl) as H1.
  pose proof (gaussian_pushforward_second_moment_product_mk
                (rows2 mean var) cols2
                (fun _ j => fst j) (fun _ j => snd j)) as H2.
  change (py_in "normcdf" "sigmoid_product") with false in H1.
  change (py_in "sigmoid" "sigmoid_product") with true in H1.
  cbv iota in H1. rewrite <- Em, <- Ev in H1, H2.
  eexists. eexists. split; [exact H1|]. split; [exact H2|].
  assert (Hr : forall r, In r (rows2 mean var) -> forall j, In j (cols2 r) ->
               1 <= R_sqrt.sqrt (1 + PI / 8 * snd j)).
  { intros r Hr j Hj. apply sqrt_ge_1.
    pose proof (in_cols2_snd _ _ _ Hvar Hr Hj) as Hj0. simpl in Hj0.
    pose proof PI_RGT_0.
    assert (0 <= PI / 8 * snd j) by (apply Rmult_le_pos; lra). lra. }
  split; [|split].
  - rewrite Ev at 3. rewrite zip_with_mk. apply mk_ext_in. intros r Hr0 j Hj.
    cbv zeta beta. unfold spec_sigmoid_logit.
    change (@fsub R RS) with Rminus. change (@fdiv R RS) with Rdiv.
    change (@fmul R RS) with Rmult. change (@fadd R RS) with Rplus.
    change (@fsqrt R RS) with R_sqrt.sqrt.
    change (@sigmoid R RS) with sigmoid_R.
    change (@lit R RS 1) with (Q2R 1). rewrite Q2R_1, LAMBDA_0_R.
    reflexivity.
  - rewrite Ev at 3. rewrite zip_with_mk. apply mk_ext_in. intros r Hr0 j Hj.
    cbv zeta beta. unfold spec_sigmoid_logit.
    change (@fsub R RS) with Rminus. change (@fdiv R RS) with Rdiv.
    change (@fmul R RS) with Rmult. change (@fadd R RS) with Rplus.
    change (@fsqrt R RS) with R_sqrt.sqrt.
    change (@sigmoid R RS) with sigmoid_R.
    change (@lit R RS 1) with (Q2R 1). rewrite Q2R_1, LAMBDA_0_R.
    specialize (Hr r Hr0 j Hj).
    set (s := sigmoid_R _). set (q := R_sqrt.sqrt _) in *.
    field. lra.
  - apply entrywise_mk. intros r Hr0 j Hj. cbv zeta beta.
    unfold spec_sigmoid_logit.
    change (@fsub R RS) with Rminus. change (@fdiv R RS) with Rdiv.
    change (@fmul R RS) with Rmult. change (@fadd R RS) with Rplus.
    change (@fsqrt R RS) with R_sqrt.sqrt.
    change (@sigmoid R RS) with sigmoid_R.
    change (@lit R RS 1) with (Q2R 1). rewrite Q2R_1, LAMBDA_0_R.
    specialize (Hr r Hr0 j Hj).
    set (q := R_sqrt.sqrt _) in *.
    pose proof (sigmoid_R_bounds (fst j / q)) as [Hs0 Hs1].
    set (s := sigmoid_R _) in *.
    assert (Ht : 0 < / q <= 1).
    { split; [apply Rinv_0_lt_compat; lra|].
      rewrite <- Rinv_1. apply Rinv_le_contravar; lra. }
    unfold Rdiv. set (t := / q) in *.
    assert (Ha : 0 <= s * (1 - s)) by nra.
    assert (Hat : 0 <= s * (1 - s) * t <= s * (1 - s)) by nra.
    split; nra.
Qed.

Ltac real_instance_ops :=
  change (@fsub R RS) with Rminus; change (@fdiv R RS) with Rdiv;
  change (@fmul R RS) with Rmult; change (@fadd R RS) with Rplus;
  change (@fsqrt R RS) with R_sqrt.sqrt; change (@fmax R RS) with Rmax;
  change (@sigmoid R RS) with sigmoid_R; change (@ndtr R RS) with ndtr_R;
  change (@lit R RS) with Q2R.

(** The link function enters the sigmoid outputs only through the scale of
    the variance: the [logit] link on [var] is the [probit] link on
    [(pi/8) * var]. *)
Theorem link_scale_symmetry :
  forall (N C : nat) (mean var : matrix R) (output : string)
         (return_logits : bool),
    has_shape N C mean -> has_shape N C var ->
    output = "sigmoid" \/ output = "sigmoid_product" ->
    gaussian_pushforward_mean mean var "logit" output return_logits
    = gaussian_pushforward_mean mean (tensor_map (Rmult (PI / 8)) var)
        "probit" output return_logits.
Proof.
  intros N C mean var output rl Hm Hv Hout.
  pose proof (mk_fst Hm Hv) as Em. pose proof (mk_snd Hm Hv) as Ev.
  pose proof (gaussian_pushforward_mean_mk (rows2 mean var) cols2
                (fun _ j => fst j) (fun _ j => snd j) "logit" output rl
                (scale := LAMBDA_0) eq_refl) as H1.
  pose proof (gaussian_pushforward_mean_mk (rows2 mean var) cols2
                (fun _ j => fst j) (fun _ j => PI / 8 * snd j) "probit" output
                rl (scale := lit 1) eq_refl) as H2.
  rewrite <- (tensor_map_mk (rows2 mean var) cols2 (Rmult (PI / 8))
                (fun _ j => snd j)) in H2.
  rewrite <- Em, <- Ev in H1, H2. rewrite H1, H2.
  assert (Hn : py_in "normcdf" output = false)
    by (destruct Hout as [-> | ->]; reflexivity).
  assert (Hs : py_in "sigmoid" output = true)
    by (destruct Hout as [-> | ->]; reflexivity).
  rewrite Hn, Hs. f_equal. apply mk_ext_in. intros r _ j _. cbv zeta.
  unfold spec_sigmoid_logit. real_instance_ops.
  rewrite Q2R_1, LAMBDA_0_R, Rmult_1_l. reflexivity.
Qed.

(** At zero variance the pushforward is the activation of the mean: the
    sigmoid of the mean for either link function, the normal distribution
    function of the mean for [probit] with [normcdf]; and the second moment
    of [sigmoid_product] is the square of the mean, so the variance
    [M2 - M1^2] that the moment fits divide by is zero. *)
Theorem zero_variance_collapse :
  forall (N C : nat) (mean var : matrix R),
    has_shape N C mean -> has_shape N C var ->
    Forall (Forall (fun v => v = 0)) var ->
    (forall link output,
        link = "probit" \/ link = "logit" ->
        output = "sigmoid" \/ output = "sigmoid_product" ->
        gaussian_pushforward_mean mean var link output false
        = Ok (tensor_map sigmoid_R mean)) /\
    gaussian_pushforward_mean mean var "probit" "normcdf" false
    = Ok (tensor_map ndtr_R mean) /\
    gaussian_pushforward_second_moment mean var "logit" "sigmoid_product"
    = Ok (tensor_map (fun m => sigmoid_R m * sigmoid_R m) mean).
Proof.
  intros N C mean var Hm Hv Hzero.
  pose proof (mk_fst Hm Hv) as Em. pose proof (mk_snd Hm Hv) as Ev.
  assert (Hz : forall r, In r (rows2 mean var) -> forall j, In j (cols2 r) ->
               snd j = 0).
  { intros r Hr j Hj. exact (in_cols2_snd _ _ _ Hzero Hr Hj). }
  assert (Hdiv : forall scale m, m / R_sqrt.sqrt (1 + scale * 0) = m).
  { intros scale m. rewrite Rmult_0_r, Rplus_0_r, sqrt_1. field. }
  split; [|split].
  - intros link output Hlink Hout.
    assert (Hscale : exists scale, probit_scale link = Ok scale)
      by (destruct Hlink as [-> | ->]; eexists; reflexivity).
    destruct Hscale as [scale Hscale].
    pose proof (gaussian_pushforward_mean_mk (rows2 mean var) cols2
                  (fun _ j => fst j) (fun _ j => snd j) link output false
                  Hscale) as H1.
    rewrite <- Em, <- Ev in H1. rewrite H1.
    assert (Hn : py_in "normcdf" output = false)
      by (destruct Hout as [-> | ->]; reflexivity).
    assert (Hs : py_in "sigmoid" output = true)
      by (destruct Hout as [-> | ->]; reflexivity).
    rewrite Hn, Hs. f_equal. rewrite Em at 2. rewrite tensor_map_mk.
    apply mk_ext_in. intros r Hr j Hj. cbv zeta.
    unfold spec_sigmoid_logit. real_instance_ops.
    rewrite (Hz r Hr j Hj), Q2R_1, Hdiv. reflexivity.
  - pose proof (gaussian_pushforward_mean_mk (rows2 mean var) cols2
                  (fun _ j => fst j) (fun _ j => snd j) "probit" "normcdf"
                  false (scale := lit 1) eq_refl) as H1.
    rewrite <- Em, <- Ev in H1. rewrite H1.
    change (py_in "normcdf" "normcdf") with true. cbv iota.
    f_equal. rewrite Em at 2. rewrite tensor_map_mk.
    apply mk_ext_in. intros r Hr j Hj. cbv zeta.
    unfold spec_normcdf_logit. real_instance_ops.
    rewrite (Hz r Hr j Hj), Q2R_1.
    replace (1 / 1 + 0) with (1 + 1 * 0) by lra. rewrite Hdiv. reflexivity.
  - pose proof (gaussian_pushforward_second_moment_product_mk
                  (rows2 mean var) cols2
                  (fun _ j => fst j) (fun _ j => snd j)) as H2.
    rewrite <- Em, <- Ev in H2. rewrite H2.
    f_equal. rewrite Em at 2. rewrite tensor_map_mk.
    apply mk_ext_in. intros r Hr j Hj. cbv zeta.
    unfold spec_sigmoid_logit. real_instance_ops.
    rewrite (Hz r Hr j Hj), Q2R_1, Hdiv.
    rewrite Rmult_0_r, Rplus_0_r, sqrt_1. field.
Qed.

(** Negating the mean complements the pushforward mean, for every link and
    output function, when the normal distribution function is symmetric. *)
Theorem pushforward_mean_antisymmetry :
  forall (N C : nat) (mean var : matrix R) (link output : string),
    (forall x, ndtr_R (- x) = 1 - ndtr_R x) ->
    has_shape N C mean -> has_shape N C var ->
    link = "probit" \/ link = "logit" ->
    output = "normcdf" \/ output = "sigmoid" \/ output = "sigmoid_product" ->
    exists M1 : matrix R,
      gaussian_pushforward_mean mean var link output false = Ok M1 /\
      gaussian_pushforward_mean (tensor_map Ropp mean) var link output false
      = Ok (tensor_map (fun m => 1 - m) M1).
Proof.
  intros N C mean var link output Hsym Hm Hv Hlink Hout.
  pose proof (mk_fst Hm Hv) as Em. pose proof (mk_snd Hm Hv) as Ev.
  assert (Hscale : exists scale, probit_scale link = Ok scale)
    by (destruct Hlink as [-> | ->]; eexists; reflexivity).
  destruct Hscale as [scale Hscale].
  pose proof (gaussian_pushforward_mean_mk (rows2 mean var) cols2
                (fun _ j => fst j) (fun _ j => snd j) link output false
                Hscale) as H1.
  pose proof (gaussian_pushforward_mean_mk (rows2 mean var) cols2
                (fun _ j => - fst j) (fun _ j => snd j) link output false
                Hscale) as H2.
  rewrite <- (tensor_map_mk (rows2 mean var) cols2 Ropp (fun _ j => fst j))
    in H2.
  rewrite <- Em, <- Ev in H1, H2. rewrite H1, H2.
  assert (Hneg : forall a b, - a / b = - (a / b))
    by (intros; unfold Rdiv; ring).
  destruct Hout as [-> | [-> | ->]].
  - change (py_in "normcdf" "normcdf") with true. cbv iota.
    eexists. split; [reflexivity|]. rewrite tensor_map_mk. f_equal.
    apply mk_ext_in. intros r _ j _. cbv zeta.
    unfold spec_normcdf_logit. real_instance_ops.
    now rewrite Hneg, Hsym.
  - change (py_in "normcdf" "sigmoid") with false.
    change (py_in "sigmoid" "sigmoid") with true. cbv iota.
    eexists. split; [reflexivity|]. rewrite tensor_map_mk. f_equal.
    apply mk_ext_in. intros r _ j _. cbv zeta.
    unfold spec_sigmoid_logit. real_instance_ops.
    now rewrite Hneg, sigmoid_R_opp.
  - change (py_in "normcdf" "sigmoid_product") with false.
    change (py_in "sigmoid" "sigmoid_product") with true. cbv iota.
    eexists. split; [reflexivity|]. rewrite tensor_map_mk. f_equal.
    apply mk_ext_in. intros r _ j _. cbv zeta.
    unfold spec_sigmoid_logit. real_instance_ops.
    now rewrite Hneg, sigmoid_R_opp.
Qed.

(** With a sigmoid output and non-negative variances the pushforward mean
    is a probability strictly between 0 and 1, whatever the mean. *)
Theorem sigmoid_pushforward_range :
  forall (N C : nat) (mean var : matrix R) (link output : string),
    has_shape N C mean -> has_shape N C var ->
    Forall (Forall (fun v => 0 <= v)) var ->
    link = "probit" \/ link = "logit" ->
    output = "sigmoid" \/ output = "sigmoid_product" ->
    exists M1 : matrix R,
      gaussian_pushforward_mean mean var link output false = Ok M1 /\
      Forall (Forall (fun m => 0 < m < 1)) M1.
Proof.
  intros N C mean var link output Hm Hv _ Hlink Hout.
  pose proof (mk_fst Hm Hv) as Em. pose proof (mk_snd Hm Hv) as Ev.
  assert (Hscale : exists scale, probit_scale link = Ok scale)
    by (destruct Hlink as [-> | ->]; eexists; reflexivity).
  destruct Hscale as [scale Hscale].
  pose proof (gaussian_pushforward_mean_mk (rows2 mean var) cols2
                (fun _ j => fst j) (fun _ j => snd j) link output false
                Hscale) as H1.
  rewrite <- Em, <- Ev in H1. rewrite H1.
  assert (Hn : py_in "normcdf" output = false)
    by (destruct Hout as [-> | ->]; reflexivity).
  assert (Hs : py_in "sigmoid" output = true)
    by (destruct Hout as [-> | ->]; reflexivity).
  rewrite Hn, Hs. eexists. split; [reflexivity|].
  apply Forall_mk. intros r _ j _. cbv zeta. apply sigmoid_R_bounds.
Qed.

Lemma Rsum_ge_member (l : list R) (x : R) :
  Forall (fun y => 0 < y) l -> In x l -> x <= Rsum l.
Proof.
  intros Hpos. induction Hpos as [|y l Hy Hl IH]; intros Hin; [destruct Hin|].
  simpl. destruct Hin as [-> | Hin].
  - destruct l as [|z l]; [simpl; lra|].
    assert (0 < Rsum (z :: l)) by (apply Rsum_pos; [discriminate|exact Hl]).
    lra.
  - specialize (IH Hin). lra.
Qed.

(** The simple predictive never returns a probability below the floor
    [1e-10] nor above 1, and never one below the normalized pushforward
    mean, when the pushforward means are positive. *)
Theorem probit_predictive_entries :
  forall (mean var M1 : matrix R) (link output : string),
    gaussian_pushforward_mean mean var link output false = Ok M1 ->
    Forall (Forall (fun m => 0 < m)) M1 ->
    exists P : matrix R,
      probit_predictive mean var link output false = Ok P /\
      Forall (Forall (fun p => 1e-10 <= p <= 1)) P /\
      Forall2 (fun row prow =>
                 Forall2 (fun m p => m / Rsum row <= p) row prow) M1 P.
Proof.
  intros mean var M1 link output H1 Hpos.
  rewrite (probit_predictive_of_mean _ _ _ _ H1).
  eexists. split; [reflexivity|].
  assert (Hentry : forall row, In row M1 -> forall x, In x row ->
                   1e-10 <= Rmax (x / Rsum row) 1e-10 <= 1 /\
                   x / Rsum row <= Rmax (x / Rsum row) 1e-10).
  { intros row Hrow x Hx. rewrite Forall_forall in Hpos.
    specialize (Hpos _ Hrow).
    pose proof (@Rsum_ge_member row x Hpos Hx) as Hle.
    assert (Hrow_ne : row <> []) by (intros ->; destruct Hx).
    pose proof (Rsum_pos Hrow_ne Hpos) as Hs.
    assert (Hq : x / Rsum row <= 1).
    { apply Rmult_le_reg_r with (Rsum row); [lra|].
      unfold Rdiv. rewrite Rmult_assoc, Rinv_l by lra. lra. }
    split; [split|].
    - apply Rmax_r.
    - apply Rmax_lub; lra.
    - apply Rmax_l. }
  split.
  - apply Forall_forall. intros prow Hprow. apply in_map_iff in Hprow.
    destruct Hprow as [row [<- Hrow]]. unfold floored_normalized_row.
    apply Forall_forall. intros p Hp. apply in_map_iff in Hp.
    destruct Hp as [x [<- Hx]].
    rewrite floor_RS, tsum_RS. real_instance_ops.
    now apply Hentry.
  - rewrite <- (map_id M1) at 1. apply Forall2_map_same. intros row Hrow.
    unfold floored_normalized_row.
    rewrite <- (map_id row) at 1. apply Forall2_map_same. intros x Hx.
    rewrite floor_RS, tsum_RS. real_instance_ops.
    now apply Hentry.
Qed.

End RealPushforward.

(** ** The moment-matched fits and their predictives *)

Lemma Forall2_map_same_inv {I A B : Type} (P : A -> B -> Prop)
  (f : I -> A) (g : I -> B) (l : list I) :
  Forall2 P (map f l) (map g l) -> forall i, In i l -> P (f i) (g i).
Proof.
  induction l as [|i l IH]; intros H i' Hin; [destruct Hin|].
  simpl in H. inversion H; subst. destruct Hin as [<- | Hin]; auto.
Qed.

Lemma entrywise_mk_inv {I J A B : Type} (P : A -> B -> Prop) (L : list I)
  (cols : I -> list J) (e1 : I -> J -> A) (e2 : I -> J -> B) :
  entrywise P (mk L cols e1) (mk L cols e2) ->
  forall r, In r L -> forall j, In j (cols r) -> P (e1 r j) (e2 r j).
Proof.
  intros H r Hr j Hj. unfold entrywise, mk in H.
  pose proof (Forall2_map_same_inv _ _ _ H r Hr) as Hrow.
  exact (Forall2_map_same_inv _ _ _ Hrow j Hj).
Qed.

Lemma Forall_mk_inv {I J A : Type} (P : A -> Prop) (L : list I)
  (cols : I -> list J) (e : I -> J -> A) :
  Forall (Forall P) (mk L cols e) ->
  forall r, In r L -> forall j, In j (cols r) -> P (e r j).
Proof.
  intros H r Hr j Hj. unfold mk in H. rewrite Forall_forall in H.
  specialize (H (map (e r) (cols r))).
  rewrite Forall_forall in H. apply H.
  - apply in_map_iff. exists r. auto.
  - apply in_map_iff. exists j. auto.
Qed.

Lemma same_shape_mk {I J A B : Type} (L : list I) (cols : I -> list J)
  (e1 : I -> J -> A) (e2 : I -> J -> B) :
  same_shape (mk L cols e1) (mk L cols e2) = true.
Proof.
  unfold same_shape, mk. rewrite !length_map, Nat.eqb_refl. simpl.
  apply forallb_forall. intros [ra rb] Hin.
  induction L as [|r L IH]; simpl in Hin; [destruct Hin|].
  destruct Hin as [Heq | Hin]; [|now apply IH].
  injection Heq as <- <-. simpl. now rewrite !length_map, Nat.eqb_refl.
Qed.

Section MomentFits.

Context {T : Type} {S : Scalar T}.

Lemma assign_slice_mk {I J : Type} (L : list I) (cols : I -> list J)
  (e0 e : I -> J -> T) :
  assign_slice (mk L cols e0) (mk L cols e) = Ok (mk L cols e).
Proof.
  unfold assign_slice. rewrite tensor_map2_mk. cbn [bind].
  now rewrite same_shape_mk.
Qed.

(** Both moments of inputs of one shape, as functions of the entries. *)
Lemma moments_mk (N C : nat) (mean var : matrix T) (link output : string) :
  has_shape N C mean -> has_shape N C var ->
  moment_config link output ->
  exists m1 m2 : list T * list T -> T * T -> T,
    gaussian_pushforward_mean mean var link output false
    = Ok (mk (rows2 mean var) cols2 m1) /\
    gaussian_pushforward_second_moment mean var link output
    = Ok (mk (rows2 mean var) cols2 m2).
Proof.
  intros Hm Hv Hcfg.
  pose proof (mk_fst Hm Hv) as Em. pose proof (mk_snd Hm Hv) as Ev.
  assert (Hscale : exists scale, probit_scale link = Ok scale).
  { destruct Hcfg as [[[-> | ->] _] | [-> _]]; eexists; reflexivity. }
  destruct Hscale as [scale Hscale].
  pose proof (gaussian_pushforward_mean_mk (rows2 mean var) cols2
                (fun _ j => fst j) (fun _ j => snd j) link output false
                Hscale) as H1.
  rewrite <- Em, <- Ev in H1.
  destruct Hcfg as [[_ Hout] | [-> ->]].
  - assert (Hne : (output =? "sigmoid_product") = false)
      by (destruct Hout as [-> | ->]; reflexivity).
    pose proof (gaussian_pushforward_second_moment_mk (rows2 mean var) cols2
                  (fun _ j => fst j) (fun _ j => snd j) link output
                  Hscale Hne) as H2.
    rewrite <- Em, <- Ev in H2. rewrite H2, H1.
    destruct Hout as [-> | ->].
    + change (py_in "normcdf" "normcdf") with true. cbv iota.
      eexists. eexists. split; [reflexivity|].
      cbn [bind]. autorewrite with tensor. reflexivity.
    + change (py_in "normcdf" "sigmoid") with false.
      change (py_in "sigmoid" "sigmoid") with true. cbv iota.
      eexists. eexists. split; [reflexivity|].
      cbn [bind]. autorewrite with tensor. reflexivity.
  - pose proof (gaussian_pushforward_second_moment_product_mk
                  (rows2 mean var) cols2
                  (fun _ j => fst j) (fun _ j => snd j)) as H2.
    rewrite <- Em, <- Ev in H2. rewrite H2, H1.
    change (py_in "normcdf" "sigmoid_product") with false.
    change (py_in "sigmoid" "sigmoid_product") with true. cbv iota.
    eexists. eexists. split; reflexivity.
Qed.

(** The two Beta parameters of one class, from its two moments. *)
Definition beta_cell_of_moments (m1 m2 : T) : list T :=
  let L := fdiv (fsub m1 m2) (fsub m2 (pow2 m1)) in
  [fmul m1 L; fmul (fsub (lit 1) m1) L].

Lemma get_mom_beta_approximation_mk (N C : nat) (mean var : matrix T)
  (link output : string) (m1 m2 : list T * list T -> T * T -> T) :
  has_shape N C mean -> has_shape N C var ->
  gaussian_pushforward_mean mean var link output false
  = Ok (mk (rows2 mean var) cols2 m1) ->
  gaussian_pushforward_second_moment mean var link output
  = Ok (mk (rows2 mean var) cols2 m2) ->
  get_mom_beta_approximation mean var link output
  = Ok (mk (rows2 mean var) cols2
          (fun r j => beta_cell_of_moments (m1 r j) (m2 r j))).
Proof.
  intros Hm Hv H1 H2. unfold get_mom_beta_approximation.
  rewrite H1, H2. cbn [bind].
  pose proof (mk_fst Hm Hv) as Em.
  set (L := rows2 mean var) in *. rewrite Em.
  autorewrite with tensor. rewrite assign_slice_mk. cbn [bind].
  autorewrite with tensor. rewrite assign_slice_mk. cbn [bind].
  rewrite zip_with_mk. reflexivity.
Qed.

End MomentFits.

Section RealFits.

Local Open Scope R_scope.

Variable ndtr_R : R -> R.
Variable owens_t_R : R -> R -> R.

Let RS : Scalar R := R_scalar ndtr_R owens_t_R.

#[local] Existing Instance RS.

Ltac real_fit_ops :=
  change (@fsub R RS) with Rminus; change (@fdiv R RS) with Rdiv;
  change (@fmul R RS) with Rmult; change (@fadd R RS) with Rplus;
  change (@fmax R RS) with Rmax; change (@fexp R RS) with Rtrigo_def.exp;
  change (@lit R RS) with Q2R.

Lemma tsum_fit (l : list R) : @tsum R RS l = Rsum l.
Proof. apply tsum_Rsum. Qed.

Lemma Rsum_scale (c s : R) (l : list R) :
  Rsum (map (fun a => c * a / s) l) = c * Rsum l / s.
Proof.
  induction l as [|x l IH]; simpl.
  - unfold Rdiv. ring.
  - rewrite IH. unfold Rdiv. ring.
Qed.

Lemma normalize_row_R (row : list R) :
  @normalize_row R RS row = map (fun x => x / Rsum row) row.
Proof. unfold normalize_row. now rewrite tsum_fit. Qed.

Lemma normalize_dirichlet_row (m1 m2 : list R) :
  m1 <> [] -> Forall (fun m => 0 < m) m1 ->
  @normalize_row R RS (@spec_dirichlet_row R RS m1 m2)
  = @normalize_row R RS m1.
Proof.
  intros Hne Hpos. pose proof (Rsum_pos Hne Hpos) as Hs.
  unfold spec_dirichlet_row. cbv zeta. rewrite !normalize_row_R.
  real_fit_ops. rewrite !tsum_fit.
  set (P := Rtrigo_def.exp _). set (S1 := Rmax (Rsum m1) (Q2R 1)).
  assert (HP : 0 < P) by apply exp_pos.
  assert (HS : 0 < S1).
  { unfold S1. rewrite Q2R_1.
    apply Rlt_le_trans with 1; [lra | apply Rmax_r]. }
  rewrite map_map, Rsum_scale. apply map_ext. intros a. field. lra.
Qed.

(** The moments for which the Dirichlet fit is defined: in every row, with
    [S = max(sum(M1), 1)], the variance [M2 - M1^2] is not zero and the
    quotient [(M1*S - M2) / (M2 - M1^2)], whose logarithm the fit takes, is
    positive. *)
Definition dirichlet_fit_defined (M1 M2 : matrix R) : Prop :=
  Forall2
    (fun row1 row2 =>
       Forall2
         (fun m1 m2 =>
            m2 - m1 * m1 <> 0 /\
            0 < (m1 * Rmax (Rsum row1) 1 - m2) / (m2 - m1 * m1))
         row1 row2)
    M1 M2.

(** Where the pushforward means are positive and the moments are not
    degenerate, the moment-matched Dirichlet parameters are positive, their
    Dirichlet predictive is the row-normalized pushforward mean, and the
    simple predictive is that same matrix floored at [1e-10]: the fit does
    not move the predictive mean. *)
Theorem moment_matched_dirichlet_predictive :
  forall (N C : nat) (mean var M1 M2 : matrix R) (link output : string),
    (1 <= C)%nat ->
    has_shape N C mean -> has_shape N C var ->
    moment_config link output ->
    gaussian_pushforward_mean mean var link output false = Ok M1 ->
    gaussian_pushforward_second_moment mean var link output = Ok M2 ->
    Forall (Forall (fun m => 0 < m)) M1 ->
    dirichlet_fit_defined M1 M2 ->
    exists D : matrix R,
      get_mom_dirichlet_approximation mean var link output = Ok D /\
      Forall (Forall (fun a => 0 < a)) D /\
      dirichlet_predictive D = Ok (map normalize_row M1) /\
      probit_predictive mean var link output false
      = Ok (map (map (fun p => Rmax p 1e-10)) (map normalize_row M1)).
Proof.
  intros N C mean var M1 M2 link output HC Hm Hv Hcfg H1 H2 Hpos _.
  destruct (moments_defined Hm Hv Hcfg) as (M1' & M2' & H1' & H2' & Hs1 & Hs2).
  rewrite H1 in H1'. injection H1' as <-.
  rewrite H2 in H2'. injection H2' as <-.
  eexists. split.
  { eapply get_mom_dirichlet_approximation_moments; eassumption. }
  split.
  { rewrite zip_with_combine. apply Forall_forall. intros drow Hin.
    apply in_map_iff in Hin. destruct Hin as [[m1 m2] [<- Hin]].
    cbn [fst snd]. unfold spec_dirichlet_row. cbv zeta.
    rewrite Forall_forall in Hpos.
    pose proof (Hpos _ (in_combine_l _ _ _ _ Hin)) as Hrow.
    apply Forall_forall. intros a Ha. apply in_map_iff in Ha.
    destruct Ha as [x [<- Hx]]. rewrite Forall_forall in Hrow.
    real_fit_ops. rewrite Q2R_1.
    apply Rdiv_lt_0_compat.
    - apply Rmult_lt_0_compat; [apply exp_pos | now apply Hrow].
    - apply Rlt_le_trans with 1; [lra | apply Rmax_r]. }
  split.
  - rewrite dirichlet_predictive_rows. f_equal.
    rewrite zip_with_combine, map_map.
    destruct Hs1 as [Hn1 Hr1]. destruct Hs2 as [Hn2 Hr2].
    rewrite <- (map_fst_combine M1 M2) at 2 by congruence.
    rewrite map_map. apply map_ext_in. intros [m1 m2] Hin. simpl.
    change (@spec_nan_fix_row R RS) with
      (@spec_nan_fix_row R (R_scalar ndtr_R owens_t_R)).
    rewrite spec_nan_fix_row_R.
    pose proof (in_combine_l _ _ _ _ Hin) as Hin1.
    rewrite Forall_forall in Hr1, Hpos.
    apply normalize_dirichlet_row.
    + apply (@nonempty_of_length _ C); [exact HC | now apply Hr1].
    + now apply Hpos.
  - rewrite (probit_predictive_of_mean _ _ _ _ H1). f_equal.
    rewrite map_map. apply map_ext. intros row.
    unfold floored_normalized_row, normalize_row. rewrite map_map.
    apply map_ext. intros x. real_fit_ops.
    change (@floor_1e10 R RS) with
      (@floor_1e10 R (R_scalar ndtr_R owens_t_R)).
    now rewrite floor_1e10_R.
Qed.

(** The Beta parameters of the fit are [M1*L] and [(1-M1)*L] with
    [L = (M1 - M2) / (M2 - M1^2)], and where the moments are not degenerate
    ([M1 <> M2] and [M2 <> M1^2]) the Beta predictive of these parameters is
    the row-normalized pushforward mean. *)
Theorem moment_matched_beta_predictive :
  forall (N C : nat) (mean var M1 M2 : matrix R) (link output : string),
    has_shape N C mean -> has_shape N C var ->
    moment_config link output ->
    gaussian_pushforward_mean mean var link output false = Ok M1 ->
    gaussian_pushforward_second_moment mean var link output = Ok M2 ->
    entrywise (fun m1 m2 => m1 <> m2 /\ m2 <> m1 * m1) M1 M2 ->
    exists B : list (list (list R)),
      get_mom_beta_approximation mean var link output = Ok B /\
      B = zip_with (zip_with beta_cell_of_moments) M1 M2 /\
      beta_predictive B = Ok (map normalize_row M1).
Proof.
  intros N C mean var M1 M2 link output Hm Hv Hcfg H1 H2 Hnd.
  destruct (moments_mk Hm Hv Hcfg) as (m1 & m2 & H1' & H2').
  pose proof (@get_mom_beta_approximation_mk R RS N C mean var link output
                m1 m2 Hm Hv H1' H2') as HB.
  rewrite H1 in H1'. injection H1' as ->.
  rewrite H2 in H2'. injection H2' as ->.
  pose proof (@entrywise_mk_inv _ _ _ _ _ _ _ _ _ Hnd) as Hnd'. clear Hnd.
  set (L := rows2 mean var) in *.
  eexists. split; [exact HB|]. split; [now rewrite zip_with_mk|].
  rewrite (@beta_predictive_cells R RS 0).
  2:{ apply Forall_mk. intros r _ j _. discriminate. }
  f_equal. unfold mk. rewrite !map_map. apply map_ext_in. intros r Hr.
  f_equal. rewrite map_map. apply map_ext_in. intros j Hj.
  destruct (Hnd' r Hr j Hj) as [Hne1 Hne2].
  unfold beta_cell_of_moments, pow2. cbv zeta. cbn [hd].
  rewrite tsum_fit. real_fit_ops. rewrite Q2R_1. unfold Rsum.
  cbn [fold_right].
  set (a := m1 r j) in *. set (b := m2 r j) in *.
  assert (Hd : b - a * a <> 0) by lra.
  assert (Hn : a - b <> 0) by lra.
  field. split; [exact Hd|].
  replace (a * (a - b) + (1 - a) * (a - b)) with (a - b) by ring. exact Hn.
Qed.

Lemma normalize_row_sum_R (row : list R) :
  row <> [] -> Forall (fun x => 0 < x) row ->
  Rsum (@normalize_row R RS row) = 1.
Proof.
  intros Hne Hpos. rewrite normalize_row_R.
  apply Rsum_normalized. pose proof (Rsum_pos Hne Hpos). lra.
Qed.

(** On positive parameters the Dirichlet predictive depends on the
    proportions only: scaling all parameters by a positive factor does not
    change it, and applying it to its own result returns that result. *)
Theorem dirichlet_predictive_projective :
  forall (params : matrix R) (c : R),
    0 < c ->
    Forall (Forall (fun a => 0 < a)) params ->
    exists P : matrix R,
      dirichlet_predictive params = Ok P /\
      dirichlet_predictive (tensor_map (Rmult c) params) = Ok P /\
      dirichlet_predictive P = Ok P.
Proof.
  intros params c Hc Hpos.
  exists (map normalize_row params).
  assert (Hfix : forall p : list R, @spec_nan_fix_row R RS p = p).
  { intros p. apply (spec_nan_fix_row_R ndtr_R owens_t_R). }
  rewrite !dirichlet_predictive_rows.
  assert (Hrow : forall row, In row params ->
                 row = [] \/ (row <> [] /\ 0 < Rsum row)).
  { intros row Hin. destruct row as [|x row]; [now left|right].
    split; [discriminate|]. apply Rsum_pos; [discriminate|].
    rewrite Forall_forall in Hpos. now apply Hpos. }
  split; [|split].
  - apply f_equal. apply map_ext. intros row. apply Hfix.
  - apply f_equal. unfold tensor_map. rewrite map_map. apply map_ext_in.
    intros row Hin. rewrite Hfix, !normalize_row_R, map_map.
    destruct (Hrow _ Hin) as [-> | [_ Hs]]; [reflexivity|].
    replace (Rsum (map (Rmult c) row)) with (c * Rsum row).
    + apply map_ext. intros x. field. lra.
    + clear. induction row as [|x row IH]; simpl; [ring | rewrite <- IH; ring].
  - apply f_equal. rewrite map_map. apply map_ext_in. intros row Hin.
    rewrite Hfix. destruct (Hrow _ Hin) as [-> | [Hne Hs]]; [reflexivity|].
    rewrite (normalize_row_R (normalize_row row)).
    rewrite normalize_row_sum_R; [|exact Hne|].
    + rewrite <- (map_id (normalize_row row)) at 2.
      apply map_ext. intros x. field.
    + rewrite Forall_forall in Hpos. now apply Hpos.
Qed.

End RealFits.

(** ** The Laplace bridge and the softmax strategies *)

Lemma repeat_map_const {A B : Type} (x : A) (l : list B) :
  repeat x (List.length l) = map (fun _ => x) l.
Proof. induction l as [|y l IH]; simpl; [reflexivity | now rewrite IH]. Qed.

Lemma map_mk {I J A B : Type} (g : list A -> B) (L : list I)
  (cols : I -> list J) (e : I -> J -> A) :
  map g (mk L cols e) = map (fun r => g (map (e r) (cols r))) L.
Proof. unfold mk. now rewrite map_map. Qed.

Lemma bridge_guard {A B : Type} (m : list A) (C : nat) (X Y : B) :
  (1 <= C)%nat ->
  match m, C with
  | _ :: _, O => X
  | _, _ => Y
  end = Y.
Proof. intros HC. destruct m, C; try reflexivity; lia. Qed.

Section LaplaceBridge.

Context {T : Type} {S : Scalar T}.

Lemma tile_columns_mk {I J : Type} (L : list I) (cols : I -> list J)
  (g : I -> T) (C : nat) :
  (forall r, In r L -> List.length (cols r) = C) ->
  tile_columns (map g L) C = mk L cols (fun r _ => g r).
Proof.
  intros H. unfold tile_columns, mk. rewrite map_map.
  apply map_ext_in. intros r Hr. rewrite <- (H r Hr).
  apply repeat_map_const.
Qed.

(** The correction factor of one row, [sum(var) * (1 / sqrt(C / 2))]. *)
Definition bridge_correction (C : nat) (var_row : list T) : T :=
  fmul (tsum var_row) (fdiv (lit 1) (fsqrt (fdiv (of_count C) (lit 2)))).

(** One Dirichlet parameter of the bridge, from the (corrected) means of the
    row, the mean and the variance of the class. *)
Definition bridge_parameter (C : nat) (mean_row : list T) (m v : T) : T :=
  fdiv
    (fadd (fsub (lit 1) (fdiv (lit 2) (of_count C)))
       (fdiv (fmul (fexp m) (tsum (map (fun x => fexp (fneg x)) mean_row)))
          (of_count (C * C))))
    v.

Definition bridge_row (C : nat) (use_correction : bool)
  (mean_row var_row : list T) : list T :=
  if use_correction then
    let c := bridge_correction C var_row in
    let mean_p := map (fun m => fdiv m (fsqrt c)) mean_row in
    zip_with (fun m v => bridge_parameter C mean_p (fdiv m (fsqrt c)) (fdiv v c))
      mean_row var_row
  else zip_with (bridge_parameter C mean_row) mean_row var_row.

Lemma get_laplace_bridge_approximation_mk {I J : Type} (L : list I)
  (cols : I -> list J) (em ev : I -> J -> T) (C : nat)
  (use_correction : bool) :
  (1 <= C)%nat ->
  (forall r, In r L -> List.length (cols r) = C) ->
  shape1 (mk L cols em) = C ->
  get_laplace_bridge_approximation (mk L cols em) (mk L cols ev) use_correction
  = Ok (mk L cols
          (fun r j =>
             if use_correction then
               let c := bridge_correction C (map (ev r) (cols r)) in
               bridge_parameter C
                 (map (fun j => fdiv (em r j) (fsqrt c)) (cols r))
                 (fdiv (em r j) (fsqrt c)) (fdiv (ev r j) c)
             else bridge_parameter C (map (em r) (cols r)) (em r j) (ev r j))).
Proof.
  intros HC Hcols Hs.
  unfold get_laplace_bridge_approximation. rewrite Hs.
  destruct use_correction.
  - cbv zeta. rewrite map_mk, (tile_columns_mk _ _ _ Hcols).
    autorewrite with tensor. cbn [bind fst snd].
    rewrite (bridge_guard _ _ _ HC).
    rewrite map_mk, (tile_columns_mk _ _ _ Hcols).
    autorewrite with tensor. reflexivity.
  - cbv zeta. cbn [bind fst snd]. rewrite (bridge_guard _ _ _ HC).
    rewrite map_mk, (tile_columns_mk _ _ _ Hcols).
    autorewrite with tensor. reflexivity.
Qed.

Lemma get_laplace_bridge_approximation_rows (N C : nat)
  (mean var : matrix T) (use_correction : bool) :
  (1 <= C)%nat -> has_shape N C mean -> has_shape N C var ->
  get_laplace_bridge_approximation mean var use_correction
  = Ok (zip_with (bridge_row C use_correction) mean var).
Proof.
  intros HC Hm Hv.
  pose proof (mk_fst Hm Hv) as Em. pose proof (mk_snd Hm Hv) as Ev.
  pose proof (fun r => @in_rows2_length _ _ N C mean var r Hm Hv) as Hlen.
  assert (Hcols : forall r, In r (rows2 mean var) ->
                  List.length (cols2 r) = C).
  { intros r Hr. destruct (Hlen r Hr) as [H1 H2].
    unfold cols2. rewrite length_combine. lia. }
  assert (Hs : mean = [] \/ shape1 mean = C).
  { destruct mean as [|row mean]; [now left|right].
    destruct Hm as [_ Hr]. inversion Hr; subst. reflexivity. }
  destruct Hs as [-> | Hs].
  { destruct Hv as [Hv _]. destruct Hm as [<- _].
    destruct var; [|discriminate]. destruct use_correction; reflexivity. }
  rewrite Em in Hs.
  pose proof (get_laplace_bridge_approximation_mk (rows2 mean var) cols2
                (fun _ j => fst j) (fun _ j => snd j) use_correction
                HC Hcols Hs) as H.
  rewrite <- Em, <- Ev in H. rewrite H. f_equal.
  rewrite zip_with_combine. fold (rows2 mean var).
  unfold mk. apply map_ext_in. intros [rm rv] Hr.
  destruct (Hlen _ Hr) as [H1 H2]. simpl in H1, H2.
  unfold bridge_row, cols2. cbn [fst snd]. rewrite !zip_with_combine.
  pose proof (map_fst_combine rm rv ltac:(congruence)) as Hfst.
  pose proof (map_snd_combine rm rv ltac:(congruence)) as Hsnd.
  change (map snd (combine rm rv))
    with (map (fun j : T * T => snd j) (combine rm rv)) in Hsnd.
  destruct use_correction.
  - cbv zeta. rewrite Hsnd.
    replace (map (fun j : T * T => fdiv (fst j) (fsqrt (bridge_correction C rv)))
               (combine rm rv))
      with (map (fun m => fdiv m (fsqrt (bridge_correction C rv))) rm).
    2:{ rewrite <- Hfst at 1. now rewrite map_map. }
    reflexivity.
  - change (map fst (combine rm rv))
      with (map (fun j : T * T => fst j) (combine rm rv)) in Hfst.
    rewrite Hfst. reflexivity.
Qed.

End LaplaceBridge.

Section SoftmaxRows.

Context {T : Type} {S : Scalar T}.

Lemma softmax_mk (m : matrix T) :
  map softmax m
  = mk m (fun r => r) (fun r x => fdiv (fexp x) (tsum (map fexp r))).
Proof.
  unfold mk. apply map_ext. intros row. unfold softmax. cbv zeta.
  now rewrite map_map.
Qed.

Lemma softmax_length (row : list T) :
  List.length (softmax row) = List.length row.
Proof. unfold softmax. cbv zeta. now rewrite !length_map. Qed.

Lemma softmax_mean_field_logits (mean var : matrix T) :
  softmax_mean_field mean var true
  = gaussian_pushforward_mean mean var "logit" "sigmoid" true.
Proof. reflexivity. Qed.

Lemma softmax_mean_field_of_logits (mean var logits : matrix T) :
  softmax_mean_field mean var true = Ok logits ->
  softmax_mean_field mean var false = Ok (map softmax logits).
Proof.
  unfold softmax_mean_field. intros H.
  destruct (tensor_map2 fdiv mean _) as [l|e]; cbn [bind] in *;
    [|discriminate].
  now injection H as ->.
Qed.

Lemma diag_hessian_softmax_mk (logit : matrix T) (target : list Z) :
  diag_hessian_softmax logit target
  = Ok (mk logit (fun r => r)
          (fun r x =>
             let p := fdiv (fexp x) (tsum (map fexp r)) in
             fmul p (fsub (lit 1) p))).
Proof.
  unfold diag_hessian_softmax. cbv zeta. rewrite softmax_mk.
  autorewrite with tensor. reflexivity.
Qed.

End SoftmaxRows.

Lemma has_shape_mk_self {A B : Type} (N C : nat) (m : matrix A)
  (e : list A -> A -> B) :
  has_shape N C m -> has_shape N C (mk m (fun r => r) e).
Proof.
  intros [Hn Hr]. unfold mk. split.
  - now rewrite length_map.
  - apply Forall_forall. intros row Hin. apply in_map_iff in Hin.
    destruct Hin as [r [<- Hin]]. rewrite length_map.
    rewrite Forall_forall in Hr. now apply Hr.
Qed.

Section RealSoftmax.

Local Open Scope R_scope.

Variable ndtr_R : R -> R.
Variable owens_t_R : R -> R -> R.

Let RS : Scalar R := R_scalar ndtr_R owens_t_R.

#[local] Existing Instance RS.

Ltac real_softmax_ops :=
  change (@fsub R RS) with Rminus; change (@fdiv R RS) with Rdiv;
  change (@fmul R RS) with Rmult; change (@fadd R RS) with Rplus;
  change (@fneg R RS) with Ropp; change (@fsqrt R RS) with R_sqrt.sqrt;
  change (@fexp R RS) with Rtrigo_def.exp;
  change (@flog R RS) with Rpower.ln;
  change (@of_count R RS) with INR;
  change (@sigmoid R RS) with sigmoid_R;
  change (@lit R RS) with Q2R.

Lemma tsum_soft (l : list R) : @tsum R RS l = Rsum l.
Proof. apply tsum_Rsum. Qed.

Lemma fix_row_soft (p : list R) : @spec_nan_fix_row R RS p = p.
Proof. apply (spec_nan_fix_row_R ndtr_R owens_t_R). Qed.

Lemma Q2R_2 : Q2R 2 = 2.
Proof. unfold Q2R. simpl. lra. Qed.

Lemma Q2R_3 : Q2R 3 = 3.
Proof. unfold Q2R. simpl. lra. Qed.

Lemma Rsum_gt_member (l : list R) (x : R) :
  Forall (fun y => 0 < y) l -> In x l -> (2 <= List.length l)%nat ->
  x < Rsum l.
Proof.
  intros Hpos Hin Hlen. destruct l as [|y l]; [destruct Hin|].
  inversion Hpos as [|? ? Hy Hl]; subst. simpl.
  assert (Hne : l <> []) by (intros ->; simpl in Hlen; lia).
  pose proof (Rsum_pos Hne Hl) as Hs.
  destruct Hin as [-> | Hin]; [lra|].
  pose proof (@Rsum_ge_member l x Hl Hin). lra.
Qed.

Lemma exp_row_pos (row : list R) :
  Forall (fun y => 0 < y) (map Rtrigo_def.exp row).
Proof.
  apply Forall_forall. intros y Hy. apply in_map_iff in Hy.
  destruct Hy as [x [<- _]]. apply exp_pos.
Qed.

(** An entry of the softmax of a row is a probability; it is below 1 when
    the row has two entries or more. *)
Lemma softmax_entry (row : list R) (x : R) :
  In x row ->
  0 < Rtrigo_def.exp x / Rsum (map Rtrigo_def.exp row) <= 1 /\
  ((2 <= List.length row)%nat ->
   Rtrigo_def.exp x / Rsum (map Rtrigo_def.exp row) < 1).
Proof.
  intros Hin.
  assert (Hne : map Rtrigo_def.exp row <> [])
    by (destruct row; [destruct Hin | discriminate]).
  pose proof (Rsum_pos Hne (exp_row_pos row)) as Hs.
  pose proof (exp_pos x) as Hx.
  assert (Hin' : In (Rtrigo_def.exp x) (map Rtrigo_def.exp row))
    by (now apply in_map).
  pose proof (@Rsum_ge_member _ _ (exp_row_pos row) Hin') as Hle.
  split; [split|].
  - now apply Rdiv_lt_0_compat.
  - apply Rmult_le_reg_r with (Rsum (map Rtrigo_def.exp row)); [lra|].
    unfold Rdiv. rewrite Rmult_assoc, Rinv_l by lra. lra.
  - intros Hlen.
    assert (Hlt : Rtrigo_def.exp x < Rsum (map Rtrigo_def.exp row)).
    { apply Rsum_gt_member; [apply exp_row_pos | exact Hin'|].
      now rewrite length_map. }
    apply Rmult_lt_reg_r with (Rsum (map Rtrigo_def.exp row)); [lra|].
    unfold Rdiv. rewrite Rmult_assoc, Rinv_l by lra. lra.
Qed.

Lemma softmax_row_sum (row : list R) :
  row <> [] -> Rsum (@softmax R RS row) = 1.
Proof.
  intros Hne. unfold softmax. cbv zeta. real_softmax_ops. rewrite tsum_soft.
  apply Rsum_normalized.
  assert (Hne' : map Rtrigo_def.exp row <> [])
    by (destruct row; [congruence | discriminate]).
  pose proof (Rsum_pos Hne' (exp_row_pos row)). lra.
Qed.

(** For non-negative variances the mean-field softmax predictive is the
    softmax of the logits that the [logit] link with the [sigmoid] output
    returns, and each of its rows is a probability vector. *)
Theorem softmax_mean_field_simplex :
  forall (N C : nat) (mean var : matrix R),
    (1 <= C)%nat -> has_shape N C mean -> has_shape N C var ->
    Forall (Forall (fun v => 0 <= v)) var ->
    exists logits P : matrix R,
      gaussian_pushforward_mean mean var "logit" "sigmoid" true = Ok logits /\
      softmax_mean_field mean var true = Ok logits /\
      softmax_mean_field mean var false = Ok P /\
      P = map softmax logits /\
      has_shape N C P /\
      Forall (fun row => Rsum row = 1 /\ Forall (fun p => 0 < p <= 1) row) P.
Proof.
  intros N C mean var HC Hm Hv _.
  pose proof (mk_fst Hm Hv) as Em. pose proof (mk_snd Hm Hv) as Ev.
  pose proof (gaussian_pushforward_mean_mk (rows2 mean var) cols2
                (fun _ j => fst j) (fun _ j => snd j) "logit" "sigmoid" true
                (scale := LAMBDA_0) eq_refl) as H1.
  change (py_in "normcdf" "sigmoid") with false in H1.
  change (py_in "sigmoid" "sigmoid") with true in H1. cbv iota zeta in H1.
  rewrite <- Em, <- Ev in H1. clear Em Ev.
  assert (Hl : has_shape N C
                 (mk (rows2 mean var) cols2
                    (fun (_ : list R * list R) (j : R * R) =>
                       spec_sigmoid_logit LAMBDA_0 (fst j) (snd j)))).
  { rewrite (mk_zip_with (fun m v => spec_sigmoid_logit LAMBDA_0 m v)).
    now apply has_shape_zip_with. }
  set (logits := mk (rows2 mean var) cols2
                    (fun (_ : list R * list R) (j : R * R) =>
                       spec_sigmoid_logit LAMBDA_0 (fst j) (snd j))) in *.
  exists logits, (map softmax logits).
  split; [exact H1|]. split; [rewrite softmax_mean_field_logits; exact H1|].
  split; [apply softmax_mean_field_of_logits;
          rewrite softmax_mean_field_logits; exact H1|].
  split; [reflexivity|]. split.
  - apply has_shape_map; [apply softmax_length | exact Hl].
  - apply Forall_forall. intros prow Hin. apply in_map_iff in Hin.
    destruct Hin as [row [<- Hrow]].
    destruct Hl as [_ Hrows]. rewrite Forall_forall in Hrows.
    pose proof (Hrows _ Hrow) as Hlen.
    assert (Hne : row <> []) by (intros ->; simpl in Hlen; lia).
    split; [now apply softmax_row_sum|].
    unfold softmax. cbv zeta. rewrite map_map. apply Forall_forall.
    intros p Hp. apply in_map_iff in Hp. destruct Hp as [x [<- Hx]].
    real_softmax_ops. rewrite tsum_soft. now apply softmax_entry.
Qed.

(** The diagonal of the softmax Hessian is [p * (1 - p)] for the softmax
    probability [p]: it lies in [[0, 1/4]], it is positive with two classes
    or more and zero with a single class, and the target plays no part. *)
Theorem diag_hessian_softmax_bounds :
  forall (N C : nat) (logit : matrix R) (target : list Z),
    (1 <= C)%nat -> has_shape N C logit ->
    exists H : matrix R,
      diag_hessian_softmax logit target = Ok H /\
      H = tensor_map (fun p => p * (1 - p)) (map softmax logit) /\
      has_shape N C H /\
      Forall (Forall (fun h => 0 <= h <= 1 / 4)) H /\
      ((2 <= C)%nat -> Forall (Forall (fun h => 0 < h)) H) /\
      (C = 1%nat -> Forall (Forall (fun h => h = 0)) H).
Proof.
  intros N C logit target HC Hshape.
  rewrite diag_hessian_softmax_mk. eexists. split; [reflexivity|].
  split; [rewrite softmax_mk, tensor_map_mk; apply mk_ext_in;
          intros r _ x _; cbv zeta; real_softmax_ops;
          now rewrite Q2R_1|].
  split; [now apply has_shape_mk_self|].
  destruct Hshape as [_ Hrows]. rewrite Forall_forall in Hrows.
  split; [|split].
  - apply Forall_mk. intros r Hr x Hx. cbv zeta. real_softmax_ops.
    rewrite tsum_soft, Q2R_1.
    destruct (softmax_entry _ _ Hx) as [[H0 H1] _].
    set (p := Rtrigo_def.exp x / Rsum (map Rtrigo_def.exp r)) in *.
    clearbody p. pose proof (Rle_0_sqr (p - 1 / 2)) as Hsq. unfold Rsqr in Hsq.
    split; nra.
  - intros H2. apply Forall_mk. intros r Hr x Hx. cbv zeta.
    real_softmax_ops. rewrite tsum_soft, Q2R_1.
    destruct (softmax_entry _ _ Hx) as [[H0 _] H1].
    specialize (H1 ltac:(rewrite (Hrows _ Hr); exact H2)).
    set (p := Rtrigo_def.exp x / Rsum (map Rtrigo_def.exp r)) in *.
    clearbody p. nra.
  - intros ->. apply Forall_mk. intros r Hr x Hx. cbv zeta.
    real_softmax_ops. rewrite tsum_soft, Q2R_1.
    pose proof (Hrows _ Hr) as Hlen.
    destruct r as [|y [|z r]]; try discriminate Hlen.
    destruct Hx as [<- | []]. simpl. pose proof (exp_pos y).
    field. lra.
Qed.

End RealSoftmax.

Lemma Forall_zip_with {A B C : Type} (P : C -> Prop) (f : A -> B -> C)
  (a : list A) (b : list B) :
  (forall x y, In (x, y) (combine a b) -> P (f x y)) ->
  Forall P (zip_with f a b).
Proof.
  intros H. rewrite zip_with_combine. apply Forall_forall. intros c Hc.
  apply in_map_iff in Hc. destruct Hc as [[x y] [<- Hin]]. now apply H.
Qed.

Section RealBridge.

Local Open Scope R_scope.

Variable ndtr_R : R -> R.
Variable owens_t_R : R -> R -> R.

Let RS : Scalar R := R_scalar ndtr_R owens_t_R.

#[local] Existing Instance RS.

Ltac real_bridge_ops :=
  change (@fsub R RS) with Rminus; change (@fdiv R RS) with Rdiv;
  change (@fmul R RS) with Rmult; change (@fadd R RS) with Rplus;
  change (@fneg R RS) with Ropp; change (@fsqrt R RS) with R_sqrt.sqrt;
  change (@fexp R RS) with Rtrigo_def.exp;
  change (@flog R RS) with Rpower.ln;
  change (@of_count R RS) with INR;
  change (@lit R RS) with Q2R.

Lemma tsum_bridge (l : list R) : @tsum R RS l = Rsum l.
Proof. apply tsum_Rsum. Qed.

Lemma bridge_correction_pos (C : nat) (rv : list R) :
  (1 <= C)%nat -> rv <> [] -> Forall (fun v => 0 < v) rv ->
  0 < @bridge_correction R RS C rv.
Proof.
  intros HC Hne Hpos. unfold bridge_correction. real_bridge_ops.
  rewrite tsum_bridge, Q2R_1, Q2R_2.
  pose proof (Rsum_pos Hne Hpos) as Hs.
  assert (HC' : 1 <= INR C) by (change 1 with (INR 1); now apply le_INR).
  assert (Hq : 0 < R_sqrt.sqrt (INR C / 2)) by (apply sqrt_lt_R0; lra).
  apply Rmult_lt_0_compat; [exact Hs|].
  apply Rdiv_lt_0_compat; lra.
Qed.

Lemma bridge_parameter_pos (C : nat) (row : list R) (m v : R) :
  (2 <= C)%nat -> row <> [] -> 0 < v ->
  0 < @bridge_parameter R RS C row m v.
Proof.
  intros HC Hne Hv. unfold bridge_parameter. real_bridge_ops.
  rewrite tsum_bridge, Q2R_1, Q2R_2.
  assert (HC' : 2 <= INR C) by (change 2 with (INR 2); now apply le_INR).
  assert (HCC : 0 < INR (C * C)).
  { rewrite mult_INR. apply Rmult_lt_0_compat; lra. }
  assert (Hs : 0 < Rsum (map (fun x => Rtrigo_def.exp (- x)) row)).
  { apply Rsum_pos.
    - destruct row; [congruence | discriminate].
    - apply Forall_forall. intros y Hy. apply in_map_iff in Hy.
      destruct Hy as [x [<- _]]. apply exp_pos. }
  assert (H1 : 0 <= 1 - 2 / INR C).
  { assert (2 / INR C <= 1); [|lra].
    apply Rmult_le_reg_r with (INR C); [lra|].
    unfold Rdiv. rewrite Rmult_assoc, Rinv_l by lra. lra. }
  assert (H2 : 0 < Rtrigo_def.exp m
                   * Rsum (map (fun x => Rtrigo_def.exp (- x)) row)
                   / INR (C * C)).
  { apply Rdiv_lt_0_compat; [|exact HCC].
    apply Rmult_lt_0_compat; [apply exp_pos | exact Hs]. }
  apply Rdiv_lt_0_compat; lra.
Qed.

Lemma bridge_row_pos (C : nat) (use_correction : bool) (rm rv : list R) :
  (2 <= C)%nat -> List.length rm = C -> List.length rv = C ->
  Forall (fun v => 0 < v) rv ->
  Forall (fun a => 0 < a) (@bridge_row R RS C use_correction rm rv).
Proof.
  intros HC Hm Hv Hpos.
  assert (Hnm : rm <> []) by (intros ->; simpl in Hm; lia).
  assert (Hnv : rv <> []) by (intros ->; simpl in Hv; lia).
  unfold bridge_row. destruct use_correction.
  - cbv zeta.
    pose proof (@bridge_correction_pos C rv ltac:(lia) Hnv Hpos) as Hc.
    apply Forall_zip_with. intros m v Hin.
    apply bridge_parameter_pos; [exact HC| |].
    + destruct rm; [congruence | discriminate].
    + real_bridge_ops. apply Rdiv_lt_0_compat; [|exact Hc].
      rewrite Forall_forall in Hpos. apply Hpos.
      eapply in_combine_r; eauto.
  - apply Forall_zip_with. intros m v Hin.
    apply bridge_parameter_pos; [exact HC | exact Hnm |].
    rewrite Forall_forall in Hpos. apply Hpos. eapply in_combine_r; eauto.
Qed.

Lemma bridge_row_length (C : nat) (use_correction : bool) (rm rv : list R) :
  List.length rm = List.length rv ->
  List.length (@bridge_row R RS C use_correction rm rv) = List.length rm.
Proof.
  intros H. unfold bridge_row.
  destruct use_correction; cbv zeta; now apply zip_with_length.
Qed.

(** With two classes or more and positive variances the Laplace bridge
    returns positive Dirichlet parameters, with and without the correction,
    and the softmax Laplace-bridge predictive is their normalization: every
    row is a vector of positive probabilities that sum to 1.  With
    [return_logits] the result is [log(pred + 1e-10)]. *)
Theorem softmax_laplace_bridge_simplex :
  forall (N C : nat) (mean var : matrix R) (use_correction : bool),
    (2 <= C)%nat -> has_shape N C mean -> has_shape N C var ->
    Forall (Forall (fun v => 0 < v)) var ->
    exists A P : matrix R,
      get_laplace_bridge_approximation mean var use_correction = Ok A /\
      has_shape N C A /\
      Forall (Forall (fun a => 0 < a)) A /\
      softmax_laplace_bridge mean var use_correction false = Ok P /\
      P = map normalize_row A /\
      has_shape N C P /\
      Forall (fun row => Rsum row = 1 /\ Forall (fun p => 0 < p) row) P /\
      softmax_laplace_bridge mean var use_correction true
      = Ok (tensor_map (fun p => Rpower.ln (p + 1e-10)) P).
Proof.
  intros N C mean var uc HC Hm Hv Hpos.
  assert (HC1 : (1 <= C)%nat) by lia.
  pose proof (get_laplace_bridge_approximation_rows uc HC1 Hm Hv) as HA.
  pose proof (fun ra rb (Hin : In (ra, rb) (combine mean var)) =>
                @in_rows2_length _ _ N C mean var (ra, rb) Hm Hv Hin)
    as Hlen.
  set (A := zip_with (bridge_row C uc) mean var) in *.
  assert (HsA : has_shape N C A).
  { split.
    - unfold A. rewrite zip_with_length.
      + now destruct Hm.
      + destruct Hm as [-> _]. now destruct Hv.
    - apply Forall_zip_with. intros ra rb Hin.
      destruct (Hlen _ _ Hin) as [H1 H2]. simpl in H1, H2.
      rewrite bridge_row_length; congruence. }
  assert (HpA : Forall (Forall (fun a => 0 < a)) A).
  { apply Forall_zip_with. intros ra rb Hin.
    destruct (Hlen _ _ Hin) as [H1 H2]. simpl in H1, H2.
    apply bridge_row_pos; try assumption.
    rewrite Forall_forall in Hpos. apply Hpos.
    eapply in_combine_r; eauto. }
  assert (HP : dirichlet_predictive A = Ok (map normalize_row A)).
  { rewrite dirichlet_predictive_rows. apply f_equal. apply map_ext.
    intros row. apply (spec_nan_fix_row_R ndtr_R owens_t_R). }
  exists A, (map normalize_row A).
  split; [exact HA|]. split; [exact HsA|]. split; [exact HpA|].
  split; [unfold softmax_laplace_bridge; rewrite HA; cbn [bind];
          rewrite HP; reflexivity|].
  split; [reflexivity|]. split; [|split].
  - apply has_shape_map; [|exact HsA].
    intros row. unfold normalize_row. now rewrite length_map.
  - apply Forall_forall. intros prow Hin. apply in_map_iff in Hin.
    destruct Hin as [row [<- Hrow]].
    destruct HsA as [_ Hrows]. rewrite Forall_forall in Hrows, HpA.
    pose proof (Hrows _ Hrow) as Hl. pose proof (HpA _ Hrow) as Hp.
    assert (Hne : row <> []) by (intros ->; simpl in Hl; lia).
    pose proof (Rsum_pos Hne Hp) as Hs.
    unfold normalize_row. real_bridge_ops. rewrite tsum_bridge. split.
    + apply Rsum_normalized. lra.
    + apply Forall_forall. intros p Hin. apply in_map_iff in Hin.
      destruct Hin as [a [<- Ha]]. apply Rdiv_lt_0_compat; [|exact Hs].
      rewrite Forall_forall in Hp. now apply Hp.
  - unfold softmax_laplace_bridge. rewrite HA. cbn [bind]. rewrite HP.
    cbn [bind]. apply f_equal. unfold tensor_map. apply map_ext. intros row.
    apply map_ext. intros p. real_bridge_ops.
    change (Q2R (1 # 10000000000))
      with (@floor_1e10 R (R_scalar ndtr_R owens_t_R)).
    now rewrite floor_1e10_R.
Qed.

(** With a single class the Laplace bridge degenerates: every Dirichlet
    parameter it returns is 0, whatever the mean and the (positive)
    variance, with and without the correction. *)
Theorem laplace_bridge_single_class :
  forall (N : nat) (mean var : matrix R) (use_correction : bool),
    has_shape N 1 mean -> has_shape N 1 var ->
    Forall (Forall (fun v => 0 < v)) var ->
    get_laplace_bridge_approximation mean var use_correction
    = Ok (tensor_map (fun _ => 0) mean).
Proof.
  intros N mean var uc Hm Hv Hpos.
  rewrite (get_laplace_bridge_approximation_rows uc (le_n 1) Hm Hv).
  apply f_equal.
  pose proof (fun ra rb (Hin : In (ra, rb) (combine mean var)) =>
                @in_rows2_length _ _ N 1%nat mean var (ra, rb) Hm Hv Hin)
    as Hlen.
  assert (Hlens : List.length mean = List.length var).
  { destruct Hm as [-> _]. now destruct Hv. }
  unfold tensor_map. rewrite <- (map_fst_combine mean var Hlens) at 2.
  rewrite zip_with_combine, map_map. apply map_ext_in. intros [rm rv] Hin.
  destruct (Hlen _ _ Hin) as [H1 H2]. simpl in H1, H2. cbn [fst snd].
  destruct rm as [|m [|? ?]]; try discriminate H1.
  destruct rv as [|v [|? ?]]; try discriminate H2.
  assert (Hv0 : 0 < v).
  { rewrite Forall_forall in Hpos.
    pose proof (Hpos _ (in_combine_r _ _ _ _ Hin)) as Hrow.
    now inversion Hrow. }
  assert (Hexp : forall x, Rtrigo_def.exp x * (Rtrigo_def.exp (- x) + 0) = 1).
  { intros x. rewrite Rplus_0_r, <- exp_plus, Rplus_opp_r. apply exp_0. }
  unfold bridge_row. destruct uc.
  - cbv zeta. cbn [zip_with map]. unfold bridge_parameter.
    pose proof (@bridge_correction_pos 1 [v] (le_n 1) ltac:(discriminate)
                  ltac:(repeat constructor; exact Hv0)) as Hc.
    set (c := bridge_correction 1 [v]) in *.
    real_bridge_ops. rewrite tsum_bridge. cbn [map Rsum fold_right].
    rewrite Hexp, Q2R_1, Q2R_2. simpl INR. apply f_equal2; [|reflexivity].
    field. lra.
  - cbn [zip_with map]. unfold bridge_parameter.
    real_bridge_ops. rewrite tsum_bridge. cbn [map Rsum fold_right].
    rewrite Hexp, Q2R_1, Q2R_2. simpl INR. apply f_equal2; [|reflexivity].
    field. lra.
Qed.

End RealBridge.

(** ** Signs of the normalized-sigmoid Hessian *)

Section HessianIndexed.

Context {T : Type} {S : Scalar T}.

(** The logits of a batch, each with the target of its row and the index of
    its class. *)
Definition labelled_logits (C : nat) (logit : matrix T) (target : list Z)
  : matrix (Z * nat * T) :=
  mk (combine logit target) (class_cols C)
    (fun r j => (snd r, fst j, snd j)).

Lemma diag_hessian_normalized_sigmoid_mk (N C : nat) (logit : matrix T)
  (target : list Z) :
  has_shape N C logit -> List.length target = N ->
  Forall (fun t => (0 <= t < Z.of_nat C)%Z) target ->
  diag_hessian_normalized_sigmoid logit target
  = Ok (mk (combine logit target) (class_cols C)
          (fun r j =>
             spec_hessian_entry (tsum (map sigmoid (fst r))) (snd r)
               (fst j) (snd j))).
Proof.
  intros Hshape Ht Hrange.
  unfold diag_hessian_normalized_sigmoid.
  assert (Hc : one_hot target (shape1 logit)
               = one_hot target C :> result (matrix T)).
  { destruct logit as [|row logit].
    - destruct Hshape as [<- _]. destruct target; [reflexivity|discriminate].
    - destruct Hshape as [_ Hrows]. inversion Hrows; subst. reflexivity. }
  rewrite Hc, (one_hot_mk Hshape Ht Hrange). clear Hc.
  pose proof (logit_mk target Hshape Ht) as E.
  assert (Hin : forall r, In r (combine logit target) ->
                 List.length (fst r) = C /\ (0 <= snd r)%Z).
  { intros [row t] Hin. simpl. split.
    - destruct Hshape as [_ Hrows]. rewrite Forall_forall in Hrows.
      apply Hrows. eapply in_combine_l; eauto.
    - rewrite Forall_forall in Hrange.
      apply Hrange. eapply in_combine_r; eauto. }
  set (L := combine logit target) in *. clearbody L.
  rewrite E. unfold sum_keepdim. autorewrite with tensor. apply f_equal.
  apply mk_ext_in. intros [row t] Hr [j x] Hj.
  destruct (Hin _ Hr) as [Hlen Hpos]. simpl in Hlen, Hpos.
  unfold spec_hessian_entry, class_cols. cbn [fst snd].
  replace (map (fun j : nat * T => sigmoid (snd j)) (combine (seq 0 C) row))
    with (map sigmoid row).
  2:{ rewrite <- (map_map snd sigmoid).
      now rewrite map_snd_combine by (now rewrite length_seq). }
  replace (Z.of_nat j =? t)%Z with (Nat.eqb j (Z.to_nat t)).
  - reflexivity.
  - destruct (Nat.eqb_spec j (Z.to_nat t));
      destruct (Z.eqb_spec (Z.of_nat j) t);
      try reflexivity; lia.
Qed.

End HessianIndexed.

Section RealHessian.

Local Open Scope R_scope.

Variable ndtr_R : R -> R.
Variable owens_t_R : R -> R -> R.

Let RS : Scalar R := R_scalar ndtr_R owens_t_R.

#[local] Existing Instance RS.

Ltac real_hessian_ops :=
  change (@fsub R RS) with Rminus; change (@fdiv R RS) with Rdiv;
  change (@fmul R RS) with Rmult; change (@fadd R RS) with Rplus;
  change (@sigmoid R RS) with sigmoid_R;
  change (@lit R RS) with Q2R.

Lemma tsum_hessian (l : list R) : @tsum R RS l = Rsum l.
Proof. apply tsum_Rsum. Qed.

Lemma sigmoid_R_half (x : R) : 0 < x -> 1 / 2 < sigmoid_R x.
Proof.
  intros Hx. unfold sigmoid_R.
  assert (He : Rtrigo_def.exp (- x) < 1).
  { rewrite <- exp_0. apply exp_increasing. lra. }
  pose proof (exp_pos (- x)) as Hp.
  apply Rmult_lt_reg_r with (1 + Rtrigo_def.exp (- x)); [lra|].
  unfold Rdiv at 2. rewrite Rmult_1_l, Rinv_l by lra. lra.
Qed.

Lemma sigmoid_row_pos (row : list R) :
  Forall (fun y => 0 < y) (map sigmoid_R row).
Proof.
  apply Forall_forall. intros y Hy. apply in_map_iff in Hy.
  destruct Hy as [x [<- _]]. apply sigmoid_R_pos.
Qed.

(** The normalized probability of an entry of a row. *)
Lemma normalized_sigmoid_entry (row : list R) (x : R) :
  In x row ->
  0 < sigmoid_R x / Rsum (map sigmoid_R row) <= 1.
Proof.
  intros Hin.
  assert (Hne : map sigmoid_R row <> [])
    by (destruct row; [destruct Hin | discriminate]).
  pose proof (Rsum_pos Hne (sigmoid_row_pos row)) as Hs.
  pose proof (sigmoid_R_pos x) as Hx.
  pose proof (@Rsum_ge_member _ _ (sigmoid_row_pos row)
                (in_map sigmoid_R _ _ Hin)) as Hle.
  split.
  - now apply Rdiv_lt_0_compat.
  - apply Rmult_le_reg_r with (Rsum (map sigmoid_R row)); [lra|].
    unfold Rdiv. rewrite Rmult_assoc, Rinv_l by lra. lra.
Qed.

(** The diagonal entry of the normalized-sigmoid Hessian at the target class
    is never negative, and the entry at any other class whose logit is
    positive is negative. *)
Theorem normalized_sigmoid_hessian_signs :
  forall (N C : nat) (logit : matrix R) (target : list Z),
    has_shape N C logit -> List.length target = N ->
    Forall (fun t => (0 <= t < Z.of_nat C)%Z) target ->
    exists H : matrix R,
      diag_hessian_normalized_sigmoid logit target = Ok H /\
      has_shape N C H /\
      entrywise
        (fun (tcx : Z * nat * R) (h : R) =>
           let '(t, c, x) := tcx in
           (Z.of_nat c = t -> 0 <= h) /\
           (Z.of_nat c <> t -> 0 < x -> h < 0))
        (labelled_logits C logit target) H.
Proof.
  intros N C logit target Hshape Ht Hrange.
  rewrite (diag_hessian_normalized_sigmoid_mk Hshape Ht Hrange).
  eexists. split; [reflexivity|].
  assert (Hrow : forall r, In r (combine logit target) ->
                 List.length (fst r) = C).
  { intros [row t] Hin. destruct Hshape as [_ Hrows].
    rewrite Forall_forall in Hrows. apply Hrows.
    eapply in_combine_l; eauto. }
  split.
  - split.
    + unfold mk. rewrite length_map, length_combine.
      destruct Hshape as [-> _]. lia.
    + unfold mk. apply Forall_forall. intros hrow Hin.
      apply in_map_iff in Hin. destruct Hin as [r [<- Hr]].
      unfold class_cols. rewrite length_map, length_combine, length_seq.
      rewrite (Hrow _ Hr). lia.
  - unfold labelled_logits. apply entrywise_mk.
    intros [row t] Hr [c x] Hj. cbn [fst snd].
    assert (Hx : In x row).
    { unfold class_cols in Hj. cbn [fst] in Hj.
      eapply in_combine_r; eauto. }
    unfold spec_hessian_entry. cbv zeta. unfold pow2. real_hessian_ops.
    rewrite tsum_hessian, Q2R_1, Q2R_2, Q2R_3.
    destruct (normalized_sigmoid_entry _ _ Hx) as [Hp0 Hp1].
    destruct (sigmoid_R_bounds x) as [Hq0 Hq1].
    set (p := sigmoid_R x / Rsum (map sigmoid_R row)) in *. clearbody p.
    split.
    + intros Heq. apply Z.eqb_eq in Heq. rewrite Heq. cbv iota.
      set (q := sigmoid_R x) in *. clearbody q.
      replace (1 * q * (1 - q) + p * (1 - 3 * q + 2 * (q * q))
               - p * (1 - q) * (p * (1 - q)))
        with ((1 - q) * (1 - p) * (q * (1 - p) + p)) by ring.
      apply Rmult_le_pos; [apply Rmult_le_pos; lra|].
      assert (0 <= q * (1 - p)) by (apply Rmult_le_pos; lra). lra.
    + intros Hne Hpos. apply Z.eqb_neq in Hne. rewrite Hne, Q2R_0. cbv iota.
      pose proof (sigmoid_R_half Hpos) as Hh.
      set (q := sigmoid_R x) in *. clearbody q.
      replace (0 * q * (1 - q) + p * (1 - 3 * q + 2 * (q * q))
               - p * (1 - q) * (p * (1 - q)))
        with (- (p * (1 - q) * ((2 * q - 1) + p * (1 - q)))) by ring.
      assert (H1 : 0 < p * (1 - q)) by (apply Rmult_lt_0_compat; lra).
      assert (H2 : 0 < 2 * q - 1 + p * (1 - q)) by lra.
      pose proof (Rmult_lt_0_compat _ _ H1 H2). lra.
Qed.

(** With a single class the normalized-sigmoid Hessian vanishes: the
    normalized probability is 1 whatever the logit. *)
Theorem normalized_sigmoid_hessian_single_class :
  forall (N : nat) (logit : matrix R) (target : list Z),
    has_shape N 1 logit -> List.length target = N ->
    Forall (fun t => t = 0%Z) target ->
    diag_hessian_normalized_sigmoid logit target
    = Ok (tensor_map (fun _ => 0) logit).
Proof.
  intros N logit target Hshape Ht Hzero.
  assert (Hrange : Forall (fun t => (0 <= t < Z.of_nat 1)%Z) target).
  { eapply Forall_impl; [|exact Hzero]. intros t ->. simpl. lia. }
  rewrite (diag_hessian_normalized_sigmoid_mk Hshape Ht Hrange).
  apply f_equal.
  rewrite (logit_mk target Hshape Ht) at 2.
  rewrite tensor_map_mk. apply mk_ext_in. intros [row t] Hr [c x] Hj.
  cbn [fst snd].
  assert (Hlen : List.length row = 1%nat).
  { destruct Hshape as [_ Hrows]. rewrite Forall_forall in Hrows.
    apply Hrows. eapply in_combine_l; eauto. }
  assert (Ht0 : t = 0%Z).
  { rewrite Forall_forall in Hzero. apply Hzero.
    eapply in_combine_r; eauto. }
  subst t. destruct row as [|y [|? ?]]; try discriminate Hlen.
  unfold class_cols in Hj. cbn in Hj. destruct Hj as [Hj | []].
  injection Hj as <- <-.
  unfold spec_hessian_entry. cbv zeta. unfold pow2. real_hessian_ops.
  rewrite tsum_hessian. cbn [map Rsum fold_right Z.of_nat Z.eqb].
  rewrite Q2R_1, Q2R_2, Q2R_3.
  pose proof (sigmoid_R_pos y) as Hq.
  set (q := sigmoid_R y) in *. clearbody q. field. lra.
Qed.

End RealHessian.

(** ** The registries and the activation lookups *)

Lemma dict_get_in {V : Type} (d : list (string * V)) (key : string) (v : V) :
  dict_get d key = Ok v -> In (key, v) d.
Proof.
  induction d as [|[k w] d IH]; simpl; [discriminate|].
  destruct (String.eqb_spec k key) as [->|Hne].
  - intros H. injection H as ->. now left.
  - intros H. right. now apply IH.
Qed.

Lemma dict_get_present {V : Type} (d : list (string * V)) (key : string) :
  In key (map fst d) -> exists v, dict_get d key = Ok v.
Proof.
  induction d as [|[k w] d IH]; simpl; intros H; [destruct H|].
  destruct (String.eqb_spec k key) as [->|Hne]; [eauto|].
  destruct H as [H | H]; [contradiction | now apply IH].
Qed.

(** The keyword arguments a registered predictive takes besides
    [return_logits] and [return_samples], read off its signature:
    [num_mc_samples] for the three sampling strategies, [use_correction] for
    [softmax_laplace_bridge]. *)
Definition takes_num_mc_samples (f : predictive_function) : bool :=
  match f with
  | fn_softmax_mc | fn_logit_link_mc | fn_probit_link_mc => true
  | _ => false
  end.

Definition takes_use_correction (f : predictive_function) : bool :=
  match f with
  | fn_softmax_laplace_bridge => true
  | _ => false
  end.

(** [get_predictive] returns for exactly the names of [PREDICTIVE_DICT], and
    the partial application it returns binds [num_mc_samples] exactly when
    the function takes it and [use_correction] exactly when the function
    takes it: no keyword is passed to a function without that parameter and
    no sampling strategy is left without its number of samples. *)
Theorem get_predictive_keywords :
  forall (name : string) (use_correction : bool) (num_mc_samples : nat),
    (In name (map fst PREDICTIVE_DICT) <->
     returns (get_predictive name use_correction num_mc_samples)) /\
    (forall p : partial,
        get_predictive name use_correction num_mc_samples = Ok p ->
        dict_get PREDICTIVE_DICT name = Ok (func p) /\
        kw_num_mc_samples p
        = (if takes_num_mc_samples (func p) then Some num_mc_samples
           else None) /\
        kw_use_correction p
        = (if takes_use_correction (func p) then Some use_correction
           else None)).
Proof.
  intros name uc n.
  assert (Hp : forall p, get_predictive name uc n = Ok p ->
               In name (map fst PREDICTIVE_DICT) /\
               dict_get PREDICTIVE_DICT name = Ok (func p) /\
               kw_num_mc_samples p
               = (if takes_num_mc_samples (func p) then Some n else None) /\
               kw_use_correction p
               = (if takes_use_correction (func p) then Some uc else None)).
  { intros p H. unfold get_predictive in H.
    destruct (dict_get PREDICTIVE_DICT name) as [f|e] eqn:E;
      [|discriminate H].
    pose proof (dict_get_in _ _ E) as Hin. cbn [bind] in H.
    simpl in Hin.
    repeat (destruct Hin as [Hin | Hin];
            [injection Hin as <- <-; injection H as <-;
             repeat split; simpl; auto 20|]).
    destruct Hin. }
  split; [split|].
  - intros Hin. destruct (dict_get_present PREDICTIVE_DICT name Hin) as [f E].
    unfold get_predictive, returns. rewrite E. cbn [bind].
    destruct (endswith name "mc"); [eauto|].
    destruct (name =? "softmax_laplace_bridge"); eauto.
  - intros [p H]. exact (proj1 (Hp p H)).
  - intros p H. exact (proj2 (Hp p H)).
Qed.

(** The likelihood name, the activation and the log-activation of a
    predictive are chosen by the same prefix test: they agree on every name,
    and they are all refused together. *)
Theorem activation_lookups_agree :
  forall name : string,
    (get_likelihood name = Ok "softmax" /\
     get_activation name = Ok act_softmax /\
     get_log_activation name = Ok act_log_softmax) \/
    (get_likelihood name = Ok "normcdf" /\
     get_activation name = Ok act_ndtr /\
     get_log_activation name = Ok act_log_ndtr) \/
    (get_likelihood name = Ok "sigmoid" /\
     get_activation name = Ok act_sigmoid /\
     get_log_activation name = Ok act_logsigmoid) \/
    (~ In name (map fst PREDICTIVE_DICT) /\
     get_likelihood name = Raise (ValueError "Invalid predictive provided") /\
     get_activation name = Raise (ValueError "Invalid predictive provided") /\
     get_log_activation name
     = Raise (ValueError "Invalid predictive provided")).
Proof.
  intros name. unfold get_likelihood, get_activation, get_log_activation.
  destruct (startswith name "softmax") eqn:E1; [now left|].
  destruct (startswith name "probit") eqn:E2; [right; now left|].
  destruct (startswith name "logit") eqn:E3; [right; right; now left|].
  right. right. right. split; [|repeat split].
  intros Hin. simpl in Hin.
  repeat (destruct Hin as [<- | Hin];
          [first [discriminate E1 | discriminate E2 | discriminate E3]|]).
  destruct Hin.
Qed.

(** For the link/output strategies the likelihood follows the link function
    of the name, not the output function of the approximation: [normcdf] for
    the [probit] link and [sigmoid] for the [logit] link, in both
    registries. *)
Theorem likelihood_follows_link :
  (forall (name : string) (f : predictive_function) (kw : string * string),
      dict_get PREDICTIVE_DICT name = Ok f ->
      predictive_kwargs f = Some kw ->
      get_likelihood name
      = Ok (if fst kw =? "probit" then "normcdf" else "sigmoid")) /\
  (forall (name : string) (f : dirichlet_function),
      get_dirichlet name = Ok f ->
      get_likelihood name
      = Ok (if fst (dirichlet_kwargs f) =? "probit" then "normcdf"
            else "sigmoid") /\
      exists g : predictive_function,
        dict_get PREDICTIVE_DICT name = Ok g /\
        takes_num_mc_samples g = false /\ takes_use_correction g = false /\
        exists kw, predictive_kwargs g = Some kw /\
                   fst kw = fst (dirichlet_kwargs f)).
Proof.
  split.
  - intros name f kw E Hkw. pose proof (dict_get_in _ _ E) as Hin.
    simpl in Hin.
    repeat (destruct Hin as [Hin | Hin];
            [injection Hin as <- <-; simpl in Hkw;
             first [discriminate Hkw | injection Hkw as <-; reflexivity]|]).
    destruct Hin.
  - intros name f E. unfold get_dirichlet in E.
    pose proof (dict_get_in _ _ E) as Hin. simpl in Hin.
    repeat (destruct Hin as [Hin | Hin];
            [injection Hin as <- <-; split; [reflexivity|];
             eexists; split; [reflexivity|];
             split; [reflexivity|]; split; [reflexivity|];
             eexists; split; reflexivity|]).
    destruct Hin.
Qed.

(** ** Target indexing in the forward pass of the loss *)

Lemma zip_with_firstn {A B C : Type} (f : A -> B -> C) (xs : list A)
  (ys : list B) :
  zip_with f (firstn (List.length ys) xs) ys = zip_with f xs ys.
Proof.
  revert ys. induction xs as [|x xs IH]; intros [|y ys]; simpl;
    try reflexivity.
  now rewrite IH.
Qed.

Lemma zip_with_map_r {A B B' C : Type} (f : A -> B' -> C) (g : B -> B')
  (xs : list A) (ys : list B) :
  zip_with f xs (map g ys) = zip_with (fun x y => f x (g y)) xs ys.
Proof.
  revert ys. induction xs as [|x xs IH]; intros [|y ys]; simpl;
    try reflexivity.
  now rewrite IH.
Qed.

Lemma in_firstn {A : Type} (k : nat) (l : list A) (x : A) :
  In x (firstn k l) -> In x l.
Proof.
  revert l. induction k as [|k IH]; intros [|y l] H; simpl in *;
    try contradiction.
  destruct H as [-> | H]; [now left | right; now apply IH].
Qed.

Lemma in_combine_seq {B : Type} (l : list B) (s i : nat) (y : B) :
  nth_error l i = Some y -> In ((s + i)%nat, y) (combine (seq s (List.length l)) l).
Proof.
  revert s i. induction l as [|z l IH]; intros s [|i] H; simpl in *;
    try discriminate.
  - injection H as ->. left. now rewrite Nat.add_0_r.
  - right. rewrite Nat.add_succ_r. apply (IH (Datatypes.S s) i H).
Qed.

Lemma mapM_raise_in {A B : Type} (f : A -> result B) (e : exn) (l : list A) :
  (forall x, In x l -> returns (f x) \/ f x = Raise e) ->
  Exists (fun x => f x = Raise e) l ->
  mapM f l = Raise e.
Proof.
  intros Hall Hex. induction l as [|x l IH]; [inversion Hex|].
  simpl. destruct (Hall x (or_introl eq_refl)) as [[y Hy] | Hx].
  - rewrite Hy. cbn [bind]. rewrite IH; [reflexivity | |].
    + intros z Hz. apply Hall. now right.
    + inversion Hex as [? ? Hh | ? ? Ht]; subst; [congruence | exact Ht].
  - now rewrite Hx.
Qed.

Section ForwardIndexing.

Import NormedSigmoidNLLLoss.

Context {T : Type} {S : Scalar T}.

Lemma py_index_wrap {A : Type} (l : list A) (i : Z) (d : A) :
  (- Z.of_nat (List.length l) <= i < Z.of_nat (List.length l))%Z ->
  py_index l i
  = Ok (nth (Z.to_nat (i mod Z.of_nat (List.length l))) l d).
Proof.
  intros Hi. unfold py_index. cbv zeta.
  set (n := Z.of_nat (List.length l)) in *.
  assert (Hj : ((if (i <? 0)%Z then (i + n)%Z else i) = i mod n)%Z).
  { destruct (Z.ltb_spec i 0).
    - symmetry. rewrite <- (Z.mod_add i 1 n) by lia.
      rewrite Z.mul_1_l. apply Z.mod_small. lia.
    - symmetry. apply Z.mod_small. lia. }
  rewrite Hj.
  assert (Hr : (0 <= i mod n < n)%Z) by (apply Z.mod_pos_bound; lia).
  destruct (Z.leb_spec 0 (i mod n)); [|lia].
  destruct (Z.ltb_spec (i mod n) n); [|lia].
  simpl. destruct (nth_error l (Z.to_nat (i mod n))) as [x|] eqn:E.
  - now rewrite (nth_error_nth _ _ d E).
  - apply nth_error_None in E. unfold n in *. lia.
Qed.

Lemma py_index_outside {A : Type} (l : list A) (i : Z) :
  ~ (- Z.of_nat (List.length l) <= i < Z.of_nat (List.length l))%Z ->
  py_index l i = Raise (IndexError "index out of range").
Proof.
  intros Hi. unfold py_index. cbv zeta.
  destruct (Z.ltb_spec i 0).
  - destruct (Z.leb_spec 0 (i + Z.of_nat (List.length l))); [|reflexivity].
    destruct (Z.ltb_spec (i + Z.of_nat (List.length l))
                (Z.of_nat (List.length l))); [lia | reflexivity].
  - destruct (Z.leb_spec 0 i); [|lia].
    destruct (Z.ltb_spec i (Z.of_nat (List.length l))); [lia | reflexivity].
Qed.

Lemma py_index_cases {A : Type} (l : list A) (i : Z) :
  returns (py_index l i) \/
  py_index l i = Raise (IndexError "index out of range").
Proof.
  unfold py_index. cbv zeta.
  destruct (_ && _)%bool; [|now right].
  destruct (nth_error l _); [left; eexists; reflexivity | now right].
Qed.

(** The picked entries, when there are no more targets than rows and every
    target is an index of its row, counting from the end when negative. *)
Lemma gather_wrap (d : T) (rows pre : matrix T) (target : list Z) :
  (List.length target <= List.length rows)%nat ->
  (forall row t, In (row, t) (combine rows target) ->
                 (- Z.of_nat (List.length row) <= t
                  < Z.of_nat (List.length row))%Z) ->
  mapM (fun it : nat * Z =>
          row <- py_index (pre ++ rows) (Z.of_nat (fst it)) ;;
          py_index row (snd it))
    (combine (seq (List.length pre) (List.length target)) target)
  = Ok (zip_with
          (fun row t => nth (Z.to_nat (t mod Z.of_nat (List.length row))) row d)
          rows target).
Proof.
  revert pre target.
  induction rows as [|r rows IH]; intros pre [|t target] Hlen Hrange;
    simpl in *; try reflexivity; try lia.
  rewrite (@py_index_wrap _ (pre ++ r :: rows)
             (Z.of_nat (List.length pre)) r)
    by (rewrite length_app; simpl; lia).
  rewrite Z.mod_small by (rewrite length_app; simpl; lia).
  rewrite Nat2Z.id, nth_middle. cbn [bind].
  rewrite (@py_index_wrap _ r t d) by (apply Hrange; now left).
  cbn [bind].
  specialize (IH (pre ++ [r])%list target).
  rewrite <- app_assoc, length_app in IH. simpl in IH.
  rewrite Nat.add_1_r in IH.
  rewrite IH; [reflexivity | lia |].
  intros row t' Hin. apply Hrange. now right.
Qed.

Lemma gather_of_rows (d : T) (x : matrix T) (target : list Z) :
  (List.length target <= List.length x)%nat ->
  (forall row t, In (row, t) (combine x target) ->
                 (- Z.of_nat (List.length row) <= t
                  < Z.of_nat (List.length row))%Z) ->
  gather x target
  = Ok (zip_with
          (fun row t => nth (Z.to_nat (t mod Z.of_nat (List.length row))) row d)
          x target).
Proof. intros Hlen Hrange. exact (@gather_wrap d x [] target Hlen Hrange). Qed.

Lemma log_normed_sigmoid_shape (N C : nat) (logit : matrix T) :
  has_shape N C logit -> has_shape N C (log_normed_sigmoid logit).
Proof.
  intros H. unfold log_normed_sigmoid. apply has_shape_map; [|exact H].
  intros row. cbv zeta. now rewrite !length_map.
Qed.

Lemma log_normed_sigmoid_firstn (k : nat) (logit : matrix T) :
  log_normed_sigmoid (firstn k logit) = firstn k (log_normed_sigmoid logit).
Proof. unfold log_normed_sigmoid. now rewrite firstn_map. Qed.

Lemma nth_error_shape {A : Type} (N C : nat) (m : matrix A) (i : nat)
  (row : list A) :
  has_shape N C m -> nth_error m i = Some row -> List.length row = C.
Proof.
  intros [_ Hrows] H. rewrite Forall_forall in Hrows.
  apply Hrows. eapply nth_error_In; eauto.
Qed.

(** The forward pass indexes the log-probabilities with
    [arange(len(target))] and [target].  With no more targets than rows and
    every target in [[-C, C)] it returns, a negative target counts classes
    from the end and only the first [len(target)] rows enter the mean; with
    more targets than rows, or a target outside [[-C, C)], it raises
    [IndexError]. *)
Theorem forward_target_indexing :
  forall (N C : nat) (logit : matrix T) (target : list Z),
    has_shape N C logit ->
    ((List.length target <= N)%nat /\
     Forall (fun t => (- Z.of_nat C <= t < Z.of_nat C)%Z) target ->
     returns (forward logit target) /\
     forward logit target
     = forward (firstn (List.length target) logit)
         (map (fun t => (t mod Z.of_nat C)%Z) target)) /\
    ((N < List.length target)%nat \/
     Exists (fun t => ~ (- Z.of_nat C <= t < Z.of_nat C)%Z) target ->
     exists msg, forward logit target = Raise (IndexError msg)).
Proof.
  intros N C logit target Hshape.
  pose proof (log_normed_sigmoid_shape Hshape) as Hx.
  set (x := log_normed_sigmoid logit) in *.
  split.
  - intros [Hlen Hrange].
    assert (Hg : forall (y : matrix T) (tg : list Z),
               has_shape (List.length y) C y ->
               (List.length tg <= List.length y)%nat ->
               Forall (fun t => (- Z.of_nat C <= t < Z.of_nat C)%Z) tg ->
               gather y tg
               = Ok (zip_with
                       (fun row t => nth (Z.to_nat (t mod Z.of_nat C)) row
                                       (lit 0))
                       y tg)).
    { intros y tg [_ Hy] Hl Hr. rewrite (@gather_of_rows (lit 0) y tg Hl).
      - apply f_equal. apply zip_with_ext_in. intros row t Hin.
        rewrite Forall_forall in Hy.
        now rewrite (Hy _ (in_combine_l _ _ _ _ Hin)).
      - intros row t Hin. rewrite Forall_forall in Hy, Hr.
        rewrite (Hy _ (in_combine_l _ _ _ _ Hin)).
        apply Hr. eapply in_combine_r; eauto. }
    assert (HxN : List.length x = N) by (now destruct Hx).
    unfold forward. fold x. rewrite log_normed_sigmoid_firstn. fold x.
    rewrite (Hg x target); [|rewrite HxN; exact Hx|lia|exact Hrange].
    rewrite (Hg (firstn (List.length target) x)
               (map (fun t => (t mod Z.of_nat C)%Z) target)).
    + cbn [bind]. split; [eexists; reflexivity|].
      do 3 apply f_equal.
      rewrite <- (length_map (fun t => (t mod Z.of_nat C)%Z) target) at 1.
      rewrite zip_with_firstn, zip_with_map_r.
      apply zip_with_ext_in. intros row t Hin.
      destruct (Nat.eq_dec C 0) as [-> | HC].
      * rewrite Forall_forall in Hrange.
        pose proof (Hrange _ (in_combine_r _ _ _ _ Hin)). simpl in *. lia.
      * now rewrite Z.mod_mod by lia.
    + split; [reflexivity|]. destruct Hx as [_ Hrows].
      apply Forall_forall. intros row Hin.
      rewrite Forall_forall in Hrows. apply Hrows.
      eapply in_firstn; eauto.
    + rewrite length_map, length_firstn. lia.
    + apply Forall_forall. intros t Hin. apply in_map_iff in Hin.
      destruct Hin as [t0 [<- Hin0]].
      rewrite Forall_forall in Hrange. pose proof (Hrange _ Hin0).
      assert (0 < Z.of_nat C)%Z by lia.
      pose proof (Z.mod_pos_bound t0 (Z.of_nat C)). lia.
  - intros Hbad. exists "index out of range".
    unfold forward. fold x.
    assert (Hr : gather x target = Raise (IndexError "index out of range")).
    { unfold gather. apply mapM_raise_in.
      - intros [i t] _. cbn [fst snd].
        destruct (py_index_cases x (Z.of_nat i)) as [[row ->] | ->];
          [|now right].
        cbn [bind]. apply py_index_cases.
      - apply Exists_exists.
        assert (HxN : List.length x = N) by (now destruct Hx).
        assert (Hpast : (N < List.length target)%nat ->
                        exists x0 : nat * Z,
                          In x0 (combine (seq 0 (List.length target)) target) /\
                          (row <- py_index x (Z.of_nat (fst x0)) ;;
                           py_index row (snd x0))
                          = Raise (IndexError "index out of range")).
        { intros Hlong. exists (N, nth N target 0%Z). split.
          - apply (in_combine_seq target 0 N).
            apply nth_error_nth'. exact Hlong.
          - cbn [fst snd]. rewrite py_index_outside; [reflexivity|].
            rewrite HxN. lia. }
        destruct Hbad as [Hlong | Hout]; [now apply Hpast|].
        destruct (Nat.lt_ge_cases N (List.length target)) as [Hlong | Hle];
          [now apply Hpast|].
        apply Exists_exists in Hout. destruct Hout as [t [Hin Ht]].
        apply In_nth_error in Hin. destruct Hin as [i Hi].
        assert (Hil : (i < List.length target)%nat)
          by (apply nth_error_Some; congruence).
        exists (i, t). split.
        + apply (in_combine_seq target 0 i Hi).
        + cbn [fst snd].
          rewrite (@py_index_wrap _ x (Z.of_nat i) []) by lia.
          cbn [bind].
          rewrite py_index_outside; [reflexivity|].
          rewrite Z.mod_small by lia. rewrite Nat2Z.id.
          assert (Hrow : List.length (nth i x []) = C).
          { destruct Hx as [_ Hrows]. rewrite Forall_forall in Hrows.
            apply Hrows. apply nth_In. lia. }
          now rewrite Hrow. }
    now rewrite Hr.
Qed.

End ForwardIndexing.

(** ** The Beta fit of the sigmoid product *)

Lemma entrywise_impl {A B : Type} (P Q : A -> B -> Prop)
  (a : matrix A) (b : matrix B) :
  (forall x y, P x y -> Q x y) -> entrywise P a b -> entrywise Q a b.
Proof.
  intros H Hab. unfold entrywise in *.
  eapply Forall2_impl; [|exact Hab]. intros ra rb Hr.
  eapply Forall2_impl; [|exact Hr]. exact H.
Qed.

Section RealProductFit.

Local Open Scope R_scope.

Variable ndtr_R : R -> R.
Variable owens_t_R : R -> R -> R.

Let RS : Scalar R := R_scalar ndtr_R owens_t_R.

#[local] Existing Instance RS.

Ltac real_product_ops :=
  change (@fsub R RS) with Rminus; change (@fdiv R RS) with Rdiv;
  change (@fmul R RS) with Rmult; change (@fadd R RS) with Rplus;
  change (@fsqrt R RS) with R_sqrt.sqrt;
  change (@sigmoid R RS) with sigmoid_R;
  change (@lit R RS) with Q2R.


Lemma LAMBDA_0_product : @LAMBDA_0 R RS = PI / 8.
Proof. apply LAMBDA_0_R. Qed.

Lemma sqrt_gt_1 (x : R) : 1 < x -> 1 < R_sqrt.sqrt x.
Proof.
  intros H. rewrite <- sqrt_1 at 1. apply sqrt_lt_1_alt. lra.
Qed.

Lemma product_scale_gt_1 (v : R) :
  0 < v -> 1 < R_sqrt.sqrt (1 + PI / 8 * v).
Proof.
  intros Hv. apply sqrt_gt_1. pose proof PI_RGT_0.
  assert (0 < PI / 8 * v) by (apply Rmult_lt_0_compat; lra). lra.
Qed.

(** Both moments of the sigmoid product, entry by entry. *)
Lemma sigmoid_product_moments_mk (N C : nat) (mean var : matrix R) :
  has_shape N C mean -> has_shape N C var ->
  gaussian_pushforward_mean mean var "logit" "sigmoid_product" false
  = Ok (mk (rows2 mean var) cols2
          (fun _ j =>
             sigmoid_R (fst j / R_sqrt.sqrt (1 + PI / 8 * snd j)))) /\
  gaussian_pushforward_second_moment mean var "logit" "sigmoid_product"
  = Ok (mk (rows2 mean var) cols2
          (fun _ j =>
             let s := sigmoid_R (fst j / R_sqrt.sqrt (1 + PI / 8 * snd j)) in
             s - s * (1 - s) / R_sqrt.sqrt (1 + PI / 8 * snd j))).
Proof.
  intros Hm Hv.
  pose proof (mk_fst Hm Hv) as Em. pose proof (mk_snd Hm Hv) as Ev.
  pose proof (gaussian_pushforward_mean_mk (rows2 mean var) cols2
                (fun _ j => fst j) (fun _ j => snd j) "logit"
                "sigmoid_product" false (scale := LAMBDA_0) eq_refl) as H1.
  pose proof (gaussian_pushforward_second_moment_product_mk
                (rows2 mean var) cols2
                (fun _ j => fst j) (fun _ j => snd j)) as H2.
  change (py_in "normcdf" "sigmoid_product") with false in H1.
  change (py_in "sigmoid" "sigmoid_product") with true in H1.
  cbv iota in H1. rewrite <- Em, <- Ev in H1, H2.
  rewrite H1, H2. split; apply f_equal; apply mk_ext_in; intros r _ j _;
    cbv zeta; unfold spec_sigmoid_logit; real_product_ops;
    rewrite Q2R_1, LAMBDA_0_product; reflexivity.
Qed.

(** With positive variances the second moment of the sigmoid product lies
    strictly between the square of the mean and the mean. *)
Lemma sigmoid_product_moments_strict (N C : nat) (mean var : matrix R) :
  has_shape N C mean -> has_shape N C var ->
  Forall (Forall (fun v => 0 < v)) var ->
  exists M1 M2 : matrix R,
    gaussian_pushforward_mean mean var "logit" "sigmoid_product" false
    = Ok M1 /\
    gaussian_pushforward_second_moment mean var "logit" "sigmoid_product"
    = Ok M2 /\
    entrywise (fun s m2 => s * s < m2 < s) M1 M2.
Proof.
  intros Hm Hv Hpos.
  destruct (sigmoid_product_moments_mk Hm Hv) as [H1 H2].
  eexists. eexists. split; [exact H1|]. split; [exact H2|].
  apply entrywise_mk. intros r Hr j Hj. cbv zeta.
  pose proof (in_cols2_snd _ _ _ Hpos Hr Hj) as Hj0. simpl in Hj0.
  pose proof (product_scale_gt_1 Hj0) as Hq.
  set (q := R_sqrt.sqrt _) in *. clearbody q.
  destruct (sigmoid_R_bounds (fst j / q)) as [Hs0 Hs1].
  set (s := sigmoid_R _) in *. clearbody s.
  assert (Ht : 0 < / q < 1).
  { split; [apply Rinv_0_lt_compat; lra|].
    rewrite <- Rinv_1. apply Rinv_lt_contravar; lra. }
  unfold Rdiv. set (t := / q) in *. clearbody t.
  assert (Ha : 0 < s * (1 - s)) by (apply Rmult_lt_0_compat; lra).
  assert (Hat : 0 < s * (1 - s) * t) by (apply Rmult_lt_0_compat; lra).
  assert (Hat' : s * (1 - s) * t < s * (1 - s)).
  { rewrite <- (Rmult_1_r (s * (1 - s))) at 2.
    apply Rmult_lt_compat_l; lra. }
  split; nra.
Qed.

(** With positive variances the moments of the sigmoid product are positive
    and the Dirichlet fit is defined on them. *)
Lemma sigmoid_product_fit_defined (N C : nat) (mean var : matrix R) :
  has_shape N C mean -> has_shape N C var ->
  Forall (Forall (fun v => 0 < v)) var ->
  exists M1 M2 : matrix R,
    gaussian_pushforward_mean mean var "logit" "sigmoid_product" false
    = Ok M1 /\
    gaussian_pushforward_second_moment mean var "logit" "sigmoid_product"
    = Ok M2 /\
    Forall (Forall (fun m => 0 < m)) M1 /\
    dirichlet_fit_defined M1 M2.
Proof.
  intros Hm Hv Hpos.
  destruct (sigmoid_product_moments_mk Hm Hv) as [H1 H2].
  eexists. eexists. split; [exact H1|]. split; [exact H2|]. split.
  - apply Forall_mk. intros r _ j _. apply sigmoid_R_pos.
  - unfold dirichlet_fit_defined, mk. apply Forall2_map_same. intros r Hr.
    assert (Hsum : 1 <= Rmax
                          (Rsum (map (fun j : R * R =>
                                        sigmoid_R
                                          (fst j
                                           / R_sqrt.sqrt (1 + PI / 8 * snd j)))
                                   (cols2 r))) 1) by apply Rmax_r.
    set (S1 := Rmax _ 1) in *. clearbody S1.
    apply Forall2_map_same. intros j Hj. cbv zeta.
    pose proof (in_cols2_snd _ _ _ Hpos Hr Hj) as Hj0. simpl in Hj0.
    pose proof (product_scale_gt_1 Hj0) as Hq.
    set (q := R_sqrt.sqrt _) in *. clearbody q.
    destruct (sigmoid_R_bounds (fst j / q)) as [Hs0 Hs1].
    set (s := sigmoid_R _) in *. clearbody s.
    assert (Ht : 0 < / q < 1).
    { split; [apply Rinv_0_lt_compat; lra|].
      rewrite <- Rinv_1. apply Rinv_lt_contravar; lra. }
    unfold Rdiv. set (t := / q) in *. clearbody t.
    assert (Ha : 0 < s * (1 - s)) by (apply Rmult_lt_0_compat; lra).
    assert (Hat : 0 < s * (1 - s) * t) by (apply Rmult_lt_0_compat; lra).
    assert (Hden : 0 < s - s * (1 - s) * t - s * s).
    { replace (s - s * (1 - s) * t - s * s) with (s * (1 - s) * (1 - t))
        by ring.
      apply Rmult_lt_0_compat; lra. }
    assert (Hnum : 0 < s * S1 - (s - s * (1 - s) * t)).
    { assert (s * 1 <= s * S1) by (apply Rmult_le_compat_l; lra). lra. }
    split; [lra|].
    apply Rmult_lt_0_compat; [exact Hnum | now apply Rinv_0_lt_compat].
Qed.


End RealProductFit.

(** ** The sampling strategies

    [torch.randn] is the only source of randomness: the values it draws are
    a parameter [draw] of the model, [draw i j k] the value at index
    [(i, j, k)] of the tensor it returns. *)

Section Sampling.

Context {T : Type} {S : Scalar T}.

(** [torch.randn(n, s, c)]. *)
Definition randn (draw : nat -> nat -> nat -> T) (n s c : nat)
  : list (matrix T) :=
  map (fun i => map (fun j => map (fun k => draw i j k) (seq 0 c)) (seq 0 s))
    (seq 0 n).

(** [x.unsqueeze(1)]. *)
Definition unsqueeze1 (x : matrix T) : list (matrix T) :=
  map (fun row => [row]) x.

(** An elementwise binary operation on two 3-D tensors. *)
Definition tensor3_map2 (f : T -> T -> T) (a b : list (matrix T))
  : result (list (matrix T)) :=
  broadcast (broadcast (broadcast (fun x y => Ok (f x y)))) a b.

(** [torch.randn(...) * var.sqrt().unsqueeze(1) + mean.unsqueeze(1)], the
    expression the three sampling strategies start with. *)
Definition mc_logit_samples (draw : nat -> nat -> nat -> T)
  (mean var : matrix T) (num_mc_samples : nat) : result (list (matrix T)) :=
  scaled <- tensor3_map2 fmul
              (randn draw (List.length mean) num_mc_samples (shape1 mean))
              (unsqueeze1 (tensor_map fsqrt var)) ;;
  tensor3_map2 fadd scaled (unsqueeze1 mean).

(** [x.sum(dim=-1, keepdim=True)] of a 3-D tensor. *)
Definition sum_keepdim3 (x : list (matrix T)) : list (matrix T) :=
  map (map (fun row => [tsum row])) x.

(** [x.mean(dim=1)] of a 3-D tensor; a slice without samples is the empty
    list and reads as 0 columns. *)
Definition mean_dim1 (x : list (matrix T)) : matrix T :=
  map (fun samples =>
         map (fun k =>
                fdiv (tsum (map (fun row => nth k row (lit 0)) samples))
                  (of_count (List.length samples)))
           (seq 0 (shape1 samples)))
    x.

Definition softmax_mc (draw : nat -> nat -> nat -> T) (mean var : matrix T)
  (num_mc_samples : nat) (return_samples : bool)
  : result (matrix T * option (list (matrix T))) :=
  logit_samples <- mc_logit_samples draw mean var num_mc_samples ;;
  let prob_mean := mean_dim1 (map (map softmax) logit_samples) in
  Ok (prob_mean, if return_samples then Some logit_samples else None).

Definition logit_link_mc (draw : nat -> nat -> nat -> T) (mean var : matrix T)
  (num_mc_samples : nat) (return_samples : bool)
  : result (matrix T * option (list (matrix T))) :=
  logit_samples <- mc_logit_samples draw mean var num_mc_samples ;;
  let prob := map (tensor_map sigmoid) logit_samples in
  prob <- tensor3_map2 fdiv prob (sum_keepdim3 prob) ;;
  let prob_mean := mean_dim1 prob in
  Ok (prob_mean, if return_samples then Some logit_samples else None).

Definition probit_link_mc (draw : nat -> nat -> nat -> T) (mean var : matrix T)
  (num_mc_samples : nat) (return_samples : bool)
  : result (matrix T * option (list (matrix T))) :=
  logit_samples <- mc_logit_samples draw mean var num_mc_samples ;;
  let prob := map (tensor_map ndtr) logit_samples in
  prob <- tensor3_map2 fdiv prob (sum_keepdim3 prob) ;;
  let prob_mean := mean_dim1 prob in
  Ok (prob_mean, if return_samples then Some logit_samples else None).

End Sampling.

Lemma mapM_map {A A' B : Type} (f : A' -> result B) (g : A -> A')
  (l : list A) :
  mapM f (map g l) = mapM (fun x => f (g x)) l.
Proof.
  induction l as [|x l IH]; simpl; [reflexivity | now rewrite IH].
Qed.

Lemma broadcast_right1_any {A B C : Type} (g : A -> B -> result C)
  (xs : list A) (y : B) :
  broadcast g xs [y] = mapM (fun x => g x y) xs.
Proof.
  unfold broadcast. destruct xs as [|x1 [|x2 xs]]; simpl; try reflexivity;
    destruct (g x1 y); reflexivity.
Qed.

Lemma map_seq_nth {A B : Type} (F : A -> B) (l : list A) (d : A) :
  map (fun k => F (nth k l d)) (seq 0 (List.length l)) = map F l.
Proof.
  assert (H : forall s, map (fun k => F (nth (k - s) l d))
                          (seq s (List.length l)) = map F l).
  { induction l as [|x l IH]; intros s; simpl; [reflexivity|].
    rewrite Nat.sub_diag. f_equal. rewrite <- (IH (Datatypes.S s)).
    apply map_ext_in. intros k Hk. apply in_seq in Hk.
    replace (k - s)%nat with (Datatypes.S (k - Datatypes.S s)) by lia.
    reflexivity. }
  rewrite <- (H 0%nat). apply map_ext. intros k. now rewrite Nat.sub_0_r.
Qed.

(** 3-D tensors indexed by the rows [L], the samples [mid] and, within row
    [r], the columns [cols r]. *)
Section Indexed3.

Context {T : Type} {S : Scalar T}.
Context {I J K : Type}.
Variable L : list I.
Variable mid : list J.
Variable cols : I -> list K.

Definition mk3 (e : I -> J -> K -> T) : list (matrix T) :=
  map (fun r => map (fun j => map (e r j) (cols r)) mid) L.

Lemma tensor3_map2_unsqueeze (f : T -> T -> T) (e : I -> J -> K -> T)
  (y : I -> K -> T) :
  tensor3_map2 f (mk3 e) (unsqueeze1 (mk L cols y))
  = Ok (mk3 (fun r j k => f (e r j k) (y r k))).
Proof.
  unfold tensor3_map2, mk3, unsqueeze1, mk. rewrite map_map.
  apply broadcast_rows. intros r _.
  rewrite broadcast_right1_any, mapM_map.
  apply mapM_ok_in. intros j _. apply broadcast_map.
Qed.

Lemma tensor3_map2_keepdim (f : T -> T -> T) (e : I -> J -> K -> T)
  (g : list T -> T) :
  tensor3_map2 f (mk3 e) (map (map (fun row => [g row])) (mk3 e))
  = Ok (mk3 (fun r j k => f (e r j k) (g (map (e r j) (cols r))))).
Proof.
  unfold tensor3_map2, mk3. rewrite map_map.
  apply broadcast_rows. intros r _. rewrite map_map.
  apply broadcast_rows. intros j _.
  rewrite broadcast_right1. now rewrite map_map.
Qed.

Lemma map_mk3 (g : T -> T) (e : I -> J -> K -> T) :
  map (tensor_map g) (mk3 e) = mk3 (fun r j k => g (e r j k)).
Proof.
  unfold mk3, tensor_map. rewrite map_map. apply map_ext. intros r.
  rewrite map_map. apply map_ext. intros j. now rewrite map_map.
Qed.

Lemma map_rows_mk3 (g : list T -> list T) (e : I -> J -> K -> T) :
  map (map g) (mk3 e)
  = map (fun r => map (fun j => g (map (e r j) (cols r))) mid) L.
Proof.
  unfold mk3. rewrite map_map. apply map_ext. intros r. now rewrite map_map.
Qed.

Lemma mean_dim1_mk3 (d : K) (e : I -> J -> K -> T) :
  mid <> [] ->
  mean_dim1 (mk3 e)
  = mk L cols
      (fun r k => fdiv (tsum (map (fun j => e r j k) mid))
                    (of_count (List.length mid))).
Proof.
  intros Hmid. unfold mean_dim1, mk3, mk. rewrite map_map.
  apply map_ext. intros r. rewrite length_map.
  assert (Hs : shape1 (map (fun j => map (e r j) (cols r)) mid)
               = List.length (cols r)).
  { destruct mid; [congruence|]. simpl. now rewrite length_map. }
  rewrite Hs.
  rewrite <- (map_seq_nth
                (fun k => fdiv (tsum (map (fun j => e r j k) mid))
                            (of_count (List.length mid)))
                (cols r) d).
  apply map_ext_in. intros k Hk. apply in_seq in Hk.
  f_equal. f_equal. rewrite map_map. apply map_ext. intros j.
  rewrite (nth_indep _ (lit 0) (e r j d)) by (rewrite length_map; lia).
  apply map_nth.
Qed.

End Indexed3.

(** The rows of two matrices of one shape with their batch index, and
    within a row the entries with their class index. *)
Definition rows3 {A B : Type} (a : matrix A) (b : matrix B)
  : list (nat * (list A * list B)) :=
  combine (seq 0 (List.length a)) (combine a b).

Definition cols3 {A B : Type} (r : nat * (list A * list B))
  : list (nat * (A * B)) :=
  combine (seq 0 (List.length (fst (snd r))))
    (combine (fst (snd r)) (snd (snd r))).

Lemma rows3_shape {A B : Type} (N C : nat) (a : matrix A) (b : matrix B)
  (r : nat * (list A * list B)) :
  has_shape N C a -> has_shape N C b -> In r (rows3 a b) ->
  List.length (fst (snd r)) = C /\ List.length (snd (snd r)) = C.
Proof.
  intros Ha Hb Hin. unfold rows3 in Hin.
  apply (@in_rows2_length _ _ N C a b (snd r) Ha Hb).
  destruct r as [i p]. eapply in_combine_r; eauto.
Qed.

Lemma mk3_fst {A B : Type} (N C : nat) (a : matrix A) (b : matrix B) :
  has_shape N C a -> has_shape N C b ->
  a = mk (rows3 a b) cols3 (fun _ k => fst (snd k)).
Proof.
  intros Ha Hb.
  pose proof (fun r => @rows3_shape _ _ N C a b r Ha Hb) as Hlen.
  assert (E : map (fun p : nat * (list A * list B) => fst (snd p)) (rows3 a b)
              = a).
  { unfold rows3. rewrite <- (map_map snd fst).
    rewrite map_snd_combine.
    - apply map_fst_combine. destruct Ha as [-> _]. now destruct Hb.
    - rewrite length_seq, length_combine.
      destruct Ha as [-> _]. destruct Hb as [-> _]. lia. }
  rewrite <- E at 1. unfold mk. apply map_ext_in. intros r Hr.
  destruct (Hlen r Hr) as [H1 H2]. unfold cols3.
  rewrite <- (map_map snd fst).
  rewrite map_snd_combine by (rewrite length_seq, length_combine; lia).
  symmetry. apply map_fst_combine. congruence.
Qed.

Lemma mk3_snd {A B : Type} (N C : nat) (a : matrix A) (b : matrix B) :
  has_shape N C a -> has_shape N C b ->
  b = mk (rows3 a b) cols3 (fun _ k => snd (snd k)).
Proof.
  intros Ha Hb.
  pose proof (fun r => @rows3_shape _ _ N C a b r Ha Hb) as Hlen.
  assert (E : map (fun p : nat * (list A * list B) => snd (snd p)) (rows3 a b)
              = b).
  { unfold rows3. rewrite <- (map_map snd snd).
    rewrite map_snd_combine.
    - apply map_snd_combine. destruct Ha as [-> _]. now destruct Hb.
    - rewrite length_seq, length_combine.
      destruct Ha as [-> _]. destruct Hb as [-> _]. lia. }
  rewrite <- E at 1. unfold mk. apply map_ext_in. intros r Hr.
  destruct (Hlen r Hr) as [H1 H2]. unfold cols3.
  rewrite <- (map_map snd snd).
  rewrite map_snd_combine by (rewrite length_seq, length_combine; lia).
  symmetry. apply map_snd_combine. congruence.
Qed.

Section SamplingIndexed.

Context {T : Type} {S : Scalar T}.

(** The logit sample of class [k] of row [r] in sample [j]. *)
Definition logit_sample (draw : nat -> nat -> nat -> T)
  (r : nat * (list T * list T)) (j : nat) (k : nat * (T * T)) : T :=
  fadd (fmul (draw (fst r) j (fst k)) (fsqrt (snd (snd k)))) (fst (snd k)).

Lemma randn_mk3 (draw : nat -> nat -> nat -> T) (N C : nat)
  (mean var : matrix T) (num_mc_samples : nat) :
  has_shape N C mean -> has_shape N C var ->
  randn draw (List.length mean) num_mc_samples (shape1 mean)
  = mk3 (rows3 mean var) (seq 0 num_mc_samples) cols3
      (fun r j k => draw (fst r) j (fst k)).
Proof.
  intros Hm Hv.
  pose proof (fun r => @rows3_shape _ _ N C mean var r Hm Hv) as Hlen.
  assert (Hl : List.length (seq 0 (List.length mean))
               = List.length (combine mean var)).
  { rewrite length_seq, length_combine.
    destruct Hm as [-> _]. destruct Hv as [-> _]. lia. }
  unfold randn, mk3.
  rewrite <- (map_fst_combine (seq 0 (List.length mean)) (combine mean var) Hl)
    at 1.
  fold (rows3 mean var). rewrite map_map. apply map_ext_in. intros r Hr.
  destruct (Hlen r Hr) as [H1 H2].
  assert (Hs : shape1 mean = C).
  { destruct mean as [|row mean0].
    - destruct Hr.
    - destruct Hm as [_ Hrows]. inversion Hrows as [|? ? H3 H4].
      exact H3. }
  rewrite Hs. apply map_ext. intros j. unfold cols3.
  rewrite <- (map_map fst (fun k => draw (fst r) j k)).
  rewrite map_fst_combine by (rewrite length_seq, length_combine; lia).
  now rewrite H1.
Qed.

Lemma mc_logit_samples_mk3 (draw : nat -> nat -> nat -> T) (N C : nat)
  (mean var : matrix T) (num_mc_samples : nat) :
  has_shape N C mean -> has_shape N C var ->
  mc_logit_samples draw mean var num_mc_samples
  = Ok (mk3 (rows3 mean var) (seq 0 num_mc_samples) cols3
          (logit_sample draw)).
Proof.
  intros Hm Hv. unfold mc_logit_samples.
  rewrite (randn_mk3 draw num_mc_samples Hm Hv).
  pose proof (mk3_fst Hm Hv) as Em. pose proof (mk3_snd Hm Hv) as Ev.
  set (L := rows3 mean var) in *.
  rewrite Ev at 1. rewrite tensor_map_mk, tensor3_map2_unsqueeze.
  cbn [bind]. rewrite Em at 1. rewrite tensor3_map2_unsqueeze.
  reflexivity.
Qed.

(** The class probabilities of one sample: the activation of the logit
    sample, normalized over the classes. *)
Definition mc_probability (act : T -> T) (draw : nat -> nat -> nat -> T)
  (r : nat * (list T * list T)) (j : nat) (k : nat * (T * T)) : T :=
  fdiv (act (logit_sample draw r j k))
    (tsum (map (fun k' => act (logit_sample draw r j k')) (cols3 r))).

(** The mean over the samples. *)
Definition mc_mean (act : T -> T) (draw : nat -> nat -> nat -> T)
  (num_mc_samples : nat) (r : nat * (list T * list T)) (k : nat * (T * T))
  : T :=
  fdiv (tsum (map (fun j => mc_probability act draw r j k)
                (seq 0 num_mc_samples)))
    (of_count num_mc_samples).

Lemma softmax_mc_mk (draw : nat -> nat -> nat -> T) (N C : nat)
  (mean var : matrix T) (num_mc_samples : nat) (return_samples : bool) :
  (1 <= num_mc_samples)%nat ->
  has_shape N C mean -> has_shape N C var ->
  softmax_mc draw mean var num_mc_samples return_samples
  = Ok (mk (rows3 mean var) cols3 (mc_mean fexp draw num_mc_samples),
        if return_samples
        then Some (mk3 (rows3 mean var) (seq 0 num_mc_samples) cols3
                     (logit_sample draw))
        else None).
Proof.
  intros HS Hm Hv. unfold softmax_mc.
  rewrite (mc_logit_samples_mk3 draw num_mc_samples Hm Hv). cbn [bind].
  apply f_equal. apply f_equal2; [|reflexivity].
  rewrite map_rows_mk3.
  assert (E : map (fun r : nat * (list T * list T) =>
                     map (fun j =>
                            softmax (map (logit_sample draw r j) (cols3 r)))
                       (seq 0 num_mc_samples))
                (rows3 mean var)
              = mk3 (rows3 mean var) (seq 0 num_mc_samples) cols3
                  (mc_probability fexp draw)).
  { unfold mk3. apply map_ext. intros r. apply map_ext. intros j.
    unfold softmax, mc_probability. cbv zeta. now rewrite !map_map. }
  rewrite E.
  rewrite (@mean_dim1_mk3 _ _ _ _ _ _ _ _ (0%nat, (lit 0, lit 0))).
  - unfold mc_mean. now rewrite length_seq.
  - destruct num_mc_samples; [lia | discriminate].
Qed.

Lemma normalized_mc_mk (act : T -> T) (draw : nat -> nat -> nat -> T)
  (N C : nat) (mean var : matrix T) (num_mc_samples : nat)
  (return_samples : bool) :
  (1 <= num_mc_samples)%nat ->
  has_shape N C mean -> has_shape N C var ->
  (logit_samples <- mc_logit_samples draw mean var num_mc_samples ;;
   let prob := map (tensor_map act) logit_samples in
   prob <- tensor3_map2 fdiv prob (sum_keepdim3 prob) ;;
   let prob_mean := mean_dim1 prob in
   Ok (prob_mean, if return_samples then Some logit_samples else None))
  = Ok (mk (rows3 mean var) cols3 (mc_mean act draw num_mc_samples),
        if return_samples
        then Some (mk3 (rows3 mean var) (seq 0 num_mc_samples) cols3
                     (logit_sample draw))
        else None).
Proof.
  intros HS Hm Hv.
  rewrite (mc_logit_samples_mk3 draw num_mc_samples Hm Hv). cbn [bind].
  cbv zeta. rewrite map_mk3. unfold sum_keepdim3.
  rewrite tensor3_map2_keepdim. cbn [bind].
  apply f_equal. apply f_equal2; [|reflexivity].
  rewrite (@mean_dim1_mk3 _ _ _ _ _ _ _ _ (0%nat, (lit 0, lit 0))).
  - unfold mc_mean, mc_probability. now rewrite length_seq.
  - destruct num_mc_samples; [lia | discriminate].
Qed.

End SamplingIndexed.

Lemma in_cols3_snd {A B : Type} (Q : B -> Prop) (a : matrix A) (b : matrix B)
  (r : nat * (list A * list B)) (k : nat * (A * B)) :
  Forall (Forall Q) b -> In r (rows3 a b) -> In k (cols3 r) ->
  Q (snd (snd k)).
Proof.
  intros HQ Hr Hk. destruct r as [i [ra rb]]. destruct k as [c [x y]].
  unfold rows3 in Hr. unfold cols3 in Hk. simpl in *.
  pose proof (in_combine_r _ _ _ _ Hr) as Hr'.
  pose proof (in_combine_r _ _ _ _ Hk) as Hk'.
  rewrite Forall_forall in HQ.
  pose proof (HQ _ (in_combine_r _ _ _ _ Hr')) as Hrow.
  rewrite Forall_forall in Hrow. apply Hrow.
  eapply in_combine_r; eauto.
Qed.

Lemma has_shape_mk3 {T A B : Type} (N C : nat) (a : matrix A)
  (b : matrix B) (e : nat * (list A * list B) -> nat * (A * B) -> T) :
  has_shape N C a -> has_shape N C b ->
  has_shape N C (mk (rows3 a b) cols3 e).
Proof.
  intros Ha Hb.
  pose proof (fun r => @rows3_shape _ _ N C a b r Ha Hb) as Hlen.
  split.
  - unfold mk, rows3. rewrite length_map, length_combine, length_seq.
    rewrite length_combine. destruct Ha as [-> _]. destruct Hb as [-> _]. lia.
  - unfold mk. apply Forall_forall. intros row Hin.
    apply in_map_iff in Hin. destruct Hin as [r [<- Hr]].
    destruct (Hlen r Hr) as [H1 H2]. unfold cols3.
    rewrite length_map, length_combine, length_seq, length_combine. lia.
Qed.

Section SamplingShapes.

Context {T : Type} {S : Scalar T}.

(** Whatever values [torch.randn] draws, on inputs of one shape [N,C] and
    with one sample or more the three sampling strategies return: the logit
    samples are [N] blocks of [num_mc_samples] rows of [C] entries, the
    entry of class [k] of row [i] in sample [j] being
    [draw i j k * sqrt(var[i][k]) + mean[i][k]]; each predictive is an
    [N,C] matrix; and the samples are returned with it exactly when
    [return_samples] is set. *)
Theorem sampling_strategies_return :
  forall (draw : nat -> nat -> nat -> T) (N C num_mc_samples : nat)
         (mean var : matrix T) (return_samples : bool),
    (1 <= num_mc_samples)%nat ->
    has_shape N C mean -> has_shape N C var ->
    exists (samples : list (matrix T)) (P1 P2 P3 : matrix T),
      mc_logit_samples draw mean var num_mc_samples = Ok samples /\
      samples = mk3 (rows3 mean var) (seq 0 num_mc_samples) cols3
                  (logit_sample draw) /\
      List.length samples = N /\
      Forall (has_shape num_mc_samples C) samples /\
      softmax_mc draw mean var num_mc_samples return_samples
      = Ok (P1, if return_samples then Some samples else None) /\
      logit_link_mc draw mean var num_mc_samples return_samples
      = Ok (P2, if return_samples then Some samples else None) /\
      probit_link_mc draw mean var num_mc_samples return_samples
      = Ok (P3, if return_samples then Some samples else None) /\
      has_shape N C P1 /\ has_shape N C P2 /\ has_shape N C P3.
Proof.
  intros draw N C num_mc_samples mean var rs HS Hm Hv.
  pose proof (fun r => @rows3_shape _ _ N C mean var r Hm Hv) as Hlen.
  assert (Hcols : forall r, In r (rows3 mean var) ->
                  List.length (cols3 r) = C).
  { intros r Hr. destruct (Hlen r Hr) as [H1 H2]. unfold cols3.
    rewrite length_combine, length_seq, length_combine. lia. }
  eexists. eexists. eexists. eexists.
  split; [exact (mc_logit_samples_mk3 draw num_mc_samples Hm Hv)|].
  split; [reflexivity|]. split; [|split].
  - unfold mk3, rows3. rewrite length_map, length_combine, length_seq.
    rewrite length_combine. destruct Hm as [-> _]. destruct Hv as [-> _]. lia.
  - unfold mk3. apply Forall_forall. intros smp Hin.
    apply in_map_iff in Hin. destruct Hin as [r [<- Hr]]. split.
    + now rewrite length_map, length_seq.
    + apply Forall_forall. intros row Hrow. apply in_map_iff in Hrow.
      destruct Hrow as [j [<- _]]. rewrite length_map. now apply Hcols.
  - split; [exact (softmax_mc_mk draw rs HS Hm Hv)|].
    split; [exact (normalized_mc_mk sigmoid draw rs HS Hm Hv)|].
    split; [exact (normalized_mc_mk ndtr draw rs HS Hm Hv)|].
    split; [|split]; now apply has_shape_mk3.
Qed.

End SamplingShapes.

Section RealSampling.

Local Open Scope R_scope.

Variable ndtr_R : R -> R.
Variable owens_t_R : R -> R -> R.

Let RS : Scalar R := R_scalar ndtr_R owens_t_R.

#[local] Existing Instance RS.

Ltac real_sampling_ops :=
  change (@fdiv R RS) with Rdiv; change (@fmul R RS) with Rmult;
  change (@fadd R RS) with Rplus; change (@fsqrt R RS) with R_sqrt.sqrt;
  change (@fexp R RS) with Rtrigo_def.exp;
  change (@sigmoid R RS) with sigmoid_R; change (@ndtr R RS) with ndtr_R;
  change (@of_count R RS) with INR.

Lemma tsum_sampling (l : list R) : @tsum R RS l = Rsum l.
Proof. apply tsum_Rsum. Qed.

Lemma Rsum_const {A : Type} (c : R) (l : list A) :
  Rsum (map (fun _ => c) l) = INR (List.length l) * c.
Proof.
  induction l as [|x l IH].
  - simpl. ring.
  - change (List.length (x :: l)) with (Datatypes.S (List.length l)).
    rewrite S_INR. simpl. rewrite IH. ring.
Qed.

Lemma Rsum_plus_map {A : Type} (f g : A -> R) (l : list A) :
  Rsum (map (fun a => f a + g a) l) = Rsum (map f l) + Rsum (map g l).
Proof. induction l as [|x l IH]; simpl; [ring | rewrite IH; ring]. Qed.

Lemma Rsum_swap {A B : Type} (f : A -> B -> R) (la : list A) (lb : list B) :
  Rsum (map (fun a => Rsum (map (fun b => f a b) lb)) la)
  = Rsum (map (fun b => Rsum (map (fun a => f a b) la)) lb).
Proof.
  induction la as [|a la IH]; simpl.
  - rewrite Rsum_const. ring.
  - rewrite IH. now rewrite <- Rsum_plus_map.
Qed.

Lemma Rsum_map_pos {A : Type} (f : A -> R) (l : list A) :
  l <> [] -> (forall a, In a l -> 0 < f a) -> 0 < Rsum (map f l).
Proof.
  intros Hne Hpos. apply Rsum_pos.
  - destruct l; [congruence | discriminate].
  - apply Forall_forall. intros y Hy. apply in_map_iff in Hy.
    destruct Hy as [a [<- Ha]]. now apply Hpos.
Qed.

Lemma Rsum_div_map {A : Type} (f : A -> R) (c : R) (l : list A) :
  Rsum (map (fun a => f a / c) l) = Rsum (map f l) / c.
Proof.
  induction l as [|x l IH]; simpl.
  - unfold Rdiv. ring.
  - rewrite IH. unfold Rdiv. ring.
Qed.

(** The mean over the samples of the normalized activations of one row: a
    vector of positive numbers that sum to 1. *)
Lemma mc_mean_row (act : R -> R) (draw : nat -> nat -> nat -> R)
  (num_mc_samples : nat) (r : nat * (list R * list R)) :
  (forall x, 0 < act x) ->
  (1 <= num_mc_samples)%nat -> cols3 r <> [] ->
  Rsum (map (@mc_mean R RS act draw num_mc_samples r) (cols3 r)) = 1 /\
  Forall (fun p => 0 < p) (map (@mc_mean R RS act draw num_mc_samples r) (cols3 r)).
Proof.
  intros Hact HS Hne.
  assert (HS' : 0 < INR num_mc_samples) by (apply lt_0_INR; lia).
  assert (Hden : forall j,
             0 < Rsum (map (fun k' => act (@logit_sample R RS draw r j k'))
                         (cols3 r))).
  { intros j. apply Rsum_map_pos; [exact Hne|]. intros k _. apply Hact. }
  assert (Hseq : seq 0 num_mc_samples <> [])
    by (destruct num_mc_samples; [lia | discriminate]).
  unfold mc_mean, mc_probability. real_sampling_ops. split.
  - rewrite Rsum_div_map.
    replace (Rsum _) with (INR num_mc_samples); [field; lra|].
    symmetry.
    erewrite map_ext; [|intros k; rewrite tsum_sampling; reflexivity].
    rewrite Rsum_swap.
    erewrite map_ext_in.
    2:{ intros j _. rewrite tsum_sampling.
        rewrite <- (map_map (fun k => act (@logit_sample R RS draw r j k))
                      (fun y => y / Rsum (map (fun k' =>
                                                 act (@logit_sample R RS draw
                                                        r j k'))
                                            (cols3 r)))).
        rewrite Rsum_normalized; [reflexivity|].
        pose proof (Hden j). lra. }
    rewrite Rsum_const, length_seq. ring.
  - apply Forall_forall. intros p Hp. apply in_map_iff in Hp.
    destruct Hp as [k [<- Hk]]. apply Rdiv_lt_0_compat; [|exact HS'].
    rewrite tsum_sampling. apply Rsum_map_pos; [exact Hseq|].
    intros j _. rewrite tsum_sampling.
    apply Rdiv_lt_0_compat; [apply Hact | apply Hden].
Qed.

(** Whatever values [torch.randn] draws, with non-negative variances, at
    least one class and one sample, [softmax_mc] returns an [N,C] predictive
    each row of which is a vector of positive probabilities that sum to
    1. *)
Theorem softmax_mc_simplex :
  forall (draw : nat -> nat -> nat -> R) (N C num_mc_samples : nat)
         (mean var : matrix R) (return_samples : bool),
    (1 <= C)%nat -> (1 <= num_mc_samples)%nat ->
    has_shape N C mean -> has_shape N C var ->
    Forall (Forall (fun v => 0 <= v)) var ->
    exists (P : matrix R) (samples : option (list (matrix R))),
      softmax_mc draw mean var num_mc_samples return_samples
      = Ok (P, samples) /\
      has_shape N C P /\
      Forall (fun row => Rsum row = 1 /\ Forall (fun p => 0 < p) row) P.
Proof.
  intros draw N C S mean var rs HC HS Hm Hv _.
  pose proof (fun r => @rows3_shape _ _ N C mean var r Hm Hv) as Hlen.
  assert (Hcols : forall r, In r (rows3 mean var) ->
                  List.length (cols3 r) = C).
  { intros r Hr. destruct (Hlen r Hr) as [H1 H2]. unfold cols3.
    rewrite length_combine, length_seq, length_combine. lia. }
  rewrite (softmax_mc_mk draw rs HS Hm Hv).
  eexists. eexists. split; [reflexivity|].
  split; [now apply has_shape_mk3|].
  unfold mk. apply Forall_forall. intros row Hin.
  apply in_map_iff in Hin. destruct Hin as [r [<- Hr]].
  apply mc_mean_row; [intros x; apply exp_pos | exact HS |].
  intros E. pose proof (Hcols r Hr) as Hc. rewrite E in Hc. simpl in Hc. lia.
Qed.

Lemma mc_mean_zero_variance (act : R -> R) (draw : nat -> nat -> nat -> R)
  (N C num_mc_samples : nat) (mean var : matrix R) :
  (1 <= num_mc_samples)%nat ->
  has_shape N C mean -> has_shape N C var ->
  Forall (Forall (fun v => v = 0)) var ->
  mk (rows3 mean var) cols3 (@mc_mean R RS act draw num_mc_samples)
  = map (fun row => @normalize_row R RS (map act row)) mean.
Proof.
  intros HS Hm Hv Hzero.
  pose proof (mk3_fst Hm Hv) as Em.
  assert (Hx : forall r, In r (rows3 mean var) -> forall j k,
               In k (cols3 r) ->
               @logit_sample R RS draw r j k = fst (snd k)).
  { intros r Hr j k Hk. unfold logit_sample. real_sampling_ops.
    rewrite (in_cols3_snd _ _ _ Hzero Hr Hk), sqrt_0. ring. }
  set (L := rows3 mean var) in *.
  rewrite Em at 1. rewrite map_mk. unfold mk. apply map_ext_in.
  intros r Hr. unfold normalize_row. rewrite !map_map.
  apply map_ext_in. intros k Hk.
  unfold mc_mean, mc_probability. real_sampling_ops. rewrite !tsum_sampling.
  assert (HS' : 0 < INR num_mc_samples) by (apply lt_0_INR; lia).
  erewrite map_ext.
  2:{ intros j. rewrite tsum_sampling, (Hx r Hr j k Hk).
      erewrite (map_ext_in _ (fun k' => act (fst (snd k')))).
      - reflexivity.
      - intros k' Hk'. now rewrite (Hx r Hr j k' Hk'). }
  rewrite Rsum_const, length_seq.
  match goal with
  | |- INR _ * ?c / INR _ = _ => generalize c; intros c0
  end.
  field. lra.
Qed.

(** At zero variance the draws play no part: with one sample or more each
    sampling strategy returns the normalized activation of the mean, the
    softmax of the mean for [softmax_mc]; for [probit_link_mc] when the
    normal distribution function is positive. *)
Theorem mc_zero_variance :
  forall (draw : nat -> nat -> nat -> R) (N C num_mc_samples : nat)
         (mean var : matrix R),
    (1 <= num_mc_samples)%nat ->
    has_shape N C mean -> has_shape N C var ->
    Forall (Forall (fun v => v = 0)) var ->
    softmax_mc draw mean var num_mc_samples false
    = Ok (map softmax mean, None) /\
    logit_link_mc draw mean var num_mc_samples false
    = Ok (map normalize_row (tensor_map sigmoid_R mean), None) /\
    ((forall x, 0 < ndtr_R x) ->
     probit_link_mc draw mean var num_mc_samples false
     = Ok (map normalize_row (tensor_map ndtr_R mean), None)).
Proof.
  intros draw N C S mean var HS Hm Hv Hzero. split; [|split].
  - rewrite (softmax_mc_mk draw false HS Hm Hv).
    rewrite (mc_mean_zero_variance _ draw HS Hm Hv Hzero). reflexivity.
  - unfold logit_link_mc.
    rewrite (normalized_mc_mk sigmoid draw false HS Hm Hv).
    rewrite (mc_mean_zero_variance _ draw HS Hm Hv Hzero).
    unfold tensor_map. now rewrite map_map.
  - intros _. unfold probit_link_mc.
    rewrite (normalized_mc_mk ndtr draw false HS Hm Hv).
    rewrite (mc_mean_zero_variance _ draw HS Hm Hv Hzero).
    unfold tensor_map. now rewrite map_map.
Qed.

End RealSampling.
(** ** The properties above at concrete inputs *)

Section ExtraInputs.

Local Open Scope R_scope.

#[local] Existing Instance real_scalar.

Definition example_zero_var : matrix R := [[0; 0]].

Definition example_single_mean : matrix R := [[1]].

Definition example_single_var : matrix R := [[0.5]].

Lemma example_zero_var_shape : has_shape 1 2 example_zero_var.
Proof. split; [reflexivity | repeat constructor]. Defined.

Lemma example_single_mean_shape : has_shape 1 1 example_single_mean.
Proof. split; [reflexivity | repeat constructor]. Defined.

Lemma example_single_var_shape : has_shape 1 1 example_single_var.
Proof. split; [reflexivity | repeat constructor]. Defined.

Lemma example_var_pos : Forall (Forall (fun v : R => 0 < v)) example_var.
Proof. repeat constructor; lra. Defined.

Lemma example_single_var_pos :
  Forall (Forall (fun v : R => 0 < v)) example_single_var.
Proof. repeat constructor; lra. Defined.


Lemma example_targets : Forall (fun t => (0 <= t < Z.of_nat 2)%Z) [1%Z].
Proof. repeat constructor; simpl; lia. Defined.

Lemma example_moments :
  Forall (Forall (fun m : R => 0 < m))
    [[ndtr_real example_logit; ndtr_real (- example_logit)]].
Proof.
  pose proof ndtr_example_bounds as [B1 B2].
  repeat constructor; [|rewrite ndtr_real_opp]; lra.
Defined.

Lemma return_logits_contract_witness :
  exists logits : matrix R,
    has_shape 1 2 logits /\
    gaussian_pushforward_mean example_mean example_var "probit" "normcdf" true
    = Ok logits /\
    probit_predictive example_mean example_var "probit" "normcdf" true
    = Ok logits /\
    gaussian_pushforward_mean example_mean example_var "probit" "normcdf" false
    = Ok (tensor_map (output_activation "normcdf") logits).
Proof.
  exact (@return_logits_contract R real_scalar 1 2 example_mean example_var
           "probit" "normcdf" example_mean_shape example_var_shape
           (or_introl eq_refl) (or_introl eq_refl)).
Defined.

Lemma pushforward_shapes_witness :
  exists M1 M2 D P : matrix R,
    gaussian_pushforward_mean example_mean example_var "logit" "sigmoid" false
    = Ok M1 /\
    gaussian_pushforward_second_moment example_mean example_var
      "logit" "sigmoid" = Ok M2 /\
    get_mom_dirichlet_approximation example_mean example_var
      "logit" "sigmoid" = Ok D /\
    probit_predictive example_mean example_var "logit" "sigmoid" false
    = Ok P /\
    has_shape 1 2 M1 /\ has_shape 1 2 M2 /\
    has_shape 1 2 D /\ has_shape 1 2 P.
Proof.
  exact (@pushforward_shapes R real_scalar 1 2 example_mean example_var
           "logit" "sigmoid" example_mean_shape example_var_shape
           (or_introl (conj (or_intror eq_refl) (or_intror eq_refl)))).
Defined.

Lemma sigmoid_product_second_moment_bounds_witness :
  exists M1 M2 : matrix R,
    gaussian_pushforward_mean example_mean example_var
      "logit" "sigmoid_product" false = Ok M1 /\
    gaussian_pushforward_second_moment example_mean example_var
      "logit" "sigmoid_product" = Ok M2 /\
    entrywise (fun s m2 => s * s <= m2 <= s) M1 M2.
Proof.
  destruct (@sigmoid_product_second_moment_bounds ndtr_real owens_t_real 1 2
              example_mean example_var example_mean_shape example_var_shape
              example_var_nonneg)
    as (M1 & M2 & H1 & H2 & _ & _ & H).
  exists M1, M2. split; [exact H1|]. split; [exact H2 | exact H].
Defined.

Lemma link_scale_symmetry_witness :
  gaussian_pushforward_mean example_mean example_var "logit" "sigmoid" false
  = gaussian_pushforward_mean example_mean
      (tensor_map (Rmult (PI / 8)) example_var) "probit" "sigmoid" false.
Proof.
  exact (@link_scale_symmetry ndtr_real owens_t_real 1 2 example_mean
           example_var "sigmoid" false example_mean_shape example_var_shape
           (or_introl eq_refl)).
Defined.

Lemma zero_variance_collapse_witness :
  gaussian_pushforward_mean example_mean example_zero_var
    "probit" "normcdf" false
  = Ok (tensor_map ndtr_real example_mean) /\
  gaussian_pushforward_second_moment example_mean example_zero_var
    "logit" "sigmoid_product"
  = Ok (tensor_map (fun m => sigmoid_R m * sigmoid_R m) example_mean).
Proof.
  exact (proj2 (@zero_variance_collapse ndtr_real owens_t_real 1 2
                  example_mean example_zero_var example_mean_shape
                  example_zero_var_shape
                  ltac:(repeat constructor))).
Defined.

Lemma pushforward_mean_antisymmetry_witness :
  exists M1 : matrix R,
    gaussian_pushforward_mean example_mean example_var "probit" "normcdf" false
    = Ok M1 /\
    gaussian_pushforward_mean (tensor_map Ropp example_mean) example_var
      "probit" "normcdf" false
    = Ok (tensor_map (fun m => 1 - m) M1).
Proof.
  exact (@pushforward_mean_antisymmetry ndtr_real owens_t_real 1 2
           example_mean example_var "probit" "normcdf" ndtr_real_opp
           example_mean_shape example_var_shape
           (or_introl eq_refl) (or_introl eq_refl)).
Defined.

Lemma sigmoid_pushforward_range_witness :
  exists M1 : matrix R,
    gaussian_pushforward_mean example_mean example_var "logit" "sigmoid" false
    = Ok M1 /\
    Forall (Forall (fun m => 0 < m < 1)) M1.
Proof.
  exact (@sigmoid_pushforward_range ndtr_real owens_t_real 1 2 example_mean
           example_var "logit" "sigmoid" example_mean_shape example_var_shape
           example_var_nonneg (or_intror eq_refl) (or_introl eq_refl)).
Defined.

Lemma probit_predictive_entries_witness :
  exists P : matrix R,
    probit_predictive example_mean example_var "probit" "normcdf" false
    = Ok P /\
    Forall (Forall (fun p => 1e-10 <= p <= 1)) P /\
    Forall2 (fun row prow =>
               Forall2 (fun m p => m / Rsum row <= p) row prow)
      [[ndtr_real example_logit; ndtr_real (- example_logit)]] P.
Proof.
  exact (@probit_predictive_entries ndtr_real owens_t_real example_mean
           example_var _ "probit" "normcdf" example_pushforward_mean
           example_moments).
Defined.

Lemma moment_matched_dirichlet_predictive_witness :
  exists M1 D : matrix R,
    gaussian_pushforward_mean example_mean example_var
      "logit" "sigmoid_product" false = Ok M1 /\
    get_mom_dirichlet_approximation example_mean example_var
      "logit" "sigmoid_product" = Ok D /\
    Forall (Forall (fun a => 0 < a)) D /\
    dirichlet_predictive D = Ok (map normalize_row M1) /\
    probit_predictive example_mean example_var "logit" "sigmoid_product" false
    = Ok (map (map (fun p => Rmax p 1e-10)) (map normalize_row M1)).
Proof.
  destruct (@sigmoid_product_fit_defined ndtr_real owens_t_real 1 2
              example_mean example_var example_mean_shape example_var_shape
              example_var_pos)
    as (M1 & M2 & H1 & H2 & Hpos & Hdef).
  destruct (@moment_matched_dirichlet_predictive ndtr_real owens_t_real 1 2
              example_mean example_var M1 M2 "logit" "sigmoid_product"
              (le_S 1 1 (le_n 1)) example_mean_shape example_var_shape
              (or_intror (conj eq_refl eq_refl)) H1 H2 Hpos Hdef)
    as (D & HD & HDpos & HP & HS).
  exists M1, D. split; [exact H1|]. split; [exact HD|].
  split; [exact HDpos|]. split; [exact HP | exact HS].
Defined.

Lemma moment_matched_beta_predictive_witness :
  exists (M1 : matrix R) (B : list (list (list R))),
    gaussian_pushforward_mean example_mean example_var
      "logit" "sigmoid_product" false = Ok M1 /\
    get_mom_beta_approximation example_mean example_var
      "logit" "sigmoid_product" = Ok B /\
    beta_predictive B = Ok (map normalize_row M1).
Proof.
  destruct (@sigmoid_product_moments_strict ndtr_real owens_t_real 1 2
              example_mean example_var example_mean_shape example_var_shape
              example_var_pos)
    as (M1 & M2 & H1 & H2 & Hstrict).
  assert (Hnd : entrywise (fun m1 m2 : R => m1 <> m2 /\ m2 <> m1 * m1) M1 M2).
  { eapply entrywise_impl; [|exact Hstrict]. intros x y Hxy. cbv beta in Hxy.
    split; lra. }
  destruct (@moment_matched_beta_predictive ndtr_real owens_t_real 1 2
              example_mean example_var M1 M2 "logit" "sigmoid_product"
              example_mean_shape example_var_shape
              (or_intror (conj eq_refl eq_refl)) H1 H2 Hnd)
    as (B & HB & _ & HP).
  exists M1, B. split; [exact H1|]. split; [exact HB | exact HP].
Defined.

Lemma dirichlet_predictive_projective_witness :
  exists P : matrix R,
    dirichlet_predictive [[1; 3]] = Ok P /\
    dirichlet_predictive (tensor_map (Rmult 2) [[1; 3]]) = Ok P /\
    dirichlet_predictive P = Ok P.
Proof.
  apply (@dirichlet_predictive_projective ndtr_real owens_t_real [[1; 3]] 2).
  - lra.
  - repeat constructor; lra.
Defined.

Lemma softmax_mean_field_simplex_witness :
  exists logits P : matrix R,
    gaussian_pushforward_mean example_mean example_var "logit" "sigmoid" true
    = Ok logits /\
    softmax_mean_field example_mean example_var true = Ok logits /\
    softmax_mean_field example_mean example_var false = Ok P /\
    P = map softmax logits /\
    has_shape 1 2 P /\
    Forall (fun row => Rsum row = 1 /\ Forall (fun p => 0 < p <= 1) row) P.
Proof.
  exact (@softmax_mean_field_simplex ndtr_real owens_t_real 1 2 example_mean
           example_var (le_S 1 1 (le_n 1)) example_mean_shape
           example_var_shape example_var_nonneg).
Defined.

Lemma diag_hessian_softmax_bounds_witness :
  exists H : matrix R,
    diag_hessian_softmax example_mean [1%Z] = Ok H /\
    has_shape 1 2 H /\
    Forall (Forall (fun h => 0 <= h <= 1 / 4)) H.
Proof.
  destruct (@diag_hessian_softmax_bounds ndtr_real owens_t_real 1 2
              example_mean [1%Z] (le_S 1 1 (le_n 1)) example_mean_shape)
    as (H & H1 & _ & H2 & H3 & _).
  exists H. split; [exact H1|]. split; [exact H2 | exact H3].
Defined.

Lemma softmax_laplace_bridge_simplex_witness :
  exists A P : matrix R,
    get_laplace_bridge_approximation example_mean example_var true = Ok A /\
    Forall (Forall (fun a => 0 < a)) A /\
    softmax_laplace_bridge example_mean example_var true false = Ok P /\
    Forall (fun row => Rsum row = 1 /\ Forall (fun p => 0 < p) row) P.
Proof.
  destruct (@softmax_laplace_bridge_simplex ndtr_real owens_t_real 1 2
              example_mean example_var true (le_n 2) example_mean_shape
              example_var_shape example_var_pos)
    as (A & P & H1 & _ & H2 & H3 & _ & _ & H4 & _).
  exists A, P. split; [exact H1|]. split; [exact H2|].
  split; [exact H3 | exact H4].
Defined.

Lemma laplace_bridge_single_class_witness :
  get_laplace_bridge_approximation example_single_mean example_single_var
    false
  = Ok [[0]].
Proof.
  exact (@laplace_bridge_single_class ndtr_real owens_t_real 1
           example_single_mean example_single_var false
           example_single_mean_shape example_single_var_shape
           example_single_var_pos).
Defined.

Lemma normalized_sigmoid_hessian_signs_witness :
  exists H : matrix R,
    diag_hessian_normalized_sigmoid example_mean [1%Z] = Ok H /\
    has_shape 1 2 H /\
    entrywise
      (fun (tcx : Z * nat * R) (h : R) =>
         let '(t, c, x) := tcx in
         (Z.of_nat c = t -> 0 <= h) /\
         (Z.of_nat c <> t -> 0 < x -> h < 0))
      (labelled_logits 2 example_mean [1%Z]) H.
Proof.
  exact (@normalized_sigmoid_hessian_signs ndtr_real owens_t_real 1 2
           example_mean [1%Z] example_mean_shape eq_refl example_targets).
Defined.

Lemma normalized_sigmoid_hessian_single_class_witness :
  diag_hessian_normalized_sigmoid example_single_mean [0%Z] = Ok [[0]].
Proof.
  apply (@normalized_sigmoid_hessian_single_class ndtr_real owens_t_real 1
           example_single_mean [0%Z] example_single_mean_shape eq_refl).
  repeat constructor.
Defined.

Lemma forward_target_indexing_witness :
  NormedSigmoidNLLLoss.forward example_mean [(-1)%Z]
  = NormedSigmoidNLLLoss.forward example_mean [1%Z] /\
  exists msg,
    NormedSigmoidNLLLoss.forward example_mean [2%Z] = Raise (IndexError msg).
Proof.
  pose proof (@forward_target_indexing R real_scalar 1 2 example_mean
                [(-1)%Z] example_mean_shape) as [Hin _].
  pose proof (@forward_target_indexing R real_scalar 1 2 example_mean
                [2%Z] example_mean_shape) as [_ Hout].
  split.
  - apply Hin. split; [simpl; lia | repeat constructor; simpl; lia].
  - apply Hout. right. constructor. simpl. lia.
Defined.


Lemma sampling_strategies_return_witness :
  exists (samples : list (matrix R)) (P1 P2 P3 : matrix R),
    mc_logit_samples (fun _ _ _ => 1) example_mean example_var 2 = Ok samples /\
    List.length samples = 1%nat /\
    Forall (has_shape 2 2) samples /\
    softmax_mc (fun _ _ _ => 1) example_mean example_var 2 true
    = Ok (P1, Some samples) /\
    logit_link_mc (fun _ _ _ => 1) example_mean example_var 2 true
    = Ok (P2, Some samples) /\
    probit_link_mc (fun _ _ _ => 1) example_mean example_var 2 true
    = Ok (P3, Some samples) /\
    has_shape 1 2 P1 /\ has_shape 1 2 P2 /\ has_shape 1 2 P3.
Proof.
  destruct (@sampling_strategies_return R real_scalar (fun _ _ _ => 1) 1 2 2
              example_mean example_var true (le_S 1 1 (le_n 1))
              example_mean_shape example_var_shape)
    as (samples & P1 & P2 & P3 & H1 & _ & H2 & H3 & H4 & H5 & H6 & H7).
  exists samples, P1, P2, P3.
  split; [exact H1|]. split; [exact H2|]. split; [exact H3|].
  split; [exact H4|]. split; [exact H5|]. split; [exact H6 | exact H7].
Defined.

Lemma softmax_mc_simplex_witness :
  exists (P : matrix R) (samples : option (list (matrix R))),
    softmax_mc (fun _ _ _ => 1) example_mean example_var 2 false
    = Ok (P, samples) /\
    has_shape 1 2 P /\
    Forall (fun row => Rsum row = 1 /\ Forall (fun p => 0 < p) row) P.
Proof.
  exact (@softmax_mc_simplex ndtr_real owens_t_real (fun _ _ _ => 1) 1 2 2
           example_mean example_var false (le_S 1 1 (le_n 1))
           (le_S 1 1 (le_n 1)) example_mean_shape example_var_shape
           example_var_nonneg).
Defined.

Lemma mc_zero_variance_witness :
  softmax_mc (fun _ _ _ => 1) example_mean example_zero_var 2 false
  = Ok (map softmax example_mean, None) /\
  logit_link_mc (fun _ _ _ => 1) example_mean example_zero_var 2 false
  = Ok (map normalize_row (tensor_map sigmoid_R example_mean), None).
Proof.
  destruct (@mc_zero_variance ndtr_real owens_t_real (fun _ _ _ => 1) 1 2 2
              example_mean example_zero_var (le_S 1 1 (le_n 1))
              example_mean_shape example_zero_var_shape
              ltac:(repeat constructor))
    as (H1 & H2 & _).
  split; [exact H1 | exact H2].
Defined.

End ExtraInputs.
